(** * The Local Guide: client-side caching and offline resilience

    A shallow embedding of the caching subsystem of the front end
    ([cacheService], [cacheManager], [dataPreloader] and
    [offlineFallbackService]) together with the properties the design
    document states about it.

    The platform is modelled as follows.
    - [localStorage] is a finite map from keys to strings with an optional
      capacity; [setItem] throws [QuotaExceededError] when the write would
      not fit.
    - [JSON.stringify] and [JSON.parse] are a printer and a parser for
      JSON.  A number is an integer or a decimal fraction, held exactly:
      neither the rounding nor the range of a double is modelled, and an
      integer is printed with all its digits.  A string is a byte string,
      and an escape beyond one byte does not parse.
    - A value is a JSON value or [undefined]; objects have own properties
      only, and letter case is that of ASCII.  A coercion to a number or
      a string returns; on the platform it throws at an object with an
      own property [toString], and [coercible] tells the values without.
    - [Date.now()] is an explicit argument [now]; one synchronous function
      body reads one clock value.
    - [navigator.storage.estimate()], [navigator.onLine] and the outcome
      of each network query are inputs.
    - Exceptions are values of a result type. *)

From Stdlib Require Import ZArith QArith Ascii String DecimalString DecimalZ
  DecimalPos Lia.
From stdpp Require Import gmap strings list.

Set Warnings "-register-all".
#[local] Open Scope string_scope.
#[local] Open Scope Z_scope.

(** ** Exceptions *)

Inductive exn :=
| SyntaxError
| TypeError
| RangeError
| QuotaExceededError.

Inductive res (A : Type) :=
| Ok (a : A)
| Throw (e : exn).
Arguments Ok {A} a.
Arguments Throw {A} e.

#[global] Instance res_bind : MBind res := fun A B f r =>
  match r with
  | Ok a => f a
  | Throw e => Throw e
  end.

#[global] Instance res_ret : MRet res := fun A a => Ok a.

(** ** JavaScript values and JSON *)

Module JS.

(** A JSON value.  A number is an integer [n], or [m / 10^e] in lowest
    terms ([m] is not a multiple of ten), which is not an integer.  An
    object is the list of its own properties in insertion order; a
    well-formed object has no repeated key. *)
Inductive json :=
| JNull
| JBool (b : bool)
| JNum (n : Z)
| JDec (m : Z) (e : positive)
| JStr (s : string)
| JArr (l : list json)
| JObj (m : list (string * json)).

(** A run-time value is a JSON value or [undefined]. *)
Definition value := option json.
Definition undefined : value := None.
Definition null : value := Some JNull.

(** *** Objects *)

(** [o[k]] on own properties. *)
Fixpoint obj_get (k : string) (o : list (string * json)) : value :=
  match o with
  | [] => undefined
  | (k', v') :: o' => if String.eqb k' k then Some v' else obj_get k o'
  end.

(** [o[k] = v]: an existing property keeps its place, a new one is added
    last. *)
Fixpoint obj_set (k : string) (v : json) (o : list (string * json))
  : list (string * json) :=
  match o with
  | [] => [(k, v)]
  | (k', v') :: o' =>
      if String.eqb k' k then (k', v) :: o' else (k', v') :: obj_set k v o'
  end.

Definition obj_keys (o : list (string * json)) : list string := map fst o.

Fixpoint nodup_keys (ks : list string) : bool :=
  match ks with
  | [] => true
  | k :: ks' => negb (existsb (String.eqb k) ks') && nodup_keys ks'
  end.

(** Objects nested anywhere in the value have pairwise distinct keys,
    and fractions are in lowest terms. *)
Fixpoint wf (v : json) : bool :=
  match v with
  | JDec m _ => negb (m mod 10 =? 0)
  | JArr l => forallb wf l
  | JObj m => nodup_keys (map fst m) && forallb (fun kv => wf (snd kv)) m
  | _ => true
  end.

(** Property read [v.k].  Reading a property of [null] throws; a number,
    a boolean, a string or an array has none of the properties the
    program reads by name. *)
Definition get_prop (v : json) (k : string) : res value :=
  match v with
  | JNull => Throw TypeError
  | JObj m => Ok (obj_get k m)
  | _ => Ok undefined
  end.

(** *** Characters and numbers in strings *)

Definition is_digit (c : ascii) : bool :=
  (48 <=? nat_of_ascii c)%nat && (nat_of_ascii c <=? 57)%nat.

(** White space, as [trim], [parseInt] and [Number] see it. *)
Definition is_space (c : ascii) : bool :=
  Ascii.eqb c " " || ((9 <=? nat_of_ascii c)%nat && (nat_of_ascii c <=? 13)%nat).

Fixpoint skip_space (s : string) : string :=
  match s with
  | String c s' => if is_space c then skip_space s' else s
  | EmptyString => EmptyString
  end.

Fixpoint trim_end (s : string) : string :=
  match s with
  | EmptyString => EmptyString
  | String c s' =>
      match trim_end s' with
      | EmptyString => if is_space c then EmptyString else String c EmptyString
      | t => String c t
      end
  end.

(** [s.trim()] *)
Definition trim (s : string) : string := trim_end (skip_space s).

(** The value of the leading digits of [s], when there is one. *)
Fixpoint digits_prefix (s : string) (acc : option Z) : option Z :=
  match s with
  | String c s' =>
      if is_digit c
      then digits_prefix s'
             (Some (10 * default 0 acc + Z.of_nat (nat_of_ascii c - 48)))
      else acc
  | EmptyString => acc
  end.

Fixpoint all_digits (s : string) : bool :=
  match s with
  | String c s' => is_digit c && all_digits s'
  | EmptyString => true
  end.

(** [parseInt(s, 10)]; [None] is [NaN]. *)
Definition parseInt10 (s : string) : option Z :=
  match skip_space s with
  | String c r =>
      if Ascii.eqb c "-" then Z.opp <$> digits_prefix r None
      else if Ascii.eqb c "+" then digits_prefix r None
      else digits_prefix (String c r) None
  | EmptyString => None
  end.

(** Decimal spelling of an integer, as [Number.prototype.toString]. *)
Definition string_of_Z (n : Z) : string := NilZero.string_of_int (Z.to_int n).

(** A string that spells an integer in canonical decimal form. *)
Definition Z_of_string (s : string) : option Z :=
  match NilZero.int_of_string s with
  | Some d =>
      let n := Z.of_int d in
      if String.eqb (string_of_Z n) s then Some n else None
  | None => None
  end.

(** *** Numerals *)

(** The digits [s] starts with, and what follows them. *)
Fixpoint take_digits (s : string) : string * string :=
  match s with
  | String c s' =>
      if is_digit c then let (d, r) := take_digits s' in (String c d, r)
      else (EmptyString, s)
  | EmptyString => (EmptyString, EmptyString)
  end.

(** The value of the digits [ds] read after a numeral of value [acc]. *)
Fixpoint digits_value_from (ds : string) (acc : Z) : Z :=
  match ds with
  | String c r => digits_value_from r (10 * acc + Z.of_nat (nat_of_ascii c - 48))
  | EmptyString => acc
  end.

Definition digits_value (ds : string) : Z := digits_value_from ds 0.

Fixpoint zeros (n : nat) : string :=
  match n with
  | O => EmptyString
  | S n' => String "0" (zeros n')
  end.

Fixpoint split_at (n : nat) (s : string) : string * string :=
  match n, s with
  | S n', String c s' => let (a, b) := split_at n' s' in (String c a, b)
  | _, _ => (EmptyString, s)
  end.

(** The digits of [m / 10^e] and the exponent: with [k] digits of which
    [n] stand before the point, the digits are written with the point
    among them ([0 < n <= 21]), after [0.] and [-n] zeros
    ([-6 < n <= 0]), or as one digit, the others after a point, and the
    exponent [n - 1]. *)
Definition exponent_to (x : Z) (k : string) : string :=
  String "e"
    (String (if 0 <=? x then "+"%char else "-"%char) (string_of_Z (Z.abs x) +:+ k)).

Definition digits_to (ds : string) (n : Z) (k : string) : string :=
  if (0 <? n) && (n <=? 21) then
    let (a, b) := split_at (Z.to_nat n) ds in a +:+ String "." (b +:+ k)
  else if (-6 <? n) && (n <=? 0) then
    String "0" (String "." (zeros (Z.to_nat (- n)) +:+ ds +:+ k))
  else
    match ds with
    | String d EmptyString => String d (exponent_to (n - 1) k)
    | String d rest => String d (String "." (rest +:+ exponent_to (n - 1) k))
    | EmptyString => k
    end.

(** Decimal spelling of [m / 10^e], as [Number.prototype.toString],
    followed by [k]. *)
Definition dec_to (m : Z) (e : positive) (k : string) : string :=
  let ds := string_of_Z (Z.abs m) in
  let body := digits_to ds (Z.of_nat (String.length ds) - Z.pos e) k in
  if m <? 0 then String "-" body else body.

Definition string_of_dec (m : Z) (e : positive) : string := dec_to m e EmptyString.

(** [m / 10^e] in lowest terms. *)
Fixpoint reduce (m : Z) (e : nat) : json :=
  match e with
  | O => JNum m
  | S e' =>
      if m mod 10 =? 0 then reduce (m / 10) e' else JDec m (Pos.of_succ_nat e')
  end.

(** The parts of a JSON numeral: a sign, the digits of the integer part,
    a fraction and an exponent, when there are any. *)
Definition read_sign (s : string) : bool * string :=
  match s with
  | String c r => if Ascii.eqb c "-" then (true, r) else (false, s)
  | EmptyString => (false, s)
  end.

Definition read_fraction (s : string) : option string * string :=
  match s with
  | String c r =>
      if Ascii.eqb c "." then let (f, r') := take_digits r in (Some f, r')
      else (None, s)
  | EmptyString => (None, s)
  end.

Definition read_exponent (s : string) : option (bool * string) * string :=
  match s with
  | String c r =>
      if Ascii.eqb c "e" || Ascii.eqb c "E" then
        let (minus, r1) :=
          match r with
          | String c' r' =>
              if Ascii.eqb c' "-" then (true, r')
              else if Ascii.eqb c' "+" then (false, r')
              else (false, r)
          | EmptyString => (false, r)
          end in
        let (ds, r2) := take_digits r1 in (Some (minus, ds), r2)
      else (None, s)
  | EmptyString => (None, s)
  end.

(** The number the parts spell; the integer part has no leading zero,
    and a fraction or an exponent has a digit. *)
Definition number_of_parts (negative : bool) (int : string)
    (frac : option string) (exp : option (bool * string)) : option json :=
  let int_ok :=
    match int with
    | EmptyString => false
    | String c EmptyString => true
    | String c _ => negb (Ascii.eqb c "0")
    end in
  let frac_ok :=
    match frac with
    | Some EmptyString => false
    | _ => true
    end in
  let exp_ok :=
    match exp with
    | Some (_, EmptyString) => false
    | _ => true
    end in
  if int_ok && frac_ok && exp_ok then
    let fraction := default EmptyString frac in
    let mantissa := digits_value (int +:+ fraction) in
    let m := if negative then - mantissa else mantissa in
    let exponent :=
      match exp with
      | Some (minus, ds) => if minus then - digits_value ds else digits_value ds
      | None => 0
      end - Z.of_nat (String.length fraction) in
    Some (if 0 <=? exponent then JNum (m * 10 ^ exponent)
          else reduce m (Z.to_nat (- exponent)))
  else None.

Definition unsigned_number (negative : bool) (s : string) : option json :=
  let (int, s1) := take_digits s in
  let (frac, s2) := read_fraction s1 in
  let (exp, s3) := read_exponent s2 in
  match s3 with
  | EmptyString => number_of_parts negative int frac exp
  | String _ _ => None
  end.

Definition number_of_token (tok : string) : option json :=
  let (negative, s) := read_sign tok in unsigned_number negative s.

(** [Number(s)] for a string: white space around is dropped, the empty
    string is 0, and a decimal literal (a sign, digits with or without a
    point, an exponent) is its value; [Infinity] and the radix prefixes
    are no numbers of this model and read as [NaN]. *)
Definition number_of_string (s : string) : option Q :=
  match trim s with
  | EmptyString => Some 0%Q
  | String c r =>
      let (negative, s0) :=
        if Ascii.eqb c "-" then (true, r)
        else if Ascii.eqb c "+" then (false, r)
        else (false, String c r) in
      let (int, s1) := take_digits s0 in
      let (frac, s2) := read_fraction s1 in
      let (exp, s3) := read_exponent s2 in
      let fraction := default EmptyString frac in
      let mantissa := digits_value (int +:+ fraction) in
      let exponent :=
        match exp with
        | Some (minus, ds) => if minus then - digits_value ds else digits_value ds
        | None => 0
        end - Z.of_nat (String.length fraction) in
      match s3, int +:+ fraction, exp with
      | String _ _, _, _ => None
      | _, EmptyString, _ => None
      | _, _, Some (_, EmptyString) => None
      | _, _, _ =>
          Some (inject_Z (if negative then - mantissa else mantissa)
                * 10 ^ exponent)%Q
      end
  end.

(** *** Coercions *)

Definition truthy (v : value) : bool :=
  match v with
  | None => false
  | Some JNull => false
  | Some (JBool b) => b
  | Some (JNum n) => negb (n =? 0)
  | Some (JDec _ _) => true
  | Some (JStr s) => negb (String.eqb s EmptyString)
  | Some (JArr _) => true
  | Some (JObj _) => true
  end.

(** [a || b] *)
Definition js_or (a b : value) : value := if truthy a then a else b.

(** [String(v)]: an array joins its elements with commas, [null]
    elements as empty strings. *)
Fixpoint to_string (v : json) : string :=
  match v with
  | JNull => "null"
  | JBool true => "true"
  | JBool false => "false"
  | JNum n => string_of_Z n
  | JDec m e => string_of_dec m e
  | JStr s => s
  | JArr l =>
      let element x :=
        match x with
        | JNull => EmptyString
        | _ => to_string x
        end in
      match l with
      | [] => EmptyString
      | x :: xs =>
          element x +:+
          (fix rest (xs : list json) : string :=
             match xs with
             | [] => EmptyString
             | y :: ys => "," +:+ element y +:+ rest ys
             end) xs
      end
  | JObj _ => "[object Object]"
  end.

(** [ToPrimitive]: an array or an object becomes its string.  A parsed
    object with an own property [toString] has no primitive value (the
    platform throws a [TypeError] there); [coercible] says that [v] meets
    none on the way, and the coercions below are those of the platform on
    such values. *)
Fixpoint coercible (v : json) : bool :=
  match v with
  | JObj m => negb (existsb (String.eqb "toString") (map fst m))
  | JArr l => forallb coercible l
  | _ => true
  end.

Definition to_primitive (v : json) : json :=
  match v with
  | JArr _ | JObj _ => JStr (to_string v)
  | _ => v
  end.

(** [ToNumber]; [None] is [NaN]. *)
Definition to_number (v : value) : option Q :=
  match v with
  | None => None
  | Some j =>
      match to_primitive j with
      | JNull => Some 0%Q
      | JBool b => Some (if b then 1%Q else 0%Q)
      | JNum n => Some (inject_Z n)
      | JDec m e => Some (m # 10 ^ e)%Q
      | JStr s => number_of_string s
      | _ => None
      end
  end.

Definition Qlt_bool (x y : Q) : bool := negb (Qle_bool y x).

(** [a < b]: two strings (after [ToPrimitive]) compare by code units,
    anything else as numbers, and a comparison with [NaN] is false. *)
Definition js_lt (a b : value) : bool :=
  match to_primitive <$> a, to_primitive <$> b with
  | Some (JStr s), Some (JStr t) => String.ltb s t
  | _, _ =>
      match to_number a, to_number b with
      | Some x, Some y => Qlt_bool x y
      | _, _ => false
      end
  end.

Definition js_gt (a b : value) : bool := js_lt b a.

(** [a - b] *)
Definition js_sub (a b : value) : option Q :=
  match to_number a, to_number b with
  | Some x, Some y => Some (x - y)%Q
  | _, _ => None
  end.

(** Element read [v[k]] on own properties: a property of an object, an
    element or the length of an array or of a string. *)
Definition index_of_key (k : string) : option nat :=
  match Z_of_string k with
  | Some i => if 0 <=? i then Some (Z.to_nat i) else None
  | None => None
  end.

Definition get_elem (v : json) (k : string) : value :=
  match v with
  | JObj m => obj_get k m
  | JArr l =>
      if String.eqb k "length" then Some (JNum (Z.of_nat (length l)))
      else match index_of_key k with
           | Some i => l !! i
           | None => undefined
           end
  | JStr s =>
      if String.eqb k "length" then Some (JNum (Z.of_nat (String.length s)))
      else match index_of_key k with
           | Some i =>
               match String.get i s with
               | Some c => Some (JStr (String c EmptyString))
               | None => undefined
               end
           | None => undefined
           end
  | _ => undefined
  end.

(** Element write [v[k] = x] in strict mode: a primitive throws; an array
    takes the value at an index, is cut or padded by a write to its
    length, and keeps any other property out of its serialization. *)
Definition arr_set (i : nat) (x : json) (l : list json) : list json :=
  if (i <? length l)%nat then <[i:=x]> l
  else l ++ replicate (i - length l) JNull ++ [x].

Definition set_elem (v : json) (k : string) (x : json) : res json :=
  match v with
  | JObj m => Ok (JObj (obj_set k x m))
  | JArr l =>
      if String.eqb k "length" then
        match to_number (Some x) with
        | Some q =>
            let n := (Qnum q / Z.pos (Qden q))%Z in
            if Qeq_bool q (inject_Z n) && (0 <=? n) && (n <? 2 ^ 32)
            then Ok (JArr (take (Z.to_nat n) l
                           ++ replicate (Z.to_nat n - length l) JNull))
            else Throw RangeError
        | None => Throw RangeError
        end
      else
        match index_of_key k with
        | Some i => Ok (JArr (arr_set i x l))
        | None => Ok (JArr l)
        end
  | _ => Throw TypeError
  end.

(** [Array.prototype.sort]: a stable sort; [cmp a b] is the number the
    comparator returns, [None] for [NaN], which counts as zero. *)
Section Sort.
Context {A : Type} (cmp : A -> A -> option Q).

Definition after (y x : A) : bool :=
  match cmp y x with
  | Some d => Qlt_bool 0 d
  | None => false
  end.

Fixpoint insert_sorted (x : A) (l : list A) : list A :=
  match l with
  | [] => [x]
  | y :: l' => if after y x then x :: y :: l' else y :: insert_sorted x l'
  end.

Definition js_sort (l : list A) : list A :=
  fold_left (fun acc x => insert_sorted x acc) l [].
End Sort.

(** *** [String.prototype] *)

Definition lower_ascii (c : ascii) : ascii :=
  let n := nat_of_ascii c in
  if (65 <=? n)%nat && (n <=? 90)%nat then ascii_of_nat (n + 32) else c.

Fixpoint toLowerCase (s : string) : string :=
  match s with
  | EmptyString => EmptyString
  | String c s' => String (lower_ascii c) (toLowerCase s')
  end.

Fixpoint startsWith (s p : string) : bool :=
  match p, s with
  | EmptyString, _ => true
  | String _ _, EmptyString => false
  | String a p', String b s' => Ascii.eqb a b && startsWith s' p'
  end.

Fixpoint includes (s t : string) : bool :=
  startsWith s t ||
  match s with
  | EmptyString => false
  | String _ s' => includes s' t
  end.

(** *** [JSON.stringify] *)

Definition dquote : ascii := "034"%char.
Definition backslash : ascii := "092"%char.

Definition hex_digit (n : nat) : ascii :=
  if (n <? 10)%nat then ascii_of_nat (48 + n) else ascii_of_nat (87 + n).

Definition hex_value (c : ascii) : option nat :=
  let n := nat_of_ascii c in
  if (48 <=? n)%nat && (n <=? 57)%nat then Some (n - 48)%nat
  else if (97 <=? n)%nat && (n <=? 102)%nat then Some (n - 87)%nat
  else if (65 <=? n)%nat && (n <=? 70)%nat then Some (n - 55)%nat
  else None.

(** One character of a quoted string, followed by [k]. *)
Definition escape_char (c : ascii) (k : string) : string :=
  if Ascii.eqb c dquote then String backslash (String dquote k)
  else if Ascii.eqb c backslash then String backslash (String backslash k)
  else if Ascii.eqb c "008" then String backslash (String "b" k)
  else if Ascii.eqb c "012" then String backslash (String "f" k)
  else if Ascii.eqb c "010" then String backslash (String "n" k)
  else if Ascii.eqb c "013" then String backslash (String "r" k)
  else if Ascii.eqb c "009" then String backslash (String "t" k)
  else if (nat_of_ascii c <? 32)%nat then
    String backslash (String "u" (String "0" (String "0"
      (String (hex_digit (nat_of_ascii c / 16))
        (String (hex_digit (nat_of_ascii c mod 16)) k)))))
  else String c k.

Fixpoint escape_to (s : string) (k : string) : string :=
  match s with
  | EmptyString => k
  | String c s' => escape_char c (escape_to s' k)
  end.

Definition quote_to (s : string) (k : string) : string :=
  String dquote (escape_to s (String dquote k)).

(** The text of [v] followed by [k]. *)
Fixpoint stringify_to (v : json) (k : string) : string :=
  match v with
  | JNull => "null" +:+ k
  | JBool true => "true" +:+ k
  | JBool false => "false" +:+ k
  | JNum n => string_of_Z n +:+ k
  | JDec m e => dec_to m e k
  | JStr s => quote_to s k
  | JArr l =>
      String "["
        match l with
        | [] => String "]" k
        | x :: xs =>
            stringify_to x
              ((fix elements (xs : list json) : string :=
                  match xs with
                  | [] => String "]" k
                  | y :: ys => String "," (stringify_to y (elements ys))
                  end) xs)
        end
  | JObj m =>
      String "{"
        match m with
        | [] => String "}" k
        | (key, x) :: xs =>
            quote_to key (String ":" (stringify_to x
              ((fix members (xs : list (string * json)) : string :=
                  match xs with
                  | [] => String "}" k
                  | (key', y) :: ys =>
                      String "," (quote_to key'
                        (String ":" (stringify_to y (members ys))))
                  end) xs)))
        end
  end.

Definition JSON_stringify (v : json) : string := stringify_to v EmptyString.

(** *** [JSON.parse] *)

Definition is_ws (c : ascii) : bool :=
  Ascii.eqb c " " || Ascii.eqb c "009" || Ascii.eqb c "010"
  || Ascii.eqb c "013".

Fixpoint skip_ws (s : string) : string :=
  match s with
  | String c s' => if is_ws c then skip_ws s' else s
  | EmptyString => EmptyString
  end.

Fixpoint strip_prefix (p s : string) : option string :=
  match p, s with
  | EmptyString, _ => Some s
  | String a p', String b s' =>
      if Ascii.eqb a b then strip_prefix p' s' else None
  | String _ _, EmptyString => None
  end.

(** The characters of a string literal up to its closing quote. *)
Fixpoint parse_chars (s : string) : option (string * string) :=
  match s with
  | EmptyString => None
  | String c r =>
      if Ascii.eqb c dquote then Some (EmptyString, r)
      else if Ascii.eqb c backslash then
        match r with
        | EmptyString => None
        | String e r' =>
            let continue (ch : ascii) (rest : string) :=
              match parse_chars rest with
              | Some (t, r'') => Some (String ch t, r'')
              | None => None
              end in
            if Ascii.eqb e dquote then continue dquote r'
            else if Ascii.eqb e backslash then continue backslash r'
            else if Ascii.eqb e "/" then continue "/"%char r'
            else if Ascii.eqb e "b" then continue "008"%char r'
            else if Ascii.eqb e "f" then continue "012"%char r'
            else if Ascii.eqb e "n" then continue "010"%char r'
            else if Ascii.eqb e "r" then continue "013"%char r'
            else if Ascii.eqb e "t" then continue "009"%char r'
            else if Ascii.eqb e "u" then
              match r' with
              | String h1 (String h2 (String h3 (String h4 r''))) =>
                  match hex_value h1, hex_value h2, hex_value h3,
                        hex_value h4 with
                  | Some a, Some b, Some c', Some d =>
                      let code := (((a * 16 + b) * 16 + c') * 16 + d)%nat in
                      if (code <? 256)%nat
                      then continue (ascii_of_nat code) r''
                      else None
                  | _, _, _, _ => None
                  end
              | _ => None
              end
            else None
        end
      else if (nat_of_ascii c <? 32)%nat then None
      else
        match parse_chars r with
        | Some (t, r') => Some (String c t, r')
        | None => None
        end
  end.

Definition is_num_char (c : ascii) : bool :=
  Ascii.eqb c "-" || Ascii.eqb c "+" || Ascii.eqb c "." || Ascii.eqb c "e"
  || Ascii.eqb c "E"
  || ((48 <=? nat_of_ascii c)%nat && (nat_of_ascii c <=? 57)%nat).

Fixpoint span_num (s : string) : string * string :=
  match s with
  | String c s' =>
      if is_num_char c
      then let (t, r) := span_num s' in (String c t, r)
      else (EmptyString, s)
  | EmptyString => (EmptyString, EmptyString)
  end.

Definition parse_number (s : string) : option (json * string) :=
  let (tok, rest) := span_num s in
  match number_of_token tok with
  | Some v => Some (v, rest)
  | None => None
  end.

(** Properties are defined in source order, so a repeated key keeps its
    first place and its last value. *)
Definition obj_of_members (ms : list (string * json)) : list (string * json) :=
  fold_left (fun o kv => obj_set (fst kv) (snd kv) o) ms [].

(** Skip white space, then read the character [c]. *)
Definition expect (c : ascii) (s : string) : option string :=
  match skip_ws s with
  | EmptyString => None
  | String c' r => if Ascii.eqb c' c then Some r else None
  end.

Section Parser.
Variable pv : string -> option (json * string).

Fixpoint parse_elements (fuel : nat) (s : string)
  : option (list json * string) :=
  match fuel with
  | O => None
  | S fuel' =>
      match pv s with
      | None => None
      | Some (v, r) =>
          match expect "," r with
          | Some r' =>
              match parse_elements fuel' r' with
              | Some (vs, r'') => Some (v :: vs, r'')
              | None => None
              end
          | None =>
              match expect "]" r with
              | Some r' => Some ([v], r')
              | None => None
              end
          end
      end
  end.

Fixpoint parse_members (fuel : nat) (s : string)
  : option (list (string * json) * string) :=
  match fuel with
  | O => None
  | S fuel' =>
      match expect dquote s with
      | None => None
      | Some r0 =>
          match parse_chars r0 with
          | None => None
          | Some (key, r1) =>
              match expect ":" r1 with
              | None => None
              | Some r2 =>
                  match pv r2 with
                  | None => None
                  | Some (v, r3) =>
                      match expect "," r3 with
                      | Some r4 =>
                          match parse_members fuel' r4 with
                          | Some (ms, r5) => Some ((key, v) :: ms, r5)
                          | None => None
                          end
                      | None =>
                          match expect "}" r3 with
                          | Some r4 => Some ([(key, v)], r4)
                          | None => None
                          end
                      end
                  end
              end
          end
      end
  end.
End Parser.

Fixpoint parse_value (fuel : nat) (s : string) : option (json * string) :=
  match fuel with
  | O => None
  | S fuel' =>
      match skip_ws s with
      | EmptyString => None
      | String c r =>
          if Ascii.eqb c "n" then
            match strip_prefix "ull" r with
            | Some r' => Some (JNull, r')
            | None => None
            end
          else if Ascii.eqb c "t" then
            match strip_prefix "rue" r with
            | Some r' => Some (JBool true, r')
            | None => None
            end
          else if Ascii.eqb c "f" then
            match strip_prefix "alse" r with
            | Some r' => Some (JBool false, r')
            | None => None
            end
          else if Ascii.eqb c dquote then
            match parse_chars r with
            | Some (str, r') => Some (JStr str, r')
            | None => None
            end
          else if Ascii.eqb c "[" then
            match expect "]" r with
            | Some r' => Some (JArr [], r')
            | None =>
                match parse_elements (parse_value fuel') fuel' r with
                | Some (vs, r') => Some (JArr vs, r')
                | None => None
                end
            end
          else if Ascii.eqb c "{" then
            match expect "}" r with
            | Some r' => Some (JObj [], r')
            | None =>
                match parse_members (parse_value fuel') fuel' r with
                | Some (ms, r') => Some (JObj (obj_of_members ms), r')
                | None => None
                end
            end
          else parse_number (String c r)
      end
  end.

(** [JSON.parse]; [None] stands for a thrown [SyntaxError]. *)
Definition JSON_parse (s : string) : option json :=
  match parse_value (S (String.length s)) s with
  | Some (v, r) =>
      match skip_ws r with
      | EmptyString => Some v
      | String _ _ => None
      end
  | None => None
  end.

End JS.

Import JS.

(** ** [localStorage] *)

Module Storage.

Record t := mk {
  items : gmap string string;
  capacity : option nat;   (* [None]: no limit *)
}.

(** Characters held: keys and values. *)
Definition usage (m : gmap string string) : nat :=
  map_fold (fun k v acc => (String.length k + String.length v + acc)%nat)
    0%nat m.

Definition fits (k v : string) (s : t) : bool :=
  match capacity s with
  | None => true
  | Some c => (usage (<[k:=v]> (items s)) <=? c)%nat
  end.

Definition getItem (k : string) (s : t) : option string := items s !! k.

Definition setItem (k v : string) (s : t) : res t :=
  if fits k v s then Ok (mk (<[k:=v]> (items s)) (capacity s))
  else Throw QuotaExceededError.

Definition removeItem (k : string) (s : t) : t :=
  mk (delete k (items s)) (capacity s).

(** [Object.keys(localStorage)], in the order the platform enumerates. *)
Definition keys (s : t) : list string := (map_to_list (items s)).*1.

End Storage.

(** A string is truthy when it is not empty. *)
Definition nonempty (s : string) : bool := negb (String.eqb s EmptyString).

(** [v.length > 0] *)
Definition has_elements (v : json) : bool :=
  js_gt (get_elem v "length") (Some (JNum 0)).

(** [v !== null] *)
Definition not_null (v : value) : bool :=
  match v with
  | Some JNull => false
  | _ => true
  end.

(** [Object.keys(v).length]: the own enumerable properties of an object,
    the indices of an array or of a string, none for another primitive. *)
Definition own_keys (v : json) : nat :=
  match v with
  | JObj m => length m
  | JArr l => length l
  | JStr s => String.length s
  | _ => 0%nat
  end.

(** ** cacheService *)

Module CacheService.
Import Storage.

(** [CACHE_KEYS], as [Object.entries] lists it. *)
Definition RECOMMENDATIONS : string := "local-guide-recommendations".
Definition ESSENTIAL_DATA : string := "local-guide-essential-data".
Definition TRANSLATIONS : string := "local-guide-translations".
Definition USER_PREFERENCES : string := "userPreferences".
Definition LAST_SYNC : string := "local-guide-last-sync".

Definition CACHE_KEYS : list (string * string) :=
  [("RECOMMENDATIONS", RECOMMENDATIONS);
   ("ESSENTIAL_DATA", ESSENTIAL_DATA);
   ("TRANSLATIONS", TRANSLATIONS);
   ("USER_PREFERENCES", USER_PREFERENCES);
   ("LAST_SYNC", LAST_SYNC)].

(** [CACHE_EXPIRATION], in milliseconds. *)
Definition EXPIRATION_RECOMMENDATIONS : Z := 24 * 60 * 60 * 1000.
Definition EXPIRATION_ESSENTIAL_DATA : Z := 7 * 24 * 60 * 60 * 1000.
Definition EXPIRATION_TRANSLATIONS : Z := 30 * 24 * 60 * 60 * 1000.
Definition EXPIRATION_USER_PREFERENCES : Z := 365 * 24 * 60 * 60 * 1000.

Definition storageQuotaWarningThreshold : Q := 0.8%Q.

(** The envelope [{data, timestamp, expiration}]. *)
Definition CacheItem (data : json) (timestamp expiration : Z) : json :=
  JObj [("data", data); ("timestamp", JNum timestamp);
        ("expiration", JNum expiration)].

(** One step of [clearExpiredItems]: an expired or unreadable entry is
    removed. *)
Definition clearExpiredItem (now : Z) (key : string) (s : t) : t :=
  match getItem key s with
  | None => s
  | Some cached =>
      if nonempty cached then
        match JSON_parse cached with
        | None => removeItem key s
        | Some cacheItem =>
            match get_prop cacheItem "expiration" with
            | Throw _ => removeItem key s
            | Ok expiration =>
                if js_gt (Some (JNum now)) expiration
                then removeItem key s else s
            end
        end
      else s
  end.

Definition clearExpiredItems (now : Z) (s : t) : t :=
  fold_left (fun s key => clearExpiredItem now key s) (CACHE_KEYS.*2) s.

(** [JSON.parse(item).timestamp || 0] *)
Definition timestamp_of (item : string) : res value :=
  match JSON_parse item with
  | None => Throw SyntaxError
  | Some parsed =>
      ts ← get_prop parsed "timestamp"; Ok (js_or ts (Some (JNum 0)))
  end.

Fixpoint with_timestamps (l : list (string * string * string))
  : res (list (string * string * string * value)) :=
  match l with
  | [] => Ok []
  | c :: l' =>
      ts ← timestamp_of (snd c);
      rest ← with_timestamps l';
      Ok ((c, ts) :: rest)
  end.

(** Half of the caches present, oldest first, are dropped; the user
    preferences are kept. *)
Definition handleStorageQuotaExceeded (now : Z) (s : t) : res t :=
  let s1 := clearExpiredItems now s in
  let cacheInfo :=
    omap (fun '(name, key) =>
            match getItem key s1 with
            | Some item => if nonempty item then Some (name, key, item)
                           else None
            | None => None
            end) CACHE_KEYS in
  stamped ← with_timestamps cacheInfo;
  let oldest :=
    take (Nat.div2 (S (length cacheInfo)))
      (js_sort (fun a b => js_sub (snd a) (snd b)) stamped) in
  Ok (fold_left
        (fun s c =>
           let key := snd (fst (fst c)) in
           if String.eqb key USER_PREFERENCES then s else removeItem key s)
        oldest s1).

(** [setCache]: a failed write is logged; when the quota is exceeded the
    handler runs.  The handler reads only entries that
    [clearExpiredItems] has just found readable, so reading them does
    not throw (lemma [handleStorageQuotaExceeded_total]).  On the
    platform the subtraction in its sort throws a [TypeError] at a
    timestamp that is not [coercible], which the coercions of the model
    do not follow. *)
Definition setCache (now : Z) (key : string) (data : json) (expiration : Z)
    (s : t) : t :=
  let cacheItem := CacheItem data now (now + expiration) in
  match setItem key (JSON_stringify cacheItem) s with
  | Ok s' => s'
  | Throw QuotaExceededError =>
      match handleStorageQuotaExceeded now s with
      | Ok s' => s'
      | Throw _ => s
      end
  | Throw _ => s
  end.

(** [getCache]: the stored data, or [null]. *)
Definition getCache (now : Z) (key : string) (s : t) : value * t :=
  match getItem key s with
  | None => (null, s)
  | Some cached =>
      if nonempty cached then
        match JSON_parse cached with
        | None => (null, s)
        | Some cacheItem =>
            match get_prop cacheItem "expiration" with
            | Throw _ => (null, s)
            | Ok expiration =>
                if js_gt (Some (JNum now)) expiration
                then (null, removeItem key s)
                else
                  match get_prop cacheItem "data" with
                  | Ok data => (data, s)
                  | Throw _ => (null, s)
                  end
            end
        end
      else (null, s)
  end.

Definition cacheRecommendations (now : Z) (recommendations : json) (s : t) : t :=
  setCache now RECOMMENDATIONS recommendations EXPIRATION_RECOMMENDATIONS s.

Definition getCachedRecommendations (now : Z) (s : t) : value * t :=
  getCache now RECOMMENDATIONS s.

Definition cacheEssentialData (now : Z) (data : json) (s : t) : t :=
  setCache now ESSENTIAL_DATA data EXPIRATION_ESSENTIAL_DATA s.

Definition getCachedEssentialData (now : Z) (s : t) : value * t :=
  getCache now ESSENTIAL_DATA s.

Definition getCachedTranslations (now : Z) (s : t) : value * t :=
  getCache now TRANSLATIONS s.

(** [cacheTranslation]: the whole mapping is read, extended and written
    back under a fresh envelope. *)
Definition cacheTranslation (now : Z) (key translation : string) (s : t)
  : res t :=
  let (cached, s1) := getCachedTranslations now s in
  let translations :=
    match js_or cached (Some (JObj [])) with
    | Some v => v
    | None => JObj []
    end in
  translations' ← set_elem translations key (JStr translation);
  Ok (setCache now TRANSLATIONS translations' EXPIRATION_TRANSLATIONS s1).

(** [getCachedTranslation]: [translations?.[key] || null] *)
Definition getCachedTranslation (now : Z) (key : string) (s : t) : value * t :=
  let (translations, s1) := getCachedTranslations now s in
  let found :=
    match translations with
    | None | Some JNull => undefined
    | Some v => get_elem v key
    end in
  (js_or found null, s1).

Definition cacheUserPreferences (now : Z) (preferences : json) (s : t) : t :=
  setCache now USER_PREFERENCES preferences EXPIRATION_USER_PREFERENCES s.

Definition getCachedUserPreferences (now : Z) (s : t) : value * t :=
  getCache now USER_PREFERENCES s.

Definition updateLastSync (now : Z) (s : t) : res t :=
  setItem LAST_SYNC (string_of_Z now) s.

(** [getLastSync]: [None] is [null], [Some None] is [NaN]. *)
Definition getLastSync (s : t) : option (option Z) :=
  match getItem LAST_SYNC s with
  | Some lastSync =>
      if nonempty lastSync then Some (parseInt10 lastSync) else None
  | None => None
  end.

Definition needsRefresh (maxAge : Z) (now : Z) (s : t) : bool :=
  match getLastSync s with
  | Some (Some lastSync) =>
      if lastSync =? 0 then true else maxAge <? now - lastSync
  | _ => true
  end.

Definition clearCache (key : string) (s : t) : t := removeItem key s.

Definition clearAllCaches (s : t) : t :=
  fold_left (fun s key => removeItem key s) (CACHE_KEYS.*2) s.

(** What [navigator.storage.estimate()] does on this platform. *)
Inductive StorageEstimate :=
| EstimateUnsupported
| EstimateRejected
| EstimateResolved (usage quota : option Z).

Record CacheInfo := mkCacheInfo {
  used : Z;
  quota : Z;
  percentage : Q;
  nearLimit : bool;
}.

Definition Qgt_bool (x y : Q) : bool := negb (Qle_bool x y).

Definition getCacheInfo (e : StorageEstimate) : CacheInfo :=
  match e with
  | EstimateResolved usage quota =>
      let used := default 0 usage in
      let quota := default 0 quota in
      let percentage :=
        if 0 <? quota then (inject_Z used / inject_Z quota)%Q else 0%Q in
      mkCacheInfo used quota percentage
        (Qgt_bool percentage storageQuotaWarningThreshold)
  | _ => mkCacheInfo 0 0 0%Q false
  end.

Definition defaultEssentialData : json :=
  JObj [("popularRecommendations", JArr []);
        ("categories",
         JArr [JStr "street_food"; JStr "shops"; JStr "markets";
               JStr "souvenirs"; JStr "clothing"; JStr "crafts"]);
        ("supportedLanguages",
         JArr [JObj [("code", JStr "en"); ("name", JStr "English");
                     ("nativeName", JStr "English")];
               JObj [("code", JStr "hi"); ("name", JStr "Hindi");
                     ("nativeName", JStr "हिन्दी")];
               JObj [("code", JStr "te"); ("name", JStr "Telugu");
                     ("nativeName", JStr "తెలుగు")]])].

Definition preloadEssentialData (now : Z) (s : t) : t :=
  let (cachedData, s1) := getCachedEssentialData now s in
  if truthy cachedData && negb (needsRefresh EXPIRATION_ESSENTIAL_DATA now s1)
  then s1
  else
    let s2 := cacheEssentialData now defaultEssentialData s1 in
    match updateLastSync now s2 with
    | Ok s3 => s3
    | Throw _ => s2
    end.

Definition isOffline (onLine : bool) : bool := negb onLine.

Record OfflineFallback := mkFallback {
  recommendations : json;   (* [getCachedRecommendations() || []] *)
  essentialData : value;
  preferences : value;
}.

(** [getOfflineFallback]: the three reads, in the order of the object
    literal. *)
Definition getOfflineFallback (now : Z) (s : t) : OfflineFallback * t :=
  let (cachedRecs, s1) := getCachedRecommendations now s in
  let (cachedData, s2) := getCachedEssentialData now s1 in
  let (cachedPrefs, s3) := getCachedUserPreferences now s2 in
  (mkFallback (default (JArr []) (js_or cachedRecs (Some (JArr []))))
     cachedData cachedPrefs, s3).

End CacheService.

(** ** cacheManager *)

Module CacheManager.
Import Storage.

Definition MAX_STORAGE_PERCENTAGE : Q := 0.85%Q.
Definition PREFIX : string := "local-guide-".

Definition isEssentialKey (key : string) : bool :=
  existsb (fun essentialKey => includes key essentialKey)
    ["userPreferences"; "local-guide-essential-data"; "local-guide-last-sync"].

(** One step of [cleanExpiredItems]. *)
Definition cleanExpiredItem (now : Z) (preserveEssential : bool)
    (s : t) (key : string) : t :=
  if negb (startsWith key PREFIX) then s
  else if preserveEssential && isEssentialKey key then s
  else
    match getItem key s with
    | None => s
    | Some item =>
        if nonempty item then
          match JSON_parse item with
          | None => removeItem key s
          | Some parsed =>
              match get_prop parsed "expiration" with
              | Throw _ => removeItem key s
              | Ok expiration =>
                  if truthy expiration && js_gt (Some (JNum now)) expiration
                  then removeItem key s else s
              end
          end
        else s
    end.

Definition cleanExpiredItems (now : Z) (preserveEssential : bool) (s : t) : t :=
  fold_left (cleanExpiredItem now preserveEssential) (keys s) s.

Record Entry := mkEntry {
  entry_key : string;
  entry_timestamp : value;
  entry_size : nat;
}.

Definition by_timestamp (a b : Entry) : option Q :=
  js_sub (entry_timestamp a) (entry_timestamp b).

Definition candidates (preserveEssential : bool) (s : t) : list string :=
  filter (fun key => Is_true (negb preserveEssential || negb (isEssentialKey key)))
    (filter (fun key => Is_true (startsWith key PREFIX)) (keys s)).

(** [parsed.timestamp || 0], or [None] when reading it throws. *)
Definition stamp (item : string) : option value :=
  match JSON_parse item with
  | None => None
  | Some parsed =>
      match get_prop parsed "timestamp" with
      | Ok ts => Some (js_or ts (Some (JNum 0)))
      | Throw _ => None
      end
  end.

Definition cleanByAge (now : Z) (maxAge : Z) (preserveEssential : bool)
    (s : t) : t :=
  let cutoffTime := now - maxAge in
  let itemsWithAge :=
    js_sort by_timestamp
      (omap (fun key =>
               match getItem key s with
               | Some item =>
                   if nonempty item then
                     match stamp item with
                     | Some ts => Some (mkEntry key ts (String.length item))
                     | None => Some (mkEntry key (Some (JNum 0)) 0)
                     end
                   else None
               | None => None
               end) (candidates preserveEssential s)) in
  fold_left
    (fun s item =>
       if js_lt (entry_timestamp item) (Some (JNum cutoffTime))
       then removeItem (entry_key item) s else s)
    itemsWithAge s.

Fixpoint removeUntil (maxSize : Z) (currentSize : Z) (l : list Entry) (s : t)
  : t :=
  match l with
  | [] => s
  | item :: l' =>
      if currentSize <=? maxSize then s
      else removeUntil maxSize (currentSize - Z.of_nat (entry_size item)) l'
             (removeItem (entry_key item) s)
  end.

Definition cleanBySize (maxSize : Z) (preserveEssential : bool) (s : t) : t :=
  let present :=
    omap (fun key =>
            match getItem key s with
            | Some item =>
                if nonempty item then
                  Some (mkEntry key
                          (default (Some (JNum 0)) (stamp item))
                          (String.length item))
                else None
            | None => None
            end) (candidates preserveEssential s) in
  let currentSize :=
    fold_left (fun acc e => acc + Z.of_nat (entry_size e)) present 0 in
  removeUntil maxSize currentSize (js_sort by_timestamp present) s.

Record CacheCleanupOptions := mkOptions {
  maxAge : option Z;
  maxSize : option Z;
  preserveEssential : option bool;
}.

Definition overLimit (info : CacheService.CacheInfo) (maxSize : Z) : bool :=
  (maxSize <? CacheService.used info)
  || CacheService.Qgt_bool (CacheService.percentage info) MAX_STORAGE_PERCENTAGE.

(** [performCleanup]; the two estimates are what the platform reports
    before the first and before the last phase. *)
Definition performCleanup (options : CacheCleanupOptions)
    (estimate1 estimate2 : CacheService.StorageEstimate) (now : Z) (s : t) : t :=
  let maxAge := default (24 * 60 * 60 * 1000) (maxAge options) in
  let maxSize := default (50 * 1024 * 1024) (maxSize options) in
  let preserveEssential := default true (preserveEssential options) in
  let storageInfo := CacheService.getCacheInfo estimate1 in
  let s1 := cleanExpiredItems now preserveEssential s in
  let s2 :=
    if overLimit storageInfo maxSize
    then cleanByAge now maxAge preserveEssential s1 else s1 in
  let updatedStorageInfo := CacheService.getCacheInfo estimate2 in
  if overLimit updatedStorageInfo maxSize
  then cleanBySize maxSize preserveEssential s2 else s2.

Definition performEmergencyCleanup (s : t) : t :=
  fold_left
    (fun s key =>
       if startsWith key PREFIX && negb (isEssentialKey key)
       then removeItem key s else s)
    (keys s) s.

Record CacheStats := mkStats {
  totalItems : nat;
  totalSize : nat;
  oldestItem : option json;   (* [None] is [null] *)
  newestItem : option json;
  expiredItems : nat;
}.

(** One step of the loop of [getCacheStats]. *)
Definition countItem (now : Z) (s : t) (acc : CacheStats) (key : string)
  : CacheStats :=
  match getItem key s with
  | None => acc
  | Some item =>
      if nonempty item then
        let size := (totalSize acc + String.length item)%nat in
        let corrupted :=
          mkStats (totalItems acc) size (oldestItem acc) (newestItem acc)
            (S (expiredItems acc)) in
        match JSON_parse item with
        | None => corrupted
        | Some parsed =>
            match get_prop parsed "timestamp", get_prop parsed "expiration" with
            | Ok ts, Ok expiration =>
                let timestamp := default (JNum 0) (js_or ts (Some (JNum 0))) in
                let oldest :=
                  match oldestItem acc with
                  | None => timestamp
                  | Some o =>
                      if js_lt (Some timestamp) (Some o) then timestamp else o
                  end in
                let newest :=
                  match newestItem acc with
                  | None => timestamp
                  | Some n =>
                      if js_gt (Some timestamp) (Some n) then timestamp else n
                  end in
                mkStats (totalItems acc) size (Some oldest) (Some newest)
                  (if truthy expiration && js_gt (Some (JNum now)) expiration
                   then S (expiredItems acc) else expiredItems acc)
            | _, _ => corrupted
            end
        end
      else acc
  end.

Definition getCacheStats (now : Z) (s : t) : CacheStats :=
  let cacheKeys := filter (fun key => Is_true (startsWith key PREFIX)) (keys s) in
  fold_left (countItem now s) cacheKeys
    (mkStats (length cacheKeys) 0 None None 0).

Record StorageHealth := mkHealth {
  healthy : bool;
  warnings : list string;
  recommendations : list string;
}.

Definition SEVEN_DAYS : Z := 7 * 24 * 60 * 60 * 1000.

Definition checkStorageHealth (estimate : CacheService.StorageEstimate)
    (now : Z) (s : t) : StorageHealth :=
  let storageInfo := CacheService.getCacheInfo estimate in
  let cacheStats := getCacheStats now s in
  let h0 := mkHealth true [] [] in
  let h1 :=
    if CacheService.Qgt_bool (CacheService.percentage storageInfo) 0.9%Q then
      mkHealth false
        (warnings h0 ++ ["Storage is nearly full (>90%)"])
        (recommendations h0 ++ ["Clear old cache data or reduce cache size"])
    else if CacheService.Qgt_bool (CacheService.percentage storageInfo) 0.8%Q then
      mkHealth (healthy h0)
        (warnings h0 ++ ["Storage usage is high (>80%)"])
        (recommendations h0 ++ ["Consider clearing old cache data"])
    else h0 in
  let h2 :=
    if (10 <? expiredItems cacheStats)%nat then
      mkHealth (healthy h1)
        (warnings h1 ++
           [string_of_Z (Z.of_nat (expiredItems cacheStats))
            +:+ " expired cache items found"])
        (recommendations h1 ++ ["Run cache cleanup to remove expired items"])
    else h1 in
  let old :=
    truthy (oldestItem cacheStats) &&
    match js_sub (Some (JNum now)) (oldestItem cacheStats) with
    | Some age => Qlt_bool (inject_Z SEVEN_DAYS) age
    | None => false
    end in
  if old then
    mkHealth (healthy h2)
      (warnings h2 ++ ["Some cache items are very old (>7 days)"])
      (recommendations h2 ++ ["Consider refreshing old cache data"])
  else h2.

Record OfflineFallbacks := mkFallbacks {
  hasRecommendations : bool;
  hasPreferences : bool;
  hasEssentialData : bool;
  lastSync : option (option Z);
}.

Definition getOfflineFallbacks (now : Z) (s : t) : OfflineFallbacks * t :=
  let (fallbackData, s1) := CacheService.getOfflineFallback now s in
  (mkFallbacks
     (has_elements (CacheService.recommendations fallbackData))
     (not_null (CacheService.preferences fallbackData))
     (not_null (CacheService.essentialData fallbackData))
     (CacheService.getLastSync s1), s1).

(** *** Life cycle *)

(** The part of the window the manager registers with.  [setInterval]
    returns a handle that is not in use; a handle is a positive integer,
    hence truthy. *)
Record Window := mkWindow {
  intervals : gset positive;   (* the interval timers that are set *)
  next_handle : positive;
  storage_listeners : nat;     (* listeners added for [storage] events *)
  error_listeners : nat;       (* listeners added for [error] events *)
}.

Definition setInterval (w : Window) : positive * Window :=
  (next_handle w,
   mkWindow ({[next_handle w]} ∪ intervals w) (Pos.succ (next_handle w))
     (storage_listeners w) (error_listeners w)).

Definition clearInterval (handle : positive) (w : Window) : Window :=
  mkWindow (intervals w ∖ {[handle]}) (next_handle w)
    (storage_listeners w) (error_listeners w).

(** The manager ([cleanupInterval], [None] for [null]) with the window,
    the durable cache and the in-memory query cache. *)
Record World := mkWorld {
  cleanupInterval : option positive;
  window : Window;
  store : Storage.t;
  queries : gmap string json;
}.

Definition startPeriodicCleanup (x : World) : World :=
  let w1 :=
    match cleanupInterval x with
    | Some handle => clearInterval handle (window x)
    | None => window x
    end in
  let (handle, w2) := setInterval w1 in
  mkWorld (Some handle) w2 (store x) (queries x).

Definition setupStorageEventListeners (x : World) : World :=
  mkWorld (cleanupInterval x)
    (mkWindow (intervals (window x)) (next_handle (window x))
       (S (storage_listeners (window x))) (S (error_listeners (window x))))
    (store x) (queries x).

Definition initialize (estimate1 estimate2 : CacheService.StorageEstimate)
    (now : Z) (x : World) : World :=
  let x1 := setupStorageEventListeners (startPeriodicCleanup x) in
  mkWorld (cleanupInterval x1) (window x1)
    (performCleanup (mkOptions None None (Some true)) estimate1 estimate2 now
       (store x1))
    (queries x1).

(** What the timer runs every hour. *)
Definition periodicCleanup (estimate1 estimate2 : CacheService.StorageEstimate)
    (now : Z) (x : World) : World :=
  mkWorld (cleanupInterval x) (window x)
    (performCleanup (mkOptions None None (Some true)) estimate1 estimate2 now
       (store x))
    ∅.

(** One [error] listener, for an event whose error has the given name. *)
Definition onError (name : string) (s : t) : t :=
  if String.eqb name "QuotaExceededError" then performEmergencyCleanup s else s.

Definition destroy (x : World) : World :=
  match cleanupInterval x with
  | Some handle =>
      mkWorld None (clearInterval handle (window x)) (store x) (queries x)
  | None => x
  end.

End CacheManager.

(** ** dataPreloader *)

Module DataPreloader.
Import Storage.

(** The outcome of one [queryClient.prefetchQuery] call. *)
Inductive QueryOutcome :=
| QueryFresh                    (* fresh data in the query cache: nothing runs *)
| QueryFetched (data : json)    (* the query function ran and resolved *)
| QueryFailed (reason : string) (* the query function ran and rejected *).

(** What the platform and the network do during one preload.
    [prefetch_rethrows] says whether awaiting a prefetch whose query
    function rejected throws; the tasks are written for both. *)
Record Env := mkEnv {
  onLine : bool;
  prefetch_rethrows : bool;
  settle_time : Z;   (* the clock when the network calls have settled *)
  preferences_query : QueryOutcome;
  recommendations_query : QueryOutcome;
  category_query : string -> QueryOutcome;
}.

(** Durable cache and in-memory query cache (by query hash). *)
Definition State : Type := Storage.t * gmap string json.

Definition preferences_key : string :=
  JSON_stringify (JArr [JStr "preferences"; JStr "user"]).

Definition list_key (category : string) (limit : Z) : string :=
  JSON_stringify
    (JArr [JStr "recommendations"; JStr "list";
           JObj [("category", JStr category); ("limit", JNum limit)]]).

Definition setQueryData (key : string) (data : value) (qc : gmap string json)
  : gmap string json :=
  match data with
  | Some d => <[key:=d]> qc
  | None => qc
  end.

Inductive Settled :=
| Fulfilled
| Rejected (reason : string).

(** A task is either settled when it is called or waits for the network. *)
Inductive Started :=
| Done (r : Settled)
| Pending.

Definition TEN_MINUTES : Z := 10 * 60 * 1000.
Definition THIRTY_MINUTES : Z := 30 * 60 * 1000.
Definition ONE_HOUR : Z := 60 * 60 * 1000.

Definition start_preloadUserPreferences (now : Z) (st : State)
  : Started * State :=
  let (cachedPrefs, s1) := CacheService.getCachedUserPreferences now st.1 in
  if truthy cachedPrefs && negb (CacheService.needsRefresh TEN_MINUTES now s1)
  then (Done Fulfilled, (s1, setQueryData preferences_key cachedPrefs st.2))
  else (Pending, (s1, st.2)).

Definition finish_preloadUserPreferences (env : Env) (st : State)
  : Settled * State :=
  match preferences_query env with
  | QueryFresh => (Fulfilled, st)
  | QueryFetched preferences =>
      (Fulfilled,
       (CacheService.cacheUserPreferences (settle_time env) preferences st.1,
        <[preferences_key:=preferences]> st.2))
  | QueryFailed reason =>
      if prefetch_rethrows env then
        let (cachedPrefs, s1) :=
          CacheService.getCachedUserPreferences (settle_time env) st.1 in
        if truthy cachedPrefs
        then (Fulfilled, (s1, setQueryData preferences_key cachedPrefs st.2))
        else (Rejected reason, (s1, st.2))
      else (Fulfilled, st)
  end.

(** [cachedRecs && cachedRecs.length > 0] *)
Definition nonempty_list (cachedRecs : value) : bool :=
  truthy cachedRecs &&
  match cachedRecs with
  | Some v => js_gt (get_elem v "length") (Some (JNum 0))
  | None => false
  end.

Definition start_preloadPopularRecommendations (now : Z) (st : State)
  : Started * State :=
  let (cachedRecs, s1) := CacheService.getCachedRecommendations now st.1 in
  if nonempty_list cachedRecs
     && negb (CacheService.needsRefresh THIRTY_MINUTES now s1)
  then (Done Fulfilled, (s1, setQueryData (list_key "all" 20) cachedRecs st.2))
  else (Pending, (s1, st.2)).

Definition finish_preloadPopularRecommendations (env : Env) (st : State)
  : Settled * State :=
  match recommendations_query env with
  | QueryFresh => (Fulfilled, st)
  | QueryFetched recommendations =>
      (Fulfilled,
       (CacheService.cacheRecommendations (settle_time env) recommendations st.1,
        <[list_key "all" 20:=recommendations]> st.2))
  | QueryFailed reason =>
      if prefetch_rethrows env then
        let (cachedRecs, s1) :=
          CacheService.getCachedRecommendations (settle_time env) st.1 in
        if nonempty_list cachedRecs
        then (Fulfilled, (s1, setQueryData (list_key "all" 20) cachedRecs st.2))
        else (Rejected reason, (s1, st.2))
      else (Fulfilled, st)
  end.

(** Each category is prefetched inside its own [try]; a failure is
    logged and not rethrown, and the task waits with [allSettled]. *)
Definition categories : list string :=
  ["street_food"; "shops"; "markets"; "souvenirs"].

Definition preloadCategory (env : Env) (qc : gmap string json)
    (category : string) : gmap string json :=
  match category_query env category with
  | QueryFetched data => <[list_key category 10:=data]> qc
  | QueryFresh => qc
  | QueryFailed _ => qc
  end.

Definition preloadRecommendationCategories (env : Env) (st : State)
  : Settled * State :=
  (Fulfilled, (st.1, fold_left (preloadCategory env) categories st.2)).

Definition preloadEssentialCacheData (now : Z) (st : State) : Settled * State :=
  (Fulfilled, (CacheService.preloadEssentialData now st.1, st.2)).

Definition settle (p : Started) (finish : State -> Settled * State)
    (st : State) : Settled * State :=
  match p with
  | Done r => (r, st)
  | Pending => finish st
  end.

(** The four tasks: each runs up to its first [await] when it is called,
    in order; the network answers are then taken in task order. *)
Definition runTasks (env : Env) (now : Z) (st : State)
  : list Settled * State :=
  let '(p1, st) := start_preloadUserPreferences now st in
  let '(p2, st) := start_preloadPopularRecommendations now st in
  let '(r4, st) := preloadEssentialCacheData now st in
  let '(r1, st) := settle p1 (finish_preloadUserPreferences env) st in
  let '(r2, st) := settle p2 (finish_preloadPopularRecommendations env) st in
  let '(r3, st) := preloadRecommendationCategories env st in
  ([r1; r2; r3; r4], st).

Record PreloadResult := mkResult {
  success : bool;
  errors : list string;
  preloadedItems : list string;
}.

Definition taskNames : list string :=
  ["User Preferences"; "Popular Recommendations";
   "Recommendation Categories"; "Essential Cache Data"].

(** The loop over the settled results. *)
Fixpoint collect (index : nat) (results : list Settled) (result : PreloadResult)
  : PreloadResult :=
  match results with
  | [] => result
  | taskResult :: rest =>
      let name := default "undefined" (taskNames !! index) in
      collect (S index) rest
        match taskResult with
        | Fulfilled =>
            mkResult (success result) (errors result)
              (preloadedItems result ++ [name])
        | Rejected reason =>
            mkResult (success result)
              (errors result ++
                 ["Failed to preload " +:+ name +:+ ": " +:+ reason])
              (preloadedItems result)
        end
  end.

(** [errors.length <= preloadTasks.length / 2] *)
Definition majority (result : PreloadResult) (tasks : nat) : bool :=
  Qle_bool (inject_Z (Z.of_nat (length (errors result))))
    (inject_Z (Z.of_nat tasks) / 2).

(** The join: the results are collected, the last sync is stamped and the
    verdict is taken; a throw on the way is caught and fails the preload
    (the text after [Preload failed:] is the platform's). *)
Definition join (now : Z) (results : list Settled) (s : Storage.t)
  : PreloadResult * Storage.t :=
  let result := collect 0 results (mkResult true [] []) in
  match CacheService.updateLastSync now s with
  | Ok s' =>
      (mkResult (majority result (length results)) (errors result)
         (preloadedItems result), s')
  | Throw _ =>
      (mkResult false (errors result ++ ["Preload failed: QuotaExceededError"])
         (preloadedItems result), s)
  end.

Definition preloadEssentialData (env : Env) (forceRefresh : bool) (now : Z)
    (st : State) : PreloadResult * State :=
  let needsRefresh :=
    forceRefresh || CacheService.needsRefresh ONE_HOUR now st.1 in
  if negb needsRefresh && negb (onLine env) then (mkResult true [] [], st)
  else
    let (results, st1) := runTasks env now st in
    let (result, s2) := join (settle_time env) results st1.1 in
    (result, (s2, st1.2)).

Definition forceRefresh (env : Env) (now : Z) (st : State)
  : PreloadResult * State :=
  preloadEssentialData env true now (CacheService.clearAllCaches st.1, ∅).

Definition commonPhrases : list string :=
  ["Hello"; "Thank you"; "How much?"; "Where is?"; "Good"; "Bad"; "Help";
   "Water"; "Food"; "Bathroom"; "Hotel"; "Restaurant"; "Market"; "Shop";
   "Price"; "Expensive"; "Cheap"; "Delicious"; "Spicy"; "Sweet"].

(** One turn of the loop of [preloadCommonTranslations]: a phrase that
    is not cached is cached as it is; a throw of the write is caught. *)
Definition preloadPhrase (now : Z) (targetLanguage : string) (s : Storage.t)
    (phrase : string) : Storage.t :=
  let cacheKey := "auto-" +:+ targetLanguage +:+ "-" +:+ toLowerCase phrase in
  let (cached, s1) := CacheService.getCachedTranslation now cacheKey s in
  if truthy cached then s1
  else
    match CacheService.cacheTranslation now cacheKey phrase s1 with
    | Ok s2 => s2
    | Throw _ => (CacheService.getCachedTranslations now s1).2
    end.

Definition preloadCommonTranslations (now : Z) (targetLanguage : string)
    (s : Storage.t) : Storage.t :=
  fold_left (preloadPhrase now targetLanguage) commonPhrases s.

Record PreloadStatus := mkStatus {
  lastSync : option (option Z);
  needsRefresh : bool;
  hasEssentialData : bool;
  cacheInfo : CacheService.CacheInfo;
}.

Definition getPreloadStatus (estimate : CacheService.StorageEstimate) (now : Z)
    (s : Storage.t) : PreloadStatus * Storage.t :=
  let (essentialData, s1) := CacheService.getCachedEssentialData now s in
  (mkStatus (CacheService.getLastSync s)
     (CacheService.needsRefresh ONE_HOUR now s)
     (truthy essentialData)
     (CacheService.getCacheInfo estimate), s1).

End DataPreloader.

(** ** offlineFallbackService *)

Module OfflineFallbackService.
Import Storage.

(** The parameters; an absent field is [None], and [limit] is a count. *)
Record Params := mkParams {
  category : option string;
  query : option string;
  limit : option nat;
}.

(** [v.toLowerCase()]: only a string has the method. *)
Definition lower (v : value) : res string :=
  match v with
  | Some (JStr s) => Ok (toLowerCase s)
  | _ => Throw TypeError
  end.

(** [tags.some(tag => tag.toLowerCase().includes(searchTerm))] *)
Fixpoint some_tag (searchTerm : string) (tags : list json) : res bool :=
  match tags with
  | [] => Ok false
  | tag :: tags' =>
      t ← lower (Some tag);
      if includes t searchTerm then Ok true else some_tag searchTerm tags'
  end.

Definition matches (searchTerm : string) (item : json) : res bool :=
  name ← get_prop item "name";
  n ← lower name;
  if includes n searchTerm then Ok true else
  description ← get_prop item "description";
  d ← lower description;
  if includes d searchTerm then Ok true else
  tags ← get_prop item "tags";
  match tags with
  | None | Some JNull => Ok false
  | Some (JArr l) => some_tag searchTerm l
  | Some _ => Throw TypeError
  end.

Definition in_category (category : string) (item : json) : res bool :=
  c ← get_prop item "category";
  Ok match c with
     | Some (JStr c') => String.eqb c' category
     | _ => false
     end.

(** [Array.prototype.filter] with a callback that may throw. *)
Fixpoint js_filter (p : json -> res bool) (l : list json) : res (list json) :=
  match l with
  | [] => Ok []
  | x :: l' =>
      keep ← p x;
      rest ← js_filter p l';
      Ok (if (keep : bool) then x :: rest else rest)
  end.

Definition getOfflineRecommendations (now : Z) (params : Params) (s : t)
  : res json * t :=
  let category := default "all" (category params) in
  let limit := default 10%nat (limit params) in
  let (cached, s1) := CacheService.getCachedRecommendations now s in
  let recommendations := default (JArr []) (js_or cached (Some (JArr []))) in
  let by_category := negb (String.eqb category "all") in
  let by_query :=
    match query params with
    | Some q => nonempty q
    | None => false
    end in
  let searchTerm := toLowerCase (default EmptyString (query params)) in
  (match recommendations with
   | JArr l =>
       l1 ← (if by_category then js_filter (in_category category) l else Ok l);
       l2 ← (if by_query then js_filter (matches searchTerm) l1 else Ok l1);
       Ok (JArr (take limit l2))
   | JStr str =>
       if by_category || by_query then Throw TypeError
       else Ok (JStr (substring 0 limit str))
   | _ => Throw TypeError
   end, s1).

(** [getOfflineTranslation]: the key is
    [(sourceLanguage || 'auto')-targetLanguage-text.toLowerCase().trim()]. *)
Definition translationKey (text targetLanguage : string)
    (sourceLanguage : option string) : string :=
  (match sourceLanguage with
   | Some l => if nonempty l then l else "auto"
   | None => "auto"
   end) +:+ "-" +:+ targetLanguage +:+ "-" +:+ trim (toLowerCase text).

Definition getOfflineTranslation (now : Z) (text targetLanguage : string)
    (sourceLanguage : option string) (s : t) : value * t :=
  CacheService.getCachedTranslation now
    (translationKey text targetLanguage sourceLanguage) s.

Record OfflineFallbackData := mkData {
  recommendations : json;   (* [getCachedRecommendations() || []] *)
  preferences : value;
  translations : json;      (* [getCachedTranslations() || {}] *)
  essentialData : value;
}.

(** [getOfflineData]: the four reads, in the order of the object
    literal. *)
Definition getOfflineData (now : Z) (s : t) : OfflineFallbackData * t :=
  let (cachedRecs, s1) := CacheService.getCachedRecommendations now s in
  let (cachedPrefs, s2) := CacheService.getCachedUserPreferences now s1 in
  let (cachedTranslations, s3) := CacheService.getCachedTranslations now s2 in
  let (cachedData, s4) := CacheService.getCachedEssentialData now s3 in
  (mkData (default (JArr []) (js_or cachedRecs (Some (JArr []))))
     cachedPrefs
     (default (JObj []) (js_or cachedTranslations (Some (JObj []))))
     cachedData, s4).

Definition isAvailableOffline (now : Z) (feature : string) (s : t) : bool * t :=
  let (data, s1) := getOfflineData now s in
  (if String.eqb feature "recommendations" then
     has_elements (recommendations data)
   else if String.eqb feature "preferences" then not_null (preferences data)
   else if String.eqb feature "translations" then
     (0 <? own_keys (translations data))%nat
   else if String.eqb feature "essential" then not_null (essentialData data)
   else false, s1).

Definition getOfflinePreferences (now : Z) (s : t) : value * t :=
  CacheService.getCachedUserPreferences now s.

Definition getOfflineErrorMessage (now : Z) (feature : string) (s : t)
  : string * t :=
  let baseMessage := feature +:+ " is not available offline." in
  let (essential, s1) := isAvailableOffline now "essential" s in
  (if negb essential then
     baseMessage +:+ " Please connect to the internet to use this feature."
   else if String.eqb (toLowerCase feature) "translation" then
     baseMessage
     +:+ " You can still browse cached recommendations and use saved preferences."
   else if String.eqb (toLowerCase feature) "recommendations" then
     baseMessage
     +:+ " Please connect to the internet to get fresh recommendations."
   else if String.eqb (toLowerCase feature) "speech" then
     baseMessage +:+ " Speech-to-text requires an internet connection."
   else baseMessage +:+ " Some features require an internet connection.", s1).

Record OfflineCapabilities := mkCapabilities {
  canBrowseRecommendations : bool;
  canUsePreferences : bool;
  canTranslate : bool;
  canUseSpeech : bool;
  availableCategories : list value;
  availableTranslations : nat;
  lastSyncTime : option (option Z);
}.

(** [l.map(item => item.category)] *)
Fixpoint categories_of (l : list json) : res (list value) :=
  match l with
  | [] => Ok []
  | item :: l' =>
      c ← get_prop item "category";
      rest ← categories_of l';
      Ok (c :: rest)
  end.

(** Membership in a [Set]: two primitives are the same value when they
    are equal; an array or an object is the same as itself only, and the
    values read from one parsed text are all different objects. *)
Definition same_value (a b : value) : bool :=
  match a, b with
  | None, None => true
  | Some JNull, Some JNull => true
  | Some (JBool x), Some (JBool y) => Bool.eqb x y
  | Some (JNum x), Some (JNum y) => x =? y
  | Some (JDec m e), Some (JDec m' e') => (m =? m') && (e =? e')%positive
  | Some (JStr x), Some (JStr y) => String.eqb x y
  | _, _ => false
  end.

(** [Array.from(new Set(l))]: the first occurrence of each value, in
    order. *)
Fixpoint distinct (seen : list value) (l : list value) : list value :=
  match l with
  | [] => []
  | x :: l' =>
      if existsb (same_value x) seen then distinct seen l'
      else x :: distinct (x :: seen) l'
  end.

Definition getOfflineCapabilities (now : Z) (s : t)
  : res OfflineCapabilities * t :=
  let (data, s1) := getOfflineData now s in
  (match recommendations data with
   | JArr l =>
       mapped ← categories_of l;
       Ok (mkCapabilities
             (has_elements (recommendations data))
             (not_null (preferences data))
             (0 <? own_keys (translations data))%nat
             false
             (distinct [] mapped)
             (own_keys (translations data))
             (CacheService.getLastSync s1))
   | _ => Throw TypeError
   end, s1).

Record OfflineError := mkOfflineError {
  canFallback : bool;
  fallbackData : value;   (* [undefined] when the result has no such field *)
  message : json;
}.

(** [handleOfflineError]; [error] is the value that was thrown. *)
Definition handleOfflineError (onLine : bool) (now : Z) (error : value)
    (feature : string) (s : t) : res OfflineError * t :=
  if negb onLine then
    let (capabilities, s1) := getOfflineCapabilities now s in
    match capabilities with
    | Throw e => (Throw e, s1)
    | Ok capabilities =>
        if String.eqb (toLowerCase feature) "recommendations" then
          let (fallback, s2) :=
            getOfflineRecommendations now (mkParams None None None) s1 in
          (data ← fallback;
           Ok (mkOfflineError (canBrowseRecommendations capabilities)
                 (Some data)
                 (JStr (if canBrowseRecommendations capabilities
                        then "Showing cached recommendations (offline mode)"
                        else "No cached recommendations available offline"))),
           s2)
        else if String.eqb (toLowerCase feature) "preferences" then
          let (cachedPrefs, s2) := getOfflinePreferences now s1 in
          (Ok (mkOfflineError (canUsePreferences capabilities) cachedPrefs
                 (JStr (if canUsePreferences capabilities
                        then "Using cached preferences (offline mode)"
                        else "No cached preferences available offline"))),
           s2)
        else if String.eqb (toLowerCase feature) "translation" then
          (Ok (mkOfflineError (canTranslate capabilities) null
                 (JStr (if canTranslate capabilities
                        then "Limited translation available from cache (offline mode)"
                        else "Translation not available offline"))),
           s1)
        else
          let (text, s2) := getOfflineErrorMessage now feature s1 in
          (Ok (mkOfflineError false undefined (JStr text)), s2)
    end
  else
    (match error with
     | None => Throw TypeError
     | Some e =>
         m ← get_prop e "message";
         Ok (mkOfflineError false undefined
               (default (JStr (feature +:+ " failed"))
                  (js_or m (Some (JStr (feature +:+ " failed"))))))
     end, s).

Record OfflineStatus := mkOfflineStatus {
  isOffline : bool;
  hasData : bool;
  capabilities : list string;
  limitations : list string;
  lastSync : string;
}.

(** [getOfflineStatus]; [toLocaleString] is the platform's rendering of a
    date in the user's locale. *)
Definition getOfflineStatus (onLine : bool) (toLocaleString : Z -> string)
    (now : Z) (s : t) : res OfflineStatus * t :=
  let (capabilities, s1) := getOfflineCapabilities now s in
  (capabilities ← capabilities;
   let a0 : list string := [] in
   let l0 : list string := [] in
   let '(a1, l1) :=
     if canBrowseRecommendations capabilities then
       ((a0 ++ ["Browse "
                +:+ string_of_Z
                      (Z.of_nat (length (availableCategories capabilities)))
                +:+ " categories of recommendations"])%list, l0)
     else (a0, (l0 ++ ["No cached recommendations"])%list) in
   let '(a2, l2) :=
     if canUsePreferences capabilities then
       ((a1 ++ ["Access saved preferences"])%list, l1)
     else (a1, (l1 ++ ["No saved preferences"])%list) in
   let '(a3, l3) :=
     if canTranslate capabilities then
       ((a2 ++ [string_of_Z (Z.of_nat (availableTranslations capabilities))
                +:+ " cached translations"])%list, l2)
     else (a2, (l2 ++ ["No cached translations"])%list) in
   let l4 :=
     if negb onLine then
       (l3 ++ ["Speech-to-text unavailable";
               "Fresh data updates unavailable"])%list
     else l3 in
   Ok (mkOfflineStatus (negb onLine) (0 <? length a3)%nat a3 l4
         match lastSyncTime capabilities with
         | Some (Some n) => if n =? 0 then "Never" else toLocaleString n
         | _ => "Never"
         end), s1).

Definition getOfflineSuggestions (now : Z) (s : t) : res (list string) * t :=
  let (capabilities, s1) := getOfflineCapabilities now s in
  (capabilities ← capabilities;
   let suggestions0 : list string := [] in
   let suggestions1 :=
     if canBrowseRecommendations capabilities
     then (suggestions0
           ++ ["Browse cached recommendations for local insights"])%list
     else suggestions0 in
   let suggestions2 :=
     if canTranslate capabilities
     then (suggestions1 ++ ["Use cached translations for common phrases"])%list
     else suggestions1 in
   let suggestions3 :=
     if canUsePreferences capabilities
     then (suggestions2 ++ ["Update your language preferences"])%list
     else suggestions2 in
   Ok (if (length suggestions3 =? 0)%nat then
         (suggestions3
          ++ ["Connect to the internet to access all features";
              "The app will automatically sync when connection is restored"])%list
       else
         (suggestions3
          ++ ["Connect to the internet for fresh data and full functionality"])%list),
   s1).

End OfflineFallbackService.

(** ** preferencesService: the part that uses [localStorage] *)

Module PreferencesService.
Import Storage.

Definition KEY : string := "userPreferences".

(** What a request to the preferences endpoint does. *)
Inductive Response :=
| Responded (data : json)
| RequestFailed.

(** How an [async] method settles: it resolves, rejects with the [Error]
    it throws, or rejects with what [JSON.parse] throws. *)
Inductive Result (A : Type) :=
| Resolved (a : A)
| Failed (message : string)
| Unparsable.
Arguments Resolved {A} a.
Arguments Failed {A} message.
Arguments Unparsable {A}.

Definition getPreferences (response : Response) (s : t) : Result json * t :=
  let fallback :=
    match getItem KEY s with
    | Some cachedPrefs =>
        if nonempty cachedPrefs then
          match JSON_parse cachedPrefs with
          | Some prefs => Resolved prefs
          | None => Unparsable
          end
        else Failed "Failed to fetch preferences"
    | None => Failed "Failed to fetch preferences"
    end in
  match response with
  | Responded data =>
      match setItem KEY (JSON_stringify data) s with
      | Ok s' => (Resolved data, s')
      | Throw _ => (fallback, s)
      end
  | RequestFailed => (fallback, s)
  end.

Definition savePreferences (response : Response) (preferences : json) (s : t)
  : Result json * t :=
  match response with
  | Responded data =>
      match setItem KEY (JSON_stringify preferences) s with
      | Ok s' => (Resolved data, s')
      | Throw _ => (Failed "Failed to save preferences", s)
      end
  | RequestFailed => (Failed "Failed to save preferences", s)
  end.

Definition resetPreferences (response : Response) (s : t) : Result json * t :=
  match response with
  | Responded data => (Resolved data, removeItem KEY s)
  | RequestFailed => (Failed "Failed to reset preferences", s)
  end.

(** [getCachedPreferences]: the stored text parsed, or [null]. *)
Definition getCachedPreferences (s : t) : value :=
  match getItem KEY s with
  | Some cachedPrefs =>
      if nonempty cachedPrefs then
        match JSON_parse cachedPrefs with
        | Some prefs => Some prefs
        | None => null
        end
      else null
  | None => null
  end.

End PreferencesService.

(** ** The hooks that call the services *)

Module UsePreferences.
Import Storage.

(** The mutation of [useSavePreferences]: the service saves, then the
    cache service caches; [now] is the clock after the request. *)
Definition useSavePreferences (response : PreferencesService.Response) (now : Z)
    (preferences : json) (s : t) : PreferencesService.Result json * t :=
  let (result, s1) := PreferencesService.savePreferences response preferences s in
  match result with
  | PreferencesService.Resolved data =>
      (PreferencesService.Resolved data,
       CacheService.cacheUserPreferences now preferences s1)
  | failure => (failure, s1)
  end.

(** The mutation of [useResetPreferences]. *)
Definition useResetPreferences (response : PreferencesService.Response) (s : t)
  : PreferencesService.Result json * t :=
  let (result, s1) := PreferencesService.resetPreferences response s in
  match result with
  | PreferencesService.Resolved data =>
      (PreferencesService.Resolved data,
       CacheService.clearCache "userPreferences" s1)
  | failure => (failure, s1)
  end.

End UsePreferences.

Module UseRecommendations.
Import Storage.

Definition generateTranslationCacheKey (text targetLanguage : string)
    (sourceLanguage : option string) : string :=
  (match sourceLanguage with
   | Some l => if nonempty l then l else "auto"
   | None => "auto"
   end) +:+ "-" +:+ targetLanguage +:+ "-" +:+ trim (toLowerCase text).

Record TranslationResponse := mkTranslation {
  original_text : string;
  translated_text : json;
  confidence : Q;
  cached : bool;
}.

(** What the translation request does: it answers with a translation and
    a confidence, or fails. *)
Inductive Request :=
| Answered (translated_text : string) (confidence : Q)
| Refused.

(** The query function of [useTranslation]; [now] is the clock when it
    starts and [later] the clock when the request has been answered.  The
    result is [None] when the function throws. *)
Definition translate (onLine : bool) (request : Request) (now later : Z)
    (text targetLanguage : string) (sourceLanguage : option string) (s : t)
  : option TranslationResponse * t :=
  let cacheKey := generateTranslationCacheKey text targetLanguage sourceLanguage in
  let (cachedTranslation, s1) :=
    CacheService.getCachedTranslation now cacheKey s in
  if truthy cachedTranslation then
    (Some (mkTranslation text (default JNull cachedTranslation) 1 true), s1)
  else
    let failure (s2 : t) :=
      if negb onLine && truthy cachedTranslation then
        (Some (mkTranslation text (default JNull cachedTranslation) 0.8 true), s2)
      else (None, s2) in
    match request with
    | Answered translated_text confidence =>
        match CacheService.cacheTranslation later cacheKey translated_text s1 with
        | Ok s2 =>
            (Some (mkTranslation text (JStr translated_text) confidence false), s2)
        | Throw _ => failure (CacheService.getCachedTranslations later s1).2
        end
    | Refused => failure s1
    end.

End UseRecommendations.

Module UseCacheManagement.
Import Storage.

Definition canWorkOffline (now : Z) (s : t) : bool * t :=
  let (fallbacks, s1) := CacheManager.getOfflineFallbacks now s in
  (CacheManager.hasEssentialData fallbacks && CacheManager.hasPreferences fallbacks,
   s1).

End UseCacheManagement.

(** * Properties *)

(** ** [JSON.parse] after [JSON.stringify] *)

Module JSFacts.

(** A text that cannot extend a number token. *)
Definition delimited (k : string) : Prop :=
  match k with
  | EmptyString => True
  | String c _ => is_num_char c = false
  end.

(** The recursion depth the parser needs for a value. *)
Fixpoint size (v : json) : nat :=
  match v with
  | JArr l => S (fold_right (fun x acc => S (size x + acc)) 0%nat l)
  | JObj m => S (fold_right (fun kv acc => S (size (snd kv) + acc)) 0%nat m)
  | _ => 1%nat
  end.

(** What [stringify_to] prints after the first element of an array, and
    after the first member of an object. *)
Fixpoint elements_to (xs : list json) (k : string) : string :=
  match xs with
  | [] => String "]" k
  | y :: ys => String "," (stringify_to y (elements_to ys k))
  end.

Fixpoint members_to (xs : list (string * json)) (k : string) : string :=
  match xs with
  | [] => String "}" k
  | kv :: ys =>
      String "," (quote_to (fst kv)
        (String ":" (stringify_to (snd kv) (members_to ys k))))
  end.

(** The parser reads back what the printer wrote for [v]. *)
Definition parses (v : json) : Prop :=
  wf v = true -> forall fuel k, (size v < fuel)%nat -> delimited k ->
  parse_value fuel (stringify_to v k) = Some (v, k).

Ltac eval_codes :=
  repeat match goal with
  | |- context [nat_of_ascii ?a] =>
      let v := eval vm_compute in (nat_of_ascii a) in
      change (nat_of_ascii a) with v
  end.

Lemma parse_chars_escape s k :
  parse_chars (escape_to s (String dquote k)) = Some (s, k).
Proof.
  induction s as [|c s IH]; [reflexivity|].
  cbn [escape_to]. set (t := escape_to s _) in *. clearbody t.
  destruct c as [[] [] [] [] [] [] [] []];
    unfold escape_char; eval_codes; cbn; eval_codes; cbn; rewrite ?IH; reflexivity.
Qed.

Lemma append_cons c s k : String c s +:+ k = String c (s +:+ k).
Proof. reflexivity. Qed.

Lemma append_nil k : EmptyString +:+ k = k.
Proof. reflexivity. Qed.

Ltac eval_eqb :=
  repeat match goal with
  | |- context [Ascii.eqb ?a ?b] =>
      let v := eval vm_compute in (Ascii.eqb a b) in
      change (Ascii.eqb a b) with v
  end; cbv iota.

Lemma length_append a b :
  String.length (a +:+ b) = (String.length a + String.length b)%nat.
Proof.
  induction a as [|c a IH]; [done|].
  rewrite append_cons. cbn [String.length]. by rewrite IH.
Qed.

(** *** Numerals *)

Lemma append_nil_r s : s +:+ EmptyString = s.
Proof. induction s as [|c s IH]; [done|]. by rewrite append_cons, IH. Qed.

Lemma append_assoc a b c : (a +:+ b) +:+ c = a +:+ (b +:+ c).
Proof. induction a as [|x a IH]; [done|]. by rewrite !append_cons, IH. Qed.

(** A text that does not go on with a digit. *)
Definition nondigit (k : string) : Prop :=
  match k with
  | EmptyString => True
  | String c _ => is_digit c = false
  end.

Lemma take_digits_app a k :
  all_digits a = true -> nondigit k -> take_digits (a +:+ k) = (a, k).
Proof.
  intros Ha Hk. induction a as [|c a IH].
  - rewrite append_nil. destruct k as [|c k]; [done|]. cbn in *. by rewrite Hk.
  - cbn [all_digits] in Ha. apply andb_prop in Ha as [Hc Ha].
    rewrite append_cons. cbn [take_digits]. by rewrite Hc, IH.
Qed.

Lemma all_digits_app a b :
  all_digits (a +:+ b) = all_digits a && all_digits b.
Proof.
  induction a as [|c a IH]; [done|]. rewrite append_cons. cbn [all_digits].
  by rewrite IH, andb_assoc.
Qed.

Lemma digits_value_from_app a b acc :
  digits_value_from (a +:+ b) acc = digits_value_from b (digits_value_from a acc).
Proof.
  revert acc. induction a as [|c a IH]; intros acc; [done|].
  rewrite append_cons. cbn [digits_value_from]. by rewrite IH.
Qed.

Lemma all_digits_zeros n : all_digits (zeros n) = true.
Proof. induction n as [|n IH]; [done|]. cbn [zeros all_digits]. by rewrite IH. Qed.

Lemma digits_value_from_zeros n : digits_value_from (zeros n) 0 = 0.
Proof. induction n as [|n IH]; [done|]. cbn [zeros digits_value_from]. exact IH. Qed.

Lemma length_zeros n : String.length (zeros n) = n.
Proof. induction n as [|n IH]; [done|]. cbn [zeros String.length]. by rewrite IH. Qed.

Lemma split_at_spec n s :
  (n <= String.length s)%nat ->
  s = (split_at n s).1 +:+ (split_at n s).2
  /\ String.length (split_at n s).1 = n.
Proof.
  revert s. induction n as [|n IH]; intros s Hn; [by destruct s|].
  destruct s as [|c s]; [cbn in Hn; lia|]. cbn [split_at].
  cbn [String.length] in Hn. destruct (IH s) as [Hs Hl]; [lia|].
  destruct (split_at n s) as [a b]. cbn [fst snd] in *.
  rewrite append_cons. cbn [String.length]. by rewrite <- Hs, Hl.
Qed.

(** *** What [toString] prints for a number that is not negative *)

Fixpoint uint_value (d : Decimal.uint) (acc : Z) : Z :=
  match d with
  | Decimal.Nil => acc
  | Decimal.D0 d' => uint_value d' (10 * acc + 0)
  | Decimal.D1 d' => uint_value d' (10 * acc + 1)
  | Decimal.D2 d' => uint_value d' (10 * acc + 2)
  | Decimal.D3 d' => uint_value d' (10 * acc + 3)
  | Decimal.D4 d' => uint_value d' (10 * acc + 4)
  | Decimal.D5 d' => uint_value d' (10 * acc + 5)
  | Decimal.D6 d' => uint_value d' (10 * acc + 6)
  | Decimal.D7 d' => uint_value d' (10 * acc + 7)
  | Decimal.D8 d' => uint_value d' (10 * acc + 8)
  | Decimal.D9 d' => uint_value d' (10 * acc + 9)
  end.

Lemma of_uint_acc_value d : forall p,
  Z.pos (Pos.of_uint_acc d p) = uint_value d (Z.pos p).
Proof.
  induction d; intros p; cbn [Pos.of_uint_acc uint_value]; [done|..];
    rewrite IHd; f_equal; lia.
Qed.

Lemma of_uint_value d : Z.of_N (Pos.of_uint d) = uint_value d 0.
Proof.
  induction d; cbn [Pos.of_uint uint_value]; [done|done|..];
    cbn [Z.of_N]; by rewrite of_uint_acc_value.
Qed.

Lemma uint_value_to_uint p : uint_value (Pos.to_uint p) 0 = Z.pos p.
Proof. by rewrite <- of_uint_value, Unsigned.of_to. Qed.

Lemma all_digits_uint d : all_digits (NilEmpty.string_of_uint d) = true.
Proof.
  induction d; [done|..]; cbn [NilEmpty.string_of_uint all_digits];
    unfold is_digit; eval_codes; exact IHd.
Qed.

Lemma digits_value_from_uint d : forall acc,
  digits_value_from (NilEmpty.string_of_uint d) acc = uint_value d acc.
Proof.
  induction d; intros acc; [done|..];
    cbn [NilEmpty.string_of_uint digits_value_from uint_value];
    rewrite <- IHd; eval_codes; reflexivity.
Qed.

Lemma string_of_uint_nonnil d :
  d ≠ Decimal.Nil -> NilZero.string_of_uint d = NilEmpty.string_of_uint d.
Proof. by destruct d. Qed.

Lemma string_of_Z_pos p :
  string_of_Z (Z.pos p) = NilEmpty.string_of_uint (Pos.to_uint p).
Proof.
  unfold string_of_Z. cbn [Z.to_int NilZero.string_of_int].
  apply string_of_uint_nonnil, Unsigned.to_uint_nonnil.
Qed.

Lemma to_uint_head p : forall d, Pos.to_uint p ≠ Decimal.D0 d.
Proof.
  intros d H.
  pose proof (Unsigned.to_of (Pos.to_uint p)) as Hn.
  rewrite Unsigned.of_to in Hn. cbn [N.to_uint] in Hn.
  rewrite H in Hn. rewrite DecimalFacts.unorm_D0 in Hn.
  unfold Decimal.unorm in Hn.
  pose proof (DecimalFacts.nzhead_nonzero d) as Hz.
  destruct (Decimal.nzhead d) eqn:E; try done.
  - apply (Unsigned.to_uint_nonzero p). by rewrite H, Hn in *.
  - by apply (Hz u).
Qed.

(** The digits of a positive number: no leading zero, and their value is
    the number. *)
Lemma string_of_Z_pos_digits p :
  all_digits (string_of_Z (Z.pos p)) = true
  /\ digits_value (string_of_Z (Z.pos p)) = Z.pos p
  /\ exists c r, string_of_Z (Z.pos p) = String c r /\ Ascii.eqb c "0" = false.
Proof.
  rewrite string_of_Z_pos. split; [apply all_digits_uint|]. split.
  - unfold digits_value. by rewrite digits_value_from_uint, uint_value_to_uint.
  - pose proof (Unsigned.to_uint_nonnil p) as Hnil.
    pose proof (to_uint_head p) as Hhead.
    destruct (Pos.to_uint p) as [|d|d|d|d|d|d|d|d|d|d]; [done|by destruct (Hhead d)|..];
      cbn [NilEmpty.string_of_uint]; by do 2 eexists.
Qed.

Lemma string_of_Z_digits n :
  0 <= n ->
  all_digits (string_of_Z n) = true /\ digits_value (string_of_Z n) = n
  /\ string_of_Z n ≠ EmptyString.
Proof.
  intros Hn. destruct n as [|p|p]; [done| |lia].
  destruct (string_of_Z_pos_digits p) as (Ha & Hv & c & r & Hs & _).
  by rewrite Hs in *.
Qed.

(** *** A fraction is read back *)

Lemma is_digit_not c x : is_digit c = true -> is_digit x = false -> Ascii.eqb c x = false.
Proof.
  intros Hc Hx. destruct (Ascii.eqb_spec c x) as [->|]; [congruence|done].
Qed.

Lemma reduce_lowest m e : m mod 10 ≠ 0 -> reduce m (Pos.to_nat e) = JDec m e.
Proof.
  intros Hm. destruct (Pos2Nat.is_succ e) as [n Hn]. rewrite Hn.
  cbn [reduce]. rewrite (proj2 (Z.eqb_neq _ _) Hm).
  f_equal. apply Pos2Nat.inj. by rewrite SuccNat2Pos.id_succ.
Qed.

Lemma take_digits_stop c r :
  is_digit c = false -> take_digits (String c r) = (EmptyString, String c r).
Proof. intros H. cbn [take_digits]. by rewrite H. Qed.

Lemma take_digits_cons c r :
  is_digit c = true ->
  take_digits (String c r) = (String c (take_digits r).1, (take_digits r).2).
Proof. intros H. cbn [take_digits]. rewrite H. by destruct (take_digits r). Qed.

Lemma take_digits_all a : all_digits a = true -> take_digits a = (a, EmptyString).
Proof. intros H. rewrite <- (append_nil_r a) at 1. by apply take_digits_app. Qed.

(** The exponent [x] is read back. *)
Lemma read_exponent_to x :
  read_exponent (exponent_to x EmptyString)
  = (Some (negb (0 <=? x), string_of_Z (Z.abs x)), EmptyString).
Proof.
  destruct (string_of_Z_digits (Z.abs x)) as (Ha & _ & _); [lia|].
  unfold exponent_to. rewrite append_nil_r.
  destruct (0 <=? x); unfold read_exponent; cbv beta iota; eval_eqb;
    cbn [orb negb]; by rewrite take_digits_all.
Qed.

Lemma exponent_value x :
  (if negb (0 <=? x) then - digits_value (string_of_Z (Z.abs x))
   else digits_value (string_of_Z (Z.abs x))) = x.
Proof.
  destruct (string_of_Z_digits (Z.abs x)) as (_ & -> & _); [lia|].
  destruct (Z.leb_spec 0 x); cbn [negb]; lia.
Qed.

Lemma exponent_digits x : string_of_Z (Z.abs x) ≠ EmptyString.
Proof. apply string_of_Z_digits. lia. Qed.

Lemma number_of_parts_value (negative : bool) (int : string)
    (frac : option string) (exp : option (bool * string)) (x : Z) (e : positive) :
  match int with
  | EmptyString => False
  | String c EmptyString => True
  | String c _ => Ascii.eqb c "0" = false
  end ->
  frac ≠ Some EmptyString ->
  match exp with
  | Some (minus, ds) =>
      ds ≠ EmptyString /\ (if minus then - digits_value ds else digits_value ds) = x
  | None => x = 0
  end ->
  x - Z.of_nat (String.length (default EmptyString frac)) = - Z.pos e ->
  digits_value (int +:+ default EmptyString frac) mod 10 ≠ 0 ->
  number_of_parts negative int frac exp
  = Some (JDec (if negative
                then - digits_value (int +:+ default EmptyString frac)
                else digits_value (int +:+ default EmptyString frac)) e).
Proof.
  intros Hint Hfrac Hexp He Hv. unfold number_of_parts.
  assert (match int with
          | EmptyString => false
          | String c EmptyString => true
          | String c _ => negb (Ascii.eqb c "0")
          end = true) as ->.
  { destruct int as [|c [|c' r]]; try done. by rewrite Hint. }
  assert (match frac with Some EmptyString => false | _ => true end = true) as ->.
  { by destruct frac as [[|]|]. }
  assert (match exp with Some (_, EmptyString) => false | _ => true end = true
          /\ match exp with
             | Some (minus, ds) =>
                 if minus then - digits_value ds else digits_value ds
             | None => 0
             end = x) as [-> ->].
  { destruct exp as [[minus [|c ds]]|].
    - exfalso. by apply (proj1 Hexp).
    - split; [done|apply Hexp].
    - by subst x. }
  cbn [andb]. rewrite He.
  rewrite (proj2 (Z.leb_gt _ _)) by lia.
  rewrite Z.opp_involutive, Z2Nat.inj_pos. f_equal. apply reduce_lowest.
  destruct negative; [|done].
  intros H. apply Hv. apply Z.mod_divide in H; [|done].
  apply Z.mod_divide; [done|]. exact (proj1 (Z.divide_opp_r _ _) H).
Qed.

Lemma unsigned_number_digits negative ds c r (e : positive) :
  ds = String c r -> Ascii.eqb c "0" = false -> all_digits ds = true ->
  digits_value ds mod 10 ≠ 0 ->
  unsigned_number negative
    (digits_to ds (Z.of_nat (String.length ds) - Z.pos e) EmptyString)
  = Some (JDec (if negative then - digits_value ds else digits_value ds) e).
Proof.
  intros Hds Hc Hall Hv. unfold digits_to, unsigned_number.
  set (n := Z.of_nat (String.length ds) - Z.pos e).
  assert (is_digit c = true) as Hdc.
  { rewrite Hds in Hall. cbn [all_digits] in Hall. by apply andb_prop in Hall as []. }
  assert (is_digit "." = false) as Hdot by reflexivity.
  assert (is_digit "e" = false) as Hde by reflexivity.
  destruct ((0 <? n) && (n <=? 21)) eqn:HA.
  { (* the point among the digits *)
    apply andb_prop in HA as [H0%Z.ltb_lt H21%Z.leb_le].
    destruct (split_at_spec (Z.to_nat n) ds) as [Hs Hl]; [lia|].
    destruct (split_at (Z.to_nat n) ds) as [a b]. cbn [fst snd] in Hs, Hl.
    assert (all_digits a = true /\ all_digits b = true) as [Ha Hb].
    { rewrite Hs, all_digits_app in Hall. by apply andb_prop in Hall. }
    rewrite append_nil_r.
    rewrite take_digits_app by done.
    unfold read_fraction. eval_eqb. rewrite take_digits_all by done.
    cbn [read_exponent].
    assert (String.length b = Pos.to_nat e) as Hlb.
    { apply (f_equal String.length) in Hs. rewrite length_append in Hs. lia. }
    rewrite (number_of_parts_value negative a (Some b) None 0 e).
    - cbn [default from_option id]. by rewrite <- Hs.
    - destruct a as [|c' a']; [cbn in Hl; lia|].
      rewrite Hds, append_cons in Hs. injection Hs as -> _.
      by destruct a'.
    - intros [= ->]. cbn in Hlb. lia.
    - done.
    - cbn [default from_option id]. lia.
    - cbn [default from_option id]. by rewrite <- Hs. }
  destruct ((-6 <? n) && (n <=? 0)) eqn:HB.
  { (* zeros after the point *)
    apply andb_prop in HB as [H6%Z.ltb_lt H0%Z.leb_le].
    rewrite append_nil_r.
    rewrite take_digits_cons, take_digits_stop by done. cbn [fst snd].
    unfold read_fraction. eval_eqb.
    rewrite take_digits_all by (by rewrite all_digits_app, all_digits_zeros).
    cbn [read_exponent].
    rewrite (number_of_parts_value negative "0"
               (Some (zeros (Z.to_nat (- n)) +:+ ds)) None 0 e).
    - cbn [default from_option id]. rewrite append_cons, append_nil.
      unfold digits_value. cbn [digits_value_from].
      by rewrite digits_value_from_app, digits_value_from_zeros.
    - done.
    - intros [= H]. rewrite Hds in H. by destruct (zeros _).
    - done.
    - cbn [default from_option id]. rewrite length_append, length_zeros. lia.
    - cbn [default from_option id]. rewrite append_cons, append_nil.
      unfold digits_value in *. cbn [digits_value_from].
      by rewrite digits_value_from_app, digits_value_from_zeros. }
  (* an exponent *)
  assert (n - 1 - Z.of_nat (String.length r) = - Z.pos e) as Hexp.
  { unfold n. rewrite Hds. cbn [String.length]. lia. }
  rewrite Hds. destruct r as [|c' r'].
  - rewrite take_digits_cons by done. unfold exponent_to at 1 2.
    rewrite take_digits_stop by done. cbn [fst snd].
    fold (exponent_to (n - 1) EmptyString).
    unfold read_fraction. unfold exponent_to at 1. eval_eqb.
    fold (exponent_to (n - 1) EmptyString). rewrite read_exponent_to.
    rewrite (number_of_parts_value negative (String c EmptyString) None _ (n - 1) e).
    + cbn [default from_option id]. by rewrite append_nil_r, <- Hds.
    + done.
    + done.
    + split; [apply exponent_digits|apply exponent_value].
    + cbn [default from_option id String.length] in *. lia.
    + cbn [default from_option id]. by rewrite append_nil_r, <- Hds.
  - rewrite take_digits_cons, take_digits_stop by done. cbn [fst snd].
    unfold read_fraction. eval_eqb.
    assert (all_digits (String c' r') = true) as Hr.
    { rewrite Hds in Hall. cbn [all_digits] in Hall.
      by apply andb_prop in Hall as []. }
    rewrite take_digits_app by done.
    rewrite read_exponent_to.
    rewrite (number_of_parts_value negative (String c EmptyString)
               (Some (String c' r')) _ (n - 1) e).
    + cbn [default from_option id]. by rewrite append_cons, append_nil, <- Hds.
    + done.
    + done.
    + split; [apply exponent_digits|apply exponent_value].
    + cbn [default from_option id]. exact Hexp.
    + cbn [default from_option id]. by rewrite append_cons, append_nil, <- Hds.
Qed.

(** *** Numerals as tokens *)

Fixpoint num_text (s : string) : bool :=
  match s with
  | EmptyString => true
  | String c s' => is_num_char c && num_text s'
  end.

Lemma span_num_text tok k :
  num_text tok = true -> delimited k -> span_num (tok +:+ k) = (tok, k).
Proof.
  intros Ht Hk. induction tok as [|c tok IH].
  - rewrite append_nil. destruct k as [|c k]; [done|]. cbn in *. by rewrite Hk.
  - cbn [num_text] in Ht. apply andb_prop in Ht as [Hc Ht].
    rewrite append_cons. cbn [span_num]. by rewrite Hc, IH.
Qed.

Lemma num_text_app a b : num_text (a +:+ b) = num_text a && num_text b.
Proof.
  induction a as [|c a IH]; [done|]. rewrite append_cons. cbn [num_text].
  by rewrite IH, andb_assoc.
Qed.

Lemma is_digit_num_char c : is_digit c = true -> is_num_char c = true.
Proof.
  unfold is_digit, is_num_char. intros ->. by rewrite !orb_true_r.
Qed.

Lemma num_text_digits a : all_digits a = true -> num_text a = true.
Proof.
  induction a as [|c a IH]; [done|]. cbn [all_digits num_text].
  intros [Hc Ha]%andb_prop. by rewrite is_digit_num_char, IH.
Qed.

Lemma num_text_exponent x : num_text (exponent_to x EmptyString) = true.
Proof.
  destruct (string_of_Z_digits (Z.abs x)) as (Ha & _ & _); [lia|].
  unfold exponent_to. rewrite append_nil_r. cbn [num_text].
  rewrite (num_text_digits _ Ha). by destruct (0 <=? x).
Qed.

Lemma exponent_to_app x k : exponent_to x k = exponent_to x EmptyString +:+ k.
Proof. unfold exponent_to. by rewrite append_nil_r, !append_cons. Qed.

Lemma digits_to_app ds n k : digits_to ds n k = digits_to ds n EmptyString +:+ k.
Proof.
  unfold digits_to. destruct (_ && _).
  { destruct (split_at _ ds) as [a b].
    by rewrite append_nil_r, append_assoc, append_cons. }
  destruct (_ && _).
  { by rewrite !append_cons, !append_nil_r, append_assoc. }
  destruct ds as [|d [|c r]]; [done|..].
  - by rewrite append_cons, (exponent_to_app _ k).
  - by rewrite !append_cons, append_assoc, (exponent_to_app _ k).
Qed.

Lemma dec_to_app m e k : dec_to m e k = string_of_dec m e +:+ k.
Proof.
  unfold string_of_dec, dec_to. rewrite digits_to_app.
  by destruct (m <? 0).
Qed.

(** The text of a fraction: digits, with a point or an exponent among
    them, after the first digit. *)
Lemma digits_to_text ds n :
  ds ≠ EmptyString -> all_digits ds = true -> n < Z.of_nat (String.length ds) ->
  num_text (digits_to ds n EmptyString) = true
  /\ exists c r, digits_to ds n EmptyString = String c r /\ is_digit c = true.
Proof.
  intros Hds Hall Hn. pose proof (num_text_digits _ Hall) as Hnum.
  destruct ds as [|d r]; [done|].
  assert (is_digit d = true) as Hd.
  { cbn [all_digits] in Hall. by apply andb_prop in Hall as []. }
  unfold digits_to.
  destruct ((0 <? n) && (n <=? 21)) eqn:HA.
  { apply andb_prop in HA as [H0%Z.ltb_lt H21].
    destruct (split_at_spec (Z.to_nat n) (String d r)) as [Hs Hl]; [lia|].
    destruct (split_at _ (String d r)) as [a b]. cbn [fst snd] in *.
    rewrite Hs, num_text_app in Hnum. apply andb_prop in Hnum as [Ha Hb].
    rewrite append_nil_r, num_text_app. cbn [num_text].
    rewrite Ha, Hb. split; [done|].
    destruct a as [|c' a]; [cbn in Hl; lia|].
    rewrite append_cons in Hs. injection Hs as -> _.
    rewrite append_cons. by do 2 eexists. }
  destruct ((-6 <? n) && (n <=? 0)) eqn:HB.
  { rewrite append_nil_r. cbn [num_text]. rewrite num_text_app, Hnum.
    rewrite (num_text_digits _ (all_digits_zeros _)).
    split; [done|by do 2 eexists]. }
  cbn [num_text] in Hnum. apply andb_prop in Hnum as [Hc Hr].
  destruct r as [|c' r'].
  - cbn [num_text]. rewrite Hc, num_text_exponent. split; [done|by do 2 eexists].
  - cbn [num_text]. rewrite Hc, num_text_app, Hr, num_text_exponent.
    split; [done|by do 2 eexists].
Qed.

Lemma string_of_Z_neg p :
  string_of_Z (Z.neg p) = String "-" (string_of_Z (Z.pos p)).
Proof.
  rewrite string_of_Z_pos. unfold string_of_Z.
  cbn [Z.to_int NilZero.string_of_int].
  by rewrite string_of_uint_nonnil by apply Unsigned.to_uint_nonnil.
Qed.

Lemma read_sign_digit c r : is_digit c = true -> read_sign (String c r) = (false, String c r).
Proof.
  intros Hc. unfold read_sign. by rewrite (is_digit_not c "-") by done.
Qed.

(** An integer is read back. *)
Lemma number_of_token_Z n : number_of_token (string_of_Z n) = Some (JNum n).
Proof.
  assert (forall negative p,
            unsigned_number negative (string_of_Z (Z.pos p))
            = Some (JNum (if negative then Z.neg p else Z.pos p))) as Hpos.
  { intros negative p.
    destruct (string_of_Z_pos_digits p) as (Ha & Hv & c & r & Hs & Hc).
    unfold unsigned_number. rewrite take_digits_all by done.
    cbn [read_fraction read_exponent]. unfold number_of_parts.
    cbn [default from_option id String.length]. rewrite append_nil_r, Hv.
    rewrite Hs. destruct r; cbn [andb negb]; rewrite ?Hc; cbn [negb andb Z.of_nat];
      destruct negative; cbn; f_equal; f_equal; lia. }
  destruct n as [|p|p]; [reflexivity|..].
  - destruct (string_of_Z_pos_digits p) as (Ha & _ & c & r & Hs & _).
    unfold number_of_token. rewrite Hs, read_sign_digit, <- Hs; [apply Hpos|].
    rewrite Hs in Ha. cbn [all_digits] in Ha. by apply andb_prop in Ha as [].
  - rewrite string_of_Z_neg. unfold number_of_token. cbn [read_sign]. eval_eqb.
    apply Hpos.
Qed.

(** A fraction in lowest terms is read back. *)
Lemma number_of_token_dec m e :
  m mod 10 ≠ 0 -> number_of_token (string_of_dec m e) = Some (JDec m e).
Proof.
  intros Hm. unfold string_of_dec, dec_to.
  assert (m ≠ 0) as Hm0 by (by intros ->).
  destruct (Z.abs m) as [|p|p] eqn:Hp; [lia| |lia].
  destruct (string_of_Z_pos_digits p) as (Ha & Hv & c & r & Hs & Hc).
  assert (Z.pos p mod 10 ≠ 0) as Hp10.
  { intros H. apply Hm. apply Z.mod_divide in H; [|done].
    apply Z.mod_divide; [done|]. rewrite <- Hp in H.
    exact (proj1 (Z.divide_abs_r _ _) H). }
  pose proof (unsigned_number_digits (m <? 0) _ c r e Hs Hc Ha) as Hu.
  rewrite Hv in Hu. specialize (Hu Hp10).
  assert ((if m <? 0 then - Z.pos p else Z.pos p) = m) as Hsign
    by (destruct (Z.ltb_spec m 0); lia).
  rewrite Hsign in Hu. unfold number_of_token.
  destruct (Z.ltb_spec m 0).
  - cbn [read_sign]. eval_eqb. exact Hu.
  - destruct (digits_to_text (string_of_Z (Z.pos p))
                (Z.of_nat (String.length (string_of_Z (Z.pos p))) - Z.pos e))
      as (_ & c' & r' & Hr' & Hc'); [by rewrite Hs|done|lia|].
    rewrite Hr' in *. by rewrite read_sign_digit.
Qed.

Lemma num_text_dec m e : m ≠ 0 -> num_text (string_of_dec m e) = true.
Proof.
  intros Hm. unfold string_of_dec, dec_to.
  destruct (Z.abs m) as [|p|p] eqn:Hp; [lia| |lia].
  destruct (string_of_Z_pos_digits p) as (Ha & _ & c & r & Hs & _).
  destruct (digits_to_text (string_of_Z (Z.pos p))
              (Z.of_nat (String.length (string_of_Z (Z.pos p))) - Z.pos e))
    as (Hn & _); [by rewrite Hs|done|lia|].
  destruct (m <? 0); [cbn [num_text]|]; by rewrite Hn.
Qed.

Lemma parse_number_string_of_Z n k :
  delimited k -> parse_number (string_of_Z n +:+ k) = Some (JNum n, k).
Proof.
  intros Hk. unfold parse_number. rewrite span_num_text, number_of_token_Z; [done| |done].
  destruct n as [|p|p]; [done|..]; rewrite ?string_of_Z_neg; cbn [num_text];
    by rewrite (num_text_digits _ (proj1 (string_of_Z_pos_digits p))).
Qed.

Lemma parse_number_dec m e k :
  m mod 10 ≠ 0 -> delimited k -> parse_number (dec_to m e k) = Some (JDec m e, k).
Proof.
  intros Hm Hk. unfold parse_number. rewrite dec_to_app.
  rewrite span_num_text, number_of_token_dec; [done|done| |done].
  apply num_text_dec. by intros ->.
Qed.

Lemma wf_reduce m e : wf (reduce m e) = true.
Proof.
  revert m. induction e as [|e IH]; intros m; [done|]. cbn [reduce].
  destruct (m mod 10 =? 0) eqn:E; [apply IH|]. cbn [wf]. by rewrite E.
Qed.

Lemma wf_number_of_token tok v : number_of_token tok = Some v -> wf v = true.
Proof.
  unfold number_of_token, unsigned_number, number_of_parts.
  repeat case_match; try done; intros [= <-]; try done; apply wf_reduce.
Qed.

(** The first character of a number is a digit or a minus sign. *)
Lemma dec_to_start m e k :
  exists c r, dec_to m e k = String c r /\ is_num_char c = true.
Proof.
  rewrite dec_to_app. unfold string_of_dec, dec_to.
  destruct (m <? 0); [rewrite append_cons; by do 2 eexists|].
  destruct (string_of_Z_digits (Z.abs m)) as (Ha & _ & Hne); [lia|].
  destruct (digits_to_text (string_of_Z (Z.abs m))
              (Z.of_nat (String.length (string_of_Z (Z.abs m))) - Z.pos e))
    as (_ & c' & r' & -> & Hc'); [done|done|lia|].
  rewrite append_cons. do 2 eexists. split; [done|].
  by apply is_digit_num_char.
Qed.

Lemma Z_of_string_of_Z n : Z_of_string (string_of_Z n) = Some n.
Proof.
  unfold Z_of_string, string_of_Z at 1.
  rewrite NilZero.isi.
  - rewrite DecimalZ.of_to, String.eqb_refl. reflexivity.
  - destruct n; cbn; try discriminate.
    intros [= H]. by apply Unsigned.to_uint_nonnil in H.
  - destruct n; cbn; try discriminate.
    intros [= H]. by apply Unsigned.to_uint_nonnil in H.
Qed.

(** The first character of a number is a digit or a minus sign. *)
Lemma string_of_Z_head n :
  exists c r, string_of_Z n = String c r /\ is_num_char c = true.
Proof.
  unfold string_of_Z, NilZero.string_of_int, NilZero.string_of_uint.
  destruct (Z.to_int n) as [d|d]; destruct d; cbn; eauto.
Qed.


Section json_induction.
Variable P : json -> Prop.
Hypothesis Hnull : P JNull.
Hypothesis Hbool : forall b, P (JBool b).
Hypothesis Hnum : forall n, P (JNum n).
Hypothesis Hdec : forall m e, P (JDec m e).
Hypothesis Hstr : forall s, P (JStr s).
Hypothesis Harr : forall l, Forall P l -> P (JArr l).
Hypothesis Hobj : forall m, Forall (fun kv => P (snd kv)) m -> P (JObj m).

Fixpoint json_nested_ind (v : json) : P v :=
  match v with
  | JNull => Hnull
  | JBool b => Hbool b
  | JNum n => Hnum n
  | JDec m e => Hdec m e
  | JStr s => Hstr s
  | JArr l =>
      Harr l
        ((fix all (l : list json) : Forall P l :=
            match l with
            | [] => @List.Forall_nil _ P
            | x :: l' => @List.Forall_cons _ P x l' (json_nested_ind x) (all l')
            end) l)
  | JObj m =>
      Hobj m
        ((fix all (m : list (string * json)) : Forall (fun kv => P (snd kv)) m :=
            match m with
            | [] => @List.Forall_nil _ _
            | kv :: m' =>
                @List.Forall_cons _ (fun kv => P (snd kv)) kv m'
                  (json_nested_ind (snd kv)) (all m')
            end) m)
  end.
End json_induction.

Lemma stringify_arr_cons x xs k :
  stringify_to (JArr (x :: xs)) k
  = String "[" (stringify_to x (elements_to xs k)).
Proof.
  cbn [stringify_to]. do 2 f_equal.
  induction xs as [|y ys IH]; [reflexivity|]. cbn [elements_to]. by rewrite IH.
Qed.

Lemma stringify_obj_cons key x xs k :
  stringify_to (JObj ((key, x) :: xs)) k
  = String "{" (quote_to key (String ":" (stringify_to x (members_to xs k)))).
Proof.
  cbn [stringify_to]. do 4 f_equal.
  induction xs as [|[key' y] ys IH]; [reflexivity|].
  cbn [members_to fst snd]. by rewrite IH.
Qed.


Lemma skip_ws_head c r : is_ws c = false -> skip_ws (String c r) = String c r.
Proof. intros H. cbn [skip_ws]. by rewrite H. Qed.

Lemma expect_hit c k : is_ws c = false -> expect c (String c k) = Some k.
Proof. intros H. unfold expect. by rewrite skip_ws_head, Ascii.eqb_refl. Qed.

Lemma expect_miss c c' k :
  is_ws c' = false -> Ascii.eqb c' c = false -> expect c (String c' k) = None.
Proof. intros H1 H2. unfold expect. by rewrite skip_ws_head, H2. Qed.

Lemma num_char_facts c :
  is_num_char c = true ->
  is_ws c = false /\ Ascii.eqb c "n" = false /\ Ascii.eqb c "t" = false
  /\ Ascii.eqb c "f" = false /\ Ascii.eqb c dquote = false
  /\ Ascii.eqb c "[" = false /\ Ascii.eqb c "{" = false
  /\ Ascii.eqb c "]" = false.
Proof.
  destruct c as [[] [] [] [] [] [] [] []]; vm_compute; intros H;
    first [discriminate H | repeat split].
Qed.

Lemma stringify_head v k :
  exists c r, stringify_to v k = String c r /\ is_ws c = false
              /\ Ascii.eqb c "]" = false.
Proof.
  destruct v as [|[]|n|d e|s|l|m]; try (by do 2 eexists).
  - destruct (string_of_Z_head n) as (c & r & Hn & Hc).
    exists c, (r +:+ k). cbn [stringify_to]. rewrite Hn.
    destruct (num_char_facts _ Hc) as (Hws & _ & _ & _ & _ & _ & _ & Hclose).
    by rewrite append_cons.
  - destruct (dec_to_start d e k) as (c & r & Hn & Hc).
    exists c, r. cbn [stringify_to].
    destruct (num_char_facts _ Hc) as (Hws & _ & _ & _ & _ & _ & _ & Hclose).
    done.
Qed.

Lemma delimited_elements xs k : delimited (elements_to xs k).
Proof. by destruct xs. Qed.

Lemma delimited_members xs k : delimited (members_to xs k).
Proof. by destruct xs. Qed.

Lemma parse_elements_stringify f xs : forall x lf k,
  Forall parses (x :: xs) -> forallb wf (x :: xs) = true ->
  Forall (fun y => (size y < f)%nat) (x :: xs) ->
  (length xs < lf)%nat ->
  parse_elements (parse_value f) lf (stringify_to x (elements_to xs k))
  = Some (x :: xs, k).
Proof.
  induction xs as [|y ys IH]; intros x lf k HP Hwf Hsz Hlf;
    (destruct lf as [|lf]; [cbn in Hlf; lia|]);
    apply Forall_cons in HP as [Hx HP]; apply Forall_cons in Hsz as [Sx Hsz];
    cbn [forallb] in Hwf; apply andb_prop in Hwf as [Wx Hwf];
    cbn [parse_elements].
  - rewrite (Hx Wx) by (done || apply delimited_elements).
    cbn [elements_to]. rewrite expect_miss by done. by rewrite expect_hit.
  - rewrite (Hx Wx) by (done || apply delimited_elements).
    cbn [elements_to]. rewrite expect_hit by done.
    rewrite IH; [done..|]. cbn in Hlf. lia.
Qed.

Lemma parse_members_stringify f xs : forall key x lf k,
  Forall (fun kv => parses (snd kv)) ((key, x) :: xs) ->
  forallb (fun kv => wf (snd kv)) ((key, x) :: xs) = true ->
  Forall (fun kv => (size (snd kv) < f)%nat) ((key, x) :: xs) ->
  (length xs < lf)%nat ->
  parse_members (parse_value f) lf
    (quote_to key (String ":" (stringify_to x (members_to xs k))))
  = Some ((key, x) :: xs, k).
Proof.
  induction xs as [|[key' y] ys IH]; intros key x lf k HP Hwf Hsz Hlf;
    (destruct lf as [|lf]; [cbn in Hlf; lia|]);
    apply Forall_cons in HP as [Hx HP]; apply Forall_cons in Hsz as [Sx Hsz];
    cbn [forallb] in Hwf; apply andb_prop in Hwf as [Wx Hwf];
    cbn [fst snd] in *; cbn [parse_members]; unfold quote_to at 1;
    rewrite expect_hit by done; rewrite parse_chars_escape;
    rewrite expect_hit by done.
  - rewrite (Hx Wx) by (done || apply delimited_members).
    cbn [members_to]. rewrite expect_miss by done. by rewrite expect_hit.
  - rewrite (Hx Wx) by (done || apply delimited_members).
    cbn [members_to fst snd]. rewrite expect_hit by done.
    rewrite IH; [done..|]. cbn in Hlf. lia.
Qed.


Lemma nodup_keys_NoDup ks : nodup_keys ks = true <-> NoDup ks.
Proof.
  induction ks as [|k ks IH]; cbn [nodup_keys].
  - split; [constructor|done].
  - rewrite NoDup_cons, andb_true_iff, negb_true_iff, IH.
    apply and_iff_compat_r. rewrite <- not_true_iff_false, existsb_exists.
    split.
    + intros H Hin. apply H. exists k. rewrite String.eqb_refl.
      split; [by apply list_elem_of_In|done].
    + intros H (k' & Hin & Heq). apply String.eqb_eq in Heq as <-.
      by apply H, list_elem_of_In.
Qed.

Lemma obj_set_fresh k v o :
  k ∉ o.*1 -> obj_set k v o = (o ++ [(k, v)])%list.
Proof.
  induction o as [|[k' v'] o IH]; intros Hk; [done|].
  cbn [obj_set]. rewrite fmap_cons, not_elem_of_cons in Hk.
  destruct Hk as [Hne Hk]. cbn in Hne.
  destruct (String.eqb_spec k' k) as [->|_]; [done|].
  by rewrite IH.
Qed.

Lemma obj_of_members_NoDup ms : NoDup ms.*1 -> obj_of_members ms = ms.
Proof.
  unfold obj_of_members.
  assert (forall acc, NoDup ((acc ++ ms)%list.*1) ->
            fold_left (fun o kv => obj_set (fst kv) (snd kv) o) ms acc
            = (acc ++ ms)%list) as H; [|by apply (H [])].
  induction ms as [|[k v] ms IH]; intros acc Hnd; cbn [fold_left].
  - by rewrite app_nil_r.
  - cbn [fst snd]. rewrite obj_set_fresh.
    + rewrite IH; rewrite <- app_assoc; done.
    + rewrite fmap_app, fmap_cons in Hnd. apply NoDup_app in Hnd as (_ & Hd & _).
      intros Hin. apply (Hd k Hin). by left.
Qed.

Lemma size_element_lt (l : list json) f :
  (fold_right (fun x acc => S (size x + acc)) 0 l < f)%nat ->
  Forall (fun y => (size y < f)%nat) l /\ (length l < f)%nat.
Proof.
  revert f. induction l as [|x l IH]; intros f H; cbn in *.
  - split; [constructor|lia].
  - destruct (IH (fold_right (fun x acc => S (size x + acc)) 0 l + 1)%nat)
      as [Hall Hlen]; [lia|].
    split; [|lia]. constructor; [lia|].
    eapply Forall_impl; [exact Hall|]. cbn. intros; lia.
Qed.

Lemma size_member_lt (m : list (string * json)) f :
  (fold_right (fun kv acc => S (size (snd kv) + acc)) 0 m < f)%nat ->
  Forall (fun kv => (size (snd kv) < f)%nat) m /\ (length m < f)%nat.
Proof.
  revert f. induction m as [|x m IH]; intros f H; cbn in *.
  - split; [constructor|lia].
  - destruct (IH (fold_right (fun kv acc => S (size (snd kv) + acc)) 0 m + 1)%nat)
      as [Hall Hlen]; [lia|].
    split; [|lia]. constructor; [lia|].
    eapply Forall_impl; [exact Hall|]. cbn. intros; lia.
Qed.

Lemma parse_value_stringify v : parses v.
Proof.
  induction v as [|b|n|d e|s|l IH|m IH] using json_nested_ind;
    intros Hwf fuel k Hfuel Hk;
    (destruct fuel as [|f]; [cbn in Hfuel; lia|]).
  - reflexivity.
  - by destruct b.
  - destruct (string_of_Z_head n) as (c & r & Hn & Hc).
    destruct (num_char_facts _ Hc) as (Hws & N1 & N2 & N3 & N4 & N5 & N6 & _).
    cbn [stringify_to parse_value]. rewrite Hn, append_cons, skip_ws_head by done.
    rewrite N1, N2, N3, N4, N5, N6, <- append_cons, <- Hn.
    by apply parse_number_string_of_Z.
  - cbn [wf] in Hwf. apply negb_true_iff, Z.eqb_neq in Hwf.
    destruct (dec_to_start d e k) as (c & r & Hn & Hc).
    destruct (num_char_facts _ Hc) as (Hws & N1 & N2 & N3 & N4 & N5 & N6 & _).
    cbn [stringify_to parse_value]. rewrite Hn, skip_ws_head by done.
    rewrite N1, N2, N3, N4, N5, N6, <- Hn.
    by apply parse_number_dec.
  - cbn [stringify_to parse_value]. unfold quote_to.
    rewrite skip_ws_head by done. eval_eqb. by rewrite parse_chars_escape.
  - destruct l as [|x xs]; [reflexivity|].
    rewrite stringify_arr_cons. cbn [parse_value].
    rewrite skip_ws_head by done. eval_eqb.
    destruct (stringify_head x (elements_to xs k)) as (c & r & Hx & Hws & Hc).
    rewrite Hx, expect_miss, <- Hx by done.
    cbn [size] in Hfuel. apply Nat.succ_lt_mono in Hfuel.
    apply size_element_lt in Hfuel as [Hall Hlen].
    rewrite parse_elements_stringify; [done..|]. cbn in Hlen. lia.
  - destruct m as [|[key x] xs]; [reflexivity|].
    rewrite stringify_obj_cons. cbn [parse_value].
    rewrite skip_ws_head by done. eval_eqb.
    unfold quote_to at 1. rewrite expect_miss by done.
    change (String dquote (escape_to key ?z)) with (quote_to key z).
    cbn [size] in Hfuel. apply Nat.succ_lt_mono in Hfuel.
    apply size_member_lt in Hfuel as [Hall Hlen].
    cbn [wf] in Hwf. apply andb_prop in Hwf as [Hnd Hwf].
    rewrite parse_members_stringify; [|done..|cbn in Hlen; lia].
    rewrite obj_of_members_NoDup; [done|].
    by apply nodup_keys_NoDup.
Qed.


Lemma length_escape_to s k :
  (String.length k <= String.length (escape_to s k))%nat.
Proof.
  induction s as [|c s IH]; cbn [escape_to]; [done|].
  unfold escape_char. repeat case_match; cbn [String.length]; lia.
Qed.

Lemma length_quote_to s k :
  (2 + String.length k <= String.length (quote_to s k))%nat.
Proof.
  unfold quote_to. cbn [String.length].
  pose proof (length_escape_to s (String dquote k)) as H.
  cbn [String.length] in H. lia.
Qed.

Lemma length_stringify_to v : forall k,
  (size v + String.length k <= String.length (stringify_to v k))%nat.
Proof.
  induction v as [|b|n|d e|s|l IH|m IH] using json_nested_ind; intros k.
  - cbn [stringify_to size]. rewrite length_append. cbn. lia.
  - destruct b; cbn [stringify_to size]; rewrite length_append; cbn; lia.
  - destruct (string_of_Z_head n) as (c & r & Hn & _).
    cbn [stringify_to size]. rewrite Hn, length_append.
    cbn [String.length]. lia.
  - destruct (dec_to_start d e EmptyString) as (c & r & Hn & _).
    cbn [stringify_to size]. rewrite dec_to_app. unfold string_of_dec.
    rewrite Hn, length_append. cbn [String.length]. lia.
  - cbn [stringify_to size]. pose proof (length_quote_to s k). lia.
  - destruct l as [|x xs]; [cbn; lia|].
    rewrite stringify_arr_cons. cbn [size String.length].
    apply Forall_cons in IH as [Hx IH].
    assert (fold_right (fun x acc => S (size x + acc)) 0 xs + 1 + String.length k
            <= String.length (elements_to xs k))%nat as Hxs.
    { clear Hx. induction xs as [|y ys IHys]; [cbn; lia|].
      apply Forall_cons in IH as [Hy IH]. specialize (IHys IH).
      cbn [fold_right elements_to String.length].
      pose proof (Hy (elements_to ys k)). lia. }
    pose proof (Hx (elements_to xs k)). cbn [fold_right]. lia.
  - destruct m as [|[key x] xs]; [cbn; lia|].
    rewrite stringify_obj_cons. cbn [size String.length].
    apply Forall_cons in IH as [Hx IH]. cbn [snd] in Hx.
    assert (fold_right (fun kv acc => S (size (snd kv) + acc)) 0 xs + 1
            + String.length k <= String.length (members_to xs k))%nat as Hxs.
    { clear Hx. induction xs as [|[key' y] ys IHys]; [cbn; lia|].
      apply Forall_cons in IH as [Hy IH]. specialize (IHys IH).
      cbn [fold_right members_to String.length fst snd] in *.
      pose proof (Hy (members_to ys k)).
      pose proof (length_quote_to key'
                    (String ":" (stringify_to y (members_to ys k)))) as Hq.
      cbn [String.length] in Hq. lia. }
    pose proof (Hx (members_to xs k)).
    pose proof (length_quote_to key
                  (String ":" (stringify_to x (members_to xs k)))) as Hq.
    cbn [String.length] in Hq. cbn [fold_right snd]. lia.
Qed.

(** [JSON.parse(JSON.stringify(v))] is [v]. *)
Lemma JSON_parse_stringify v :
  wf v = true -> JSON_parse (JSON_stringify v) = Some v.
Proof.
  intros Hwf. unfold JSON_parse, JSON_stringify.
  rewrite (parse_value_stringify v Hwf); [done| |done].
  pose proof (length_stringify_to v EmptyString). cbn [String.length] in *. lia.
Qed.


(** *** What the parser returns is well formed *)

Lemma obj_set_keys k v o :
  (obj_set k v o).*1 = if decide (k ∈ o.*1) then o.*1 else (o.*1 ++ [k])%list.
Proof.
  induction o as [|[k' v'] o IH]; [done|].
  cbn [obj_set]. rewrite !fmap_cons. cbn [fst].
  destruct (String.eqb_spec k' k) as [->|Hne].
  - rewrite decide_True by left. done.
  - rewrite fmap_cons, IH. cbn [fst].
    destruct (decide (k ∈ o.*1)) as [Hin|Hin].
    + rewrite decide_True by (by right). done.
    + rewrite decide_False; [done|]. rewrite not_elem_of_cons. by split.
Qed.

Lemma obj_set_NoDup k v o : NoDup o.*1 -> NoDup (obj_set k v o).*1.
Proof.
  intros Hnd. rewrite obj_set_keys. case_decide; [done|].
  apply NoDup_app. split_and!; [done| |apply NoDup_singleton].
  intros x Hx ->%list_elem_of_singleton. done.
Qed.

Lemma obj_set_Forall (P : json -> Prop) k v o :
  P v -> Forall (fun kv => P (snd kv)) o ->
  Forall (fun kv => P (snd kv)) (obj_set k v o).
Proof.
  intros Hv. induction 1 as [|[k' v'] o Hx Ho IH]; cbn [obj_set].
  - by repeat constructor.
  - destruct (String.eqb k' k); constructor; done.
Qed.

Lemma obj_of_members_wf ms :
  Forall (fun kv => wf (snd kv) = true) ms ->
  wf (JObj (obj_of_members ms)) = true.
Proof.
  intros Hms. unfold obj_of_members.
  assert (forall acc, NoDup acc.*1 ->
            Forall (fun kv => wf (snd kv) = true) acc ->
            let o := fold_left (fun o kv => obj_set (fst kv) (snd kv) o) ms acc in
            NoDup o.*1 /\ Forall (fun kv => wf (snd kv) = true) o) as H.
  { induction Hms as [|[k v] ms Hv Hms IH]; intros acc Hnd Hacc; [done|].
    cbn [fold_left fst snd]. apply IH.
    - by apply obj_set_NoDup.
    - by apply (obj_set_Forall (fun v => wf v = true)). }
  destruct (H [] (NoDup_nil_2) (List.Forall_nil _)) as [Hnd Hall].
  cbn [wf]. apply andb_true_intro. split.
  - by apply nodup_keys_NoDup.
  - apply forallb_forall. intros kv Hin.
    rewrite List.Forall_forall in Hall. by apply Hall.
Qed.

Section parser_wf.
Variable pv : string -> option (json * string).
Hypothesis pv_wf : forall s v r, pv s = Some (v, r) -> wf v = true.

Lemma parse_elements_wf lf : forall s vs r,
  parse_elements pv lf s = Some (vs, r) -> forallb wf vs = true.
Proof.
  induction lf as [|lf IH]; intros s vs r H; [done|].
  cbn [parse_elements] in H.
  destruct (pv s) as [[v r0]|] eqn:Hv; [|done].
  apply pv_wf in Hv.
  destruct (expect "," r0) as [r1|].
  - destruct (parse_elements pv lf r1) as [[vs' r2]|] eqn:Hvs; [|done].
    injection H as <- <-. cbn [forallb]. rewrite Hv. by apply IH in Hvs.
  - destruct (expect "]" r0); [|done]. injection H as <- <-.
    cbn [forallb]. by rewrite Hv.
Qed.

Lemma parse_members_wf lf : forall s ms r,
  parse_members pv lf s = Some (ms, r) ->
  Forall (fun kv => wf (snd kv) = true) ms.
Proof.
  induction lf as [|lf IH]; intros s ms r H; [done|].
  cbn [parse_members] in H.
  destruct (expect dquote s) as [r0|]; [|done].
  destruct (parse_chars r0) as [[key r1]|]; [|done].
  destruct (expect ":" r1) as [r2|]; [|done].
  destruct (pv r2) as [[v r3]|] eqn:Hv; [|done].
  apply pv_wf in Hv.
  destruct (expect "," r3) as [r4|].
  - destruct (parse_members pv lf r4) as [[ms' r5]|] eqn:Hms; [|done].
    injection H as <- <-. constructor; [done|]. by apply IH in Hms.
  - destruct (expect "}" r3); [|done]. injection H as <- <-.
    by repeat constructor.
Qed.
End parser_wf.

Lemma parse_value_wf fuel : forall s v r,
  parse_value fuel s = Some (v, r) -> wf v = true.
Proof.
  induction fuel as [|f IH]; intros s v r H; [done|].
  cbn [parse_value] in H.
  destruct (skip_ws s) as [|c t]; [done|].
  repeat match type of H with
         | (if ?b then _ else _) = _ => destruct b
         end.
  - destruct (strip_prefix _ t); [|done]. by injection H as <- <-.
  - destruct (strip_prefix _ t); [|done]. by injection H as <- <-.
  - destruct (strip_prefix _ t); [|done]. by injection H as <- <-.
  - destruct (parse_chars t) as [[str r']|]; [|done]. by injection H as <- <-.
  - destruct (expect "]" t); [by injection H as <- <-|].
    destruct (parse_elements _ f t) as [[vs r']|] eqn:Hvs; [|done].
    injection H as <- <-. cbn [wf].
    by apply (parse_elements_wf _ IH) in Hvs.
  - destruct (expect "}" t); [by injection H as <- <-|].
    destruct (parse_members _ f t) as [[ms r']|] eqn:Hms; [|done].
    injection H as <- <-.
    apply (parse_members_wf _ IH) in Hms. by apply obj_of_members_wf.
  - unfold parse_number in H. destruct (span_num _) as [tok rest].
    destruct (number_of_token tok) as [n|] eqn:Hn; [|done].
    injection H as <- <-. by apply wf_number_of_token in Hn.
Qed.

Lemma JSON_parse_wf s v : JSON_parse s = Some v -> wf v = true.
Proof.
  unfold JSON_parse. intros H.
  destruct (parse_value _ s) as [[v' r]|] eqn:Hv; [|done].
  destruct (skip_ws r); [|done]. injection H as <-.
  by apply parse_value_wf in Hv.
Qed.

(** *** Substrings *)

Lemma startsWith_spec s p :
  startsWith s p = true <-> exists rest, s = p +:+ rest.
Proof.
  revert s. induction p as [|a p IH]; intros s.
  - split; [intros _; by exists s|by destruct s].
  - destruct s as [|b s]; cbn [startsWith].
    + split; [done|]. by intros [rest [=]].
    + rewrite andb_true_iff, IH. split.
      * intros [->%Ascii.eqb_eq [rest ->]]. by exists rest.
      * intros [rest Heq]. rewrite append_cons in Heq. injection Heq as -> ->.
        split; [apply Ascii.eqb_refl|by exists rest].
Qed.

Lemma includes_spec s t :
  includes s t = true <-> exists before rest, s = before +:+ t +:+ rest.
Proof.
  induction s as [|c s IH].
  - cbn [includes]. rewrite orb_false_r, startsWith_spec. split.
    + intros [rest ->]. by exists EmptyString, rest.
    + intros (before & rest & Heq). destruct before; [by exists rest|done].
  - unfold includes; fold includes. rewrite orb_true_iff, IH, startsWith_spec.
    split.
    + intros [[rest ->]|(before & rest & ->)].
      * by exists EmptyString, rest.
      * by exists (String c before), rest.
    + intros (before & rest & Heq). destruct before as [|b before].
      * left. by exists rest.
      * right. rewrite append_cons in Heq. injection Heq as -> ->.
        by exists before, rest.
Qed.

(** *** Comparing and subtracting whole numbers *)

Lemma Qlt_bool_inject a b : Qlt_bool (inject_Z a) (inject_Z b) = (a <? b).
Proof.
  unfold Qlt_bool, Qle_bool, inject_Z. cbn [Qnum Qden].
  change (Z.pos 1) with 1. rewrite !Z.mul_1_r. symmetry. apply Z.ltb_antisym.
Qed.

Lemma Qlt_bool_sub a b : Qlt_bool 0 (inject_Z a - inject_Z b) = (b <? a).
Proof.
  unfold Qlt_bool, Qle_bool, inject_Z, Qminus, Qplus, Qopp. cbn [Qnum Qden].
  change (Z.pos (1 * 1)) with 1. change (Z.pos 1) with 1.
  rewrite !Z.mul_1_r, Z.ltb_antisym. f_equal.
  destruct (Z.leb_spec (a + - b) 0), (Z.leb_spec a b); (reflexivity || lia).
Qed.

Lemma Qlt_bool_iff x y : Qlt_bool x y = true <-> (x < y)%Q.
Proof.
  unfold Qlt_bool. rewrite negb_true_iff, <- not_true_iff_false, Qle_bool_iff.
  split; [apply Qnot_le_lt|apply Qlt_not_le].
Qed.

Lemma Qlt_bool_minus x y : Qlt_bool 0 (x - y) = true <-> (y < x)%Q.
Proof. rewrite Qlt_bool_iff. symmetry. apply Qlt_minus_iff. Qed.

Lemma js_lt_num a b : js_lt (Some (JNum a)) (Some (JNum b)) = (a <? b).
Proof. apply Qlt_bool_inject. Qed.

Lemma js_gt_num a b : js_gt (Some (JNum a)) (Some (JNum b)) = (b <? a).
Proof. apply Qlt_bool_inject. Qed.

Lemma js_sub_num a b :
  js_sub (Some (JNum a)) (Some (JNum b)) = Some (inject_Z a - inject_Z b)%Q.
Proof. reflexivity. Qed.

End JSFacts.

(** ** The durable cache *)

Module CacheFacts.
Import Storage CacheService JSFacts.

(** An entry the handler can stamp: absent, empty, or a parsed value
    that is not [null]. *)
Definition readable (s : t) (key : string) : Prop :=
  forall item, getItem key s = Some item -> nonempty item = true ->
  exists parsed, JSON_parse item = Some parsed /\ parsed ≠ JNull.

Definition translations_envelope (m : list (string * json)) (now : Z) : string :=
  JSON_stringify (CacheItem (JObj m) now (now + EXPIRATION_TRANSLATIONS)).

Lemma setItem_fits k v s :
  fits k v s = true -> setItem k v s = Ok (mk (<[k:=v]> (items s)) (capacity s)).
Proof. intros H. unfold setItem. by rewrite H. Qed.

Lemma setItem_full k v s :
  fits k v s = false -> setItem k v s = Throw QuotaExceededError.
Proof. intros H. unfold setItem. by rewrite H. Qed.

Lemma getItem_insert k v m c : getItem k (mk (<[k:=v]> m) c) = Some v.
Proof. apply lookup_insert_eq. Qed.

Lemma getItem_insert_ne k k' v m c :
  k ≠ k' -> getItem k' (mk (<[k:=v]> m) c) = getItem k' (mk m c).
Proof. intros H. by apply lookup_insert_ne. Qed.

Lemma getItem_removeItem k s : getItem k (removeItem k s) = None.
Proof. apply lookup_delete_eq. Qed.

Lemma getItem_removeItem_ne k k' s :
  k ≠ k' -> getItem k' (removeItem k s) = getItem k' s.
Proof. intros H. by apply lookup_delete_ne. Qed.

Lemma wf_CacheItem data ts exp :
  wf data = true -> wf (CacheItem data ts exp) = true.
Proof. intros H. cbn. by rewrite H. Qed.

Lemma nonempty_stringify_obj m : nonempty (JSON_stringify (JObj m)) = true.
Proof. by destruct m as [|[]]. Qed.

Lemma nonempty_CacheItem data ts exp :
  nonempty (JSON_stringify (CacheItem data ts exp)) = true.
Proof. apply nonempty_stringify_obj. Qed.

(** Reading an entry that holds an envelope. *)
Lemma getCache_envelope now key s data ts exp :
  wf data = true ->
  getItem key s = Some (JSON_stringify (CacheItem data ts exp)) ->
  getCache now key s
  = if exp <? now then (null, removeItem key s) else (Some data, s).
Proof.
  intros Hwf Hget. unfold getCache. rewrite Hget.
  rewrite nonempty_CacheItem, JSON_parse_stringify by by apply wf_CacheItem.
  by rewrite <- (js_gt_num now exp).
Qed.

(** An entry that does not parse reads as [null] and stays in place. *)
Lemma getCache_corrupted now key s cached :
  getItem key s = Some cached -> JSON_parse cached = None ->
  getCache now key s = (null, s).
Proof.
  intros Hget Hparse. unfold getCache. rewrite Hget, Hparse.
  by destruct (nonempty cached).
Qed.

(** Reading twice at one time reads the same. *)
Lemma getCache_again now key s :
  getCache now key (getCache now key s).2 = getCache now key s.
Proof.
  destruct (getCache now key s) as [v s1] eqn:H. cbn [snd].
  unfold getCache in H.
  destruct (getItem key s) as [cached|] eqn:Hget;
    [|injection H as <- <-; unfold getCache; by rewrite Hget].
  destruct (nonempty cached) eqn:Hne;
    [|injection H as <- <-; unfold getCache; by rewrite Hget, Hne].
  destruct (JSON_parse cached) as [cacheItem|] eqn:Hp;
    [|injection H as <- <-; unfold getCache; by rewrite Hget, Hne, Hp].
  destruct (get_prop cacheItem "expiration") as [expiration|] eqn:He;
    [|injection H as <- <-; unfold getCache; by rewrite Hget, Hne, Hp, He].
  destruct (js_gt _ expiration) eqn:Hx.
  - injection H as <- <-. unfold getCache. by rewrite getItem_removeItem.
  - destruct (get_prop cacheItem "data") eqn:Hd; injection H as <- <-;
      unfold getCache; by rewrite Hget, Hne, Hp, He, Hx, Hd.
Qed.

(** Expiry is decided at the read: with a readable envelope whose data
    is not [null], the read is [null] exactly when the clock has passed
    the expiration. *)
Lemma getCache_null_iff_expired now key s data ts exp :
  wf data = true -> data ≠ JNull ->
  getItem key s = Some (JSON_stringify (CacheItem data ts exp)) ->
  (getCache now key s).1 = null <-> exp < now.
Proof.
  intros Hwf Hd Hget. rewrite (getCache_envelope _ _ _ _ _ _ Hwf Hget).
  destruct (Z.ltb_spec exp now); cbn [fst]; split; try done; try lia.
  intros [= ->]. done.
Qed.

Lemma getCache_expired_removes now key s data ts exp :
  wf data = true -> exp < now ->
  getItem key s = Some (JSON_stringify (CacheItem data ts exp)) ->
  getCache now key s = (null, removeItem key s).
Proof.
  intros Hwf Hlt Hget. rewrite (getCache_envelope _ _ _ _ _ _ Hwf Hget).
  by rewrite (proj2 (Z.ltb_lt _ _) Hlt).
Qed.


(** *** The quota handler does not throw *)

Lemma get_prop_Ok parsed k : parsed ≠ JNull -> exists v, get_prop parsed k = Ok v.
Proof. destruct parsed; intros H; try done; by eexists. Qed.

Lemma get_prop_Ok_inv parsed k v : get_prop parsed k = Ok v -> parsed ≠ JNull.
Proof. by destruct parsed. Qed.

Lemma clearExpiredItem_other now k k' s :
  k ≠ k' -> getItem k' (clearExpiredItem now k s) = getItem k' s.
Proof.
  intros Hne. unfold clearExpiredItem.
  repeat case_match; try done; by apply getItem_removeItem_ne.
Qed.

Lemma clearExpiredItem_readable now k s : readable (clearExpiredItem now k s) k.
Proof.
  intros item. unfold clearExpiredItem.
  destruct (getItem k s) as [cached|] eqn:Hget; [|by rewrite Hget].
  destruct (nonempty cached) eqn:Hne; [|rewrite Hget; intros [= <-]; congruence].
  destruct (JSON_parse cached) as [cacheItem|] eqn:Hp;
    [|by rewrite getItem_removeItem].
  destruct (get_prop cacheItem "expiration") as [e|] eqn:He;
    [|by rewrite getItem_removeItem].
  destruct (js_gt _ e); [by rewrite getItem_removeItem|].
  rewrite Hget. intros [= <-] _. exists cacheItem.
  split; [done|]. by eapply get_prop_Ok_inv.
Qed.

Lemma clearExpiredItem_keeps_readable now k k' s :
  readable s k' -> readable (clearExpiredItem now k s) k'.
Proof.
  intros H. destruct (decide (k = k')) as [->|Hne].
  - apply clearExpiredItem_readable.
  - intros item. rewrite clearExpiredItem_other by done. apply H.
Qed.

Lemma clearing_readable now (ks : list string) : forall s k,
  k ∈ ks \/ readable s k ->
  readable (fold_left (fun s key => clearExpiredItem now key s) ks s) k.
Proof.
  induction ks as [|k0 ks IH]; intros s k H; cbn [fold_left].
  - destruct H as [H|H]; [by apply not_elem_of_nil in H|done].
  - apply IH. destruct H as [H|H].
    + apply elem_of_cons in H as [->|H]; [|by left].
      right. apply clearExpiredItem_readable.
    + right. by apply clearExpiredItem_keeps_readable.
Qed.

Lemma timestamp_of_readable item parsed :
  JSON_parse item = Some parsed -> parsed ≠ JNull ->
  exists ts, timestamp_of item = Ok ts.
Proof.
  intros Hp Hn. unfold timestamp_of. rewrite Hp.
  destruct (get_prop_Ok parsed "timestamp" Hn) as [v ->]. by eexists.
Qed.

Lemma with_timestamps_total l :
  Forall (fun c => exists ts, timestamp_of (snd c) = Ok ts) l ->
  exists stamped, with_timestamps l = Ok stamped.
Proof.
  induction 1 as [|c l [ts Hts] _ [stamped IH]]; [by eexists|].
  cbn [with_timestamps]. rewrite Hts. cbn. rewrite IH. by eexists.
Qed.

Lemma handleStorageQuotaExceeded_total now s :
  exists s', handleStorageQuotaExceeded now s = Ok s'.
Proof.
  unfold handleStorageQuotaExceeded.
  set (s1 := clearExpiredItems now s).
  set (cacheInfo := omap _ CACHE_KEYS).
  destruct (with_timestamps_total cacheInfo) as [stamped ->]; [|by eexists].
  apply Forall_forall. intros [[name key] item] Hin.
  apply list_elem_of_omap in Hin as ([name' key'] & Hin & Hsome).
  destruct (getItem key' s1) as [item'|] eqn:Hget; [|done].
  destruct (nonempty item') eqn:Hne; [|done].
  injection Hsome as -> -> ->.
  assert (readable s1 key) as Hr.
  { apply clearing_readable. left.
    apply list_elem_of_fmap. by exists (name, key). }
  destruct (Hr item Hget Hne) as (parsed & Hp & Hn).
  by eapply timestamp_of_readable.
Qed.


(** *** Reading and writing *)

Lemma getCache_unchanged now key s :
  (getCache now key s).1 ≠ null -> (getCache now key s).2 = s.
Proof. unfold getCache. repeat case_match; cbn [fst snd]; done. Qed.

Lemma obj_get_wf k o v :
  forallb (fun kv => wf (snd kv)) o = true -> obj_get k o = Some v ->
  wf v = true.
Proof.
  induction o as [|[k' v'] o IH]; [done|]. cbn [forallb obj_get snd].
  intros [Hv Ho]%andb_prop. destruct (String.eqb k' k); [|by apply IH].
  by intros [= <-].
Qed.

Lemma get_prop_wf parsed k v :
  wf parsed = true -> get_prop parsed k = Ok (Some v) -> wf v = true.
Proof.
  destruct parsed as [| | | | | |o]; try done. cbn [wf get_prop].
  intros [_ Ho]%andb_prop [= Hg]. by eapply obj_get_wf.
Qed.

Lemma getCache_wf now key s v : (getCache now key s).1 = Some v -> wf v = true.
Proof.
  unfold getCache.
  destruct (getItem key s) as [cached|]; [|by intros [= <-]].
  destruct (nonempty cached); [|by intros [= <-]].
  destruct (JSON_parse cached) as [cacheItem|] eqn:Hp; [|by intros [= <-]].
  apply JSON_parse_wf in Hp.
  destruct (get_prop cacheItem "expiration"); [|by intros [= <-]].
  destruct (js_gt _ _); [by intros [= <-]|].
  destruct (get_prop cacheItem "data") as [data|] eqn:Hd; [|by intros [= <-]].
  cbn [fst]. intros ->. by eapply get_prop_wf.
Qed.

Lemma obj_get_set k v o : obj_get k (obj_set k v o) = Some v.
Proof.
  induction o as [|[k' v'] o IH]; cbn [obj_set obj_get].
  - by rewrite String.eqb_refl.
  - destruct (String.eqb k' k) eqn:E; cbn [obj_get]; by rewrite E.
Qed.

Lemma obj_get_set_ne k k' v o : k' ≠ k -> obj_get k' (obj_set k v o) = obj_get k' o.
Proof.
  intros Hne. induction o as [|[k0 v0] o IH]; cbn [obj_set obj_get].
  - by rewrite (proj2 (String.eqb_neq _ _)).
  - destruct (String.eqb_spec k0 k) as [->|]; cbn [obj_get]; [|by rewrite IH].
    by rewrite (proj2 (String.eqb_neq k k')).
Qed.

Lemma wf_obj_set k v o :
  wf (JObj o) = true -> wf v = true -> wf (JObj (obj_set k v o)) = true.
Proof.
  cbn [wf]. intros [Hnd Hall]%andb_prop Hv. apply andb_true_intro. split.
  - apply nodup_keys_NoDup, obj_set_NoDup. by apply nodup_keys_NoDup.
  - apply forallb_forall. intros kv Hin.
    assert (Forall (fun kv => wf (snd kv) = true) (obj_set k v o)) as H.
    { apply (obj_set_Forall (fun v => wf v = true)); [done|].
      apply List.Forall_forall. by apply forallb_forall. }
    rewrite List.Forall_forall in H. by apply H.
Qed.

(** What a read returns depends on the entry under its key only. *)
Lemma getCache_value_local now key s1 s2 :
  getItem key s1 = getItem key s2 ->
  (getCache now key s1).1 = (getCache now key s2).1.
Proof.
  intros H. unfold getCache. rewrite H.
  by repeat case_match.
Qed.

(** A write the store accepts. *)
Lemma setCache_accepted now key data expiration s :
  fits key (JSON_stringify (CacheItem data now (now + expiration))) s = true ->
  setCache now key data expiration s
  = mk (<[key:=JSON_stringify (CacheItem data now (now + expiration))]> (items s))
       (capacity s).
Proof. intros H. unfold setCache. by rewrite setItem_fits. Qed.


(** C1.  A stored entry that does not parse: [getCache] answers [null]
    and leaves the entry in the store, where [clearExpiredItems], the
    sweep of the same service, removes it.  The design asks the read to
    delete a corrupted entry. *)
Theorem getCache_leaves_corrupted_entry :
  let s := mk {[ RECOMMENDATIONS := "{oops" ]} None in
  JSON_parse "{oops" = None
  /\ getCache 1000 RECOMMENDATIONS s = (null, s)
  /\ getItem RECOMMENDATIONS (getCache 1000 RECOMMENDATIONS s).2 = Some "{oops"
  /\ getItem RECOMMENDATIONS (clearExpiredItems 1000 s) = None.
Proof. repeat split; vm_compute; reflexivity. Qed.

(** C7, as stated, fails when the store is full: the write is dropped
    and the read that follows finds nothing. *)
Lemma put_get_store_full :
  let s := mk ∅ (Some 0%nat) in
  let v := JArr [JStr "Kachori"] in
  0 < EXPIRATION_RECOMMENDATIONS
  /\ (getCache 1000 RECOMMENDATIONS
        (setCache 1000 RECOMMENDATIONS v EXPIRATION_RECOMMENDATIONS s)).1
     = null
  /\ null ≠ Some v.
Proof.
  split; [reflexivity|]. split; [vm_compute; reflexivity|discriminate].
Qed.

(** A day-long entry: read after 23 hours it is there, read after 25
    hours it is gone and its key is removed. *)
Example recommendations_expire_after_a_day :
  let hour := 60 * 60 * 1000 in
  let v := JArr [JStr "Kachori"] in
  let s := cacheRecommendations 0 v (mk ∅ None) in
  getCachedRecommendations (23 * hour) s = (Some v, s)
  /\ getCachedRecommendations (25 * hour) s
     = (null, removeItem RECOMMENDATIONS s)
  /\ getItem RECOMMENDATIONS (getCachedRecommendations (25 * hour) s).2 = None.
Proof. repeat split; vm_compute; reflexivity. Qed.

(** *** The translations mapping *)

(** C10, as stated, fails when the store is full: the failed write runs
    the quota handler, which drops the oldest half of the caches, here
    the translations themselves. *)
Lemma cacheTranslation_store_full :
  let text := translations_envelope [("auto-hi-hello", JStr "namaste")] 1000 in
  let s := mk {[ TRANSLATIONS := text ]}
              (Some (usage {[ TRANSLATIONS := text ]})) in
  (getCachedTranslation 2000 "auto-hi-hello" s).1 = Some (JStr "namaste")
  /\ match cacheTranslation 2000 "auto-hi-water" "pani" s with
     | Ok s' => (getCachedTranslation 2000 "auto-hi-hello" s').1 = null
     | Throw _ => False
     end.
Proof. split; vm_compute; reflexivity. Qed.

(** C10, amended.  On a translations mapping that has not expired and a
    store that accepts the write, [cacheTranslation] writes the whole
    mapping back under one envelope that expires thirty days after the
    call, and every translation cached under another key reads as
    before for as long as that envelope lasts. *)
Theorem cacheTranslation_frame now key translation s m :
  (getCachedTranslations now s).1 = Some (JObj m) ->
  fits TRANSLATIONS
    (translations_envelope (obj_set key (JStr translation) m) now) s = true ->
  exists s',
    cacheTranslation now key translation s = Ok s'
    /\ getItem TRANSLATIONS s'
       = Some (translations_envelope (obj_set key (JStr translation) m) now)
    /\ forall now' key',
         now' <= now + EXPIRATION_TRANSLATIONS -> key' ≠ key ->
         (getCachedTranslation now' key' s').1
         = (getCachedTranslation now key' s).1.
Proof.
  intros Hread Hfits.
  assert ((getCachedTranslations now s).2 = s) as Hs.
  { apply getCache_unchanged. unfold getCachedTranslations in Hread.
    by rewrite Hread. }
  assert (wf (JObj m) = true) as Hwf by (by eapply getCache_wf).
  unfold cacheTranslation.
  destruct (getCachedTranslations now s) as [cached s1] eqn:Hc.
  cbn [fst snd] in Hread, Hs. subst cached s1.
  cbn [js_or truthy set_elem mbind res_bind].
  rewrite setCache_accepted by exact Hfits.
  eexists. split; [reflexivity|]. split; [apply getItem_insert|].
  intros now' key' Hnow' Hne.
  unfold getCachedTranslation. rewrite Hc.
  unfold getCachedTranslations, translations_envelope.
  rewrite (getCache_envelope now' TRANSLATIONS _
             (JObj (obj_set key (JStr translation) m)) now
             (now + EXPIRATION_TRANSLATIONS));
    [|by apply wf_obj_set|apply getItem_insert].
  rewrite (proj2 (Z.ltb_ge _ _)) by lia.
  cbn [fst get_elem]. by rewrite obj_get_set_ne.
Qed.

Lemma cacheTranslation_frame_witness :
  let m := [("auto-hi-hello", JStr "namaste")] in
  let s := mk {[ TRANSLATIONS := translations_envelope m 1000 ]} None in
  (getCachedTranslations 2000 s).1 = Some (JObj m)
  /\ fits TRANSLATIONS
       (translations_envelope (obj_set "auto-hi-water" (JStr "pani") m) 2000) s
     = true
  /\ exists s',
       cacheTranslation 2000 "auto-hi-water" "pani" s = Ok s'
       /\ getItem TRANSLATIONS s'
          = Some (translations_envelope
                    (obj_set "auto-hi-water" (JStr "pani") m) 2000)
       /\ forall now' key',
            now' <= 2000 + EXPIRATION_TRANSLATIONS -> key' ≠ "auto-hi-water" ->
            (getCachedTranslation now' key' s').1
            = (getCachedTranslation 2000 key' s).1.
Proof.
  cbv zeta. split; [vm_compute; reflexivity|]. split; [reflexivity|].
  apply cacheTranslation_frame; [vm_compute; reflexivity|reflexivity].
Defined.

End CacheFacts.

(** ** The cache manager *)

Module ManagerFacts.
Import Storage CacheManager CacheFacts.

(** A key no phase of a cleanup may remove: it lacks the prefix, or it is
    essential and essential keys are preserved. *)
Definition protected (preserveEssential : bool) (key : string) : bool :=
  negb (startsWith key PREFIX) || (preserveEssential && isEssentialKey key).

(** The keys a routine of the manager selects. *)
Definition selected (s : t) : list string :=
  filter (fun key => Is_true (startsWith key PREFIX)) (keys s).

(** The messages of [checkStorageHealth]. *)
Definition CRITICAL : string := "Storage is nearly full (>90%)".
Definition ADVISORY : string := "Storage usage is high (>80%)".
Definition VERY_OLD : string := "Some cache items are very old (>7 days)".

Lemma fold_left_getItem {A} (f : t -> A -> t) key (l : list A) : forall s,
  (forall s a, a ∈ l -> getItem key (f s a) = getItem key s) ->
  getItem key (fold_left f l s) = getItem key s.
Proof.
  induction l as [|a l IH]; intros s H; [done|]. cbn [fold_left].
  rewrite IH; [apply H; by left|]. intros s' a' Ha'. apply H. by right.
Qed.

Lemma cleanExpiredItem_protected now p key s k :
  protected p key = true ->
  getItem key (cleanExpiredItem now p s k) = getItem key s.
Proof.
  intros Hp. unfold cleanExpiredItem.
  destruct (decide (k = key)) as [->|Hne].
  - unfold protected in Hp. destruct (startsWith key PREFIX); [|done].
    cbn [negb orb] in Hp. by rewrite Hp.
  - repeat case_match; try done; by apply getItem_removeItem_ne.
Qed.

Lemma cleanExpiredItems_protected now p key s :
  protected p key = true ->
  getItem key (cleanExpiredItems now p s) = getItem key s.
Proof.
  intros Hp. apply fold_left_getItem. intros. by apply cleanExpiredItem_protected.
Qed.

Lemma candidates_unprotected p s k :
  k ∈ candidates p s -> protected p k = false.
Proof.
  unfold candidates, protected. rewrite !list_elem_of_filter.
  intros (H1 & H2 & _). apply Is_true_true in H1, H2. rewrite H2.
  cbn [negb orb]. destruct p; [|done]. cbn [negb orb andb] in *.
  by apply negb_true_iff in H1 as ->.
Qed.

(** Sorting keeps the elements. *)
Lemma elem_of_insert_sorted {A} (cmp : A -> A -> option Q) x y l :
  y ∈ insert_sorted cmp x l <-> y = x \/ y ∈ l.
Proof.
  induction l as [|z l IH]; cbn [insert_sorted].
  - rewrite list_elem_of_singleton, elem_of_nil. tauto.
  - destruct (after cmp z x); rewrite !elem_of_cons, ?IH; tauto.
Qed.

Lemma elem_of_js_sort {A} (cmp : A -> A -> option Q) y l :
  y ∈ js_sort cmp l <-> y ∈ l.
Proof.
  unfold js_sort.
  assert (forall acc, y ∈ fold_left (fun acc x => insert_sorted cmp x acc) l acc
                      <-> y ∈ l \/ y ∈ acc) as H.
  { induction l as [|x l IH]; intros acc; cbn [fold_left].
    - rewrite elem_of_nil. tauto.
    - rewrite IH, elem_of_insert_sorted, elem_of_cons. tauto. }
  rewrite H, elem_of_nil. tauto.
Qed.

Lemma cleanByAge_protected now maxAge p key s :
  protected p key = true ->
  getItem key (cleanByAge now maxAge p s) = getItem key s.
Proof.
  intros Hp. unfold cleanByAge. apply fold_left_getItem.
  intros s' item Hin. destruct (js_lt _ _); [|done].
  apply getItem_removeItem_ne. intros Heq.
  apply elem_of_js_sort, list_elem_of_omap in Hin as (k & Hk & Hsome).
  apply candidates_unprotected in Hk.
  repeat case_match; try done; injection Hsome as <-; cbn in Heq; congruence.
Qed.

Lemma removeUntil_getItem maxSize key (l : list Entry) : forall size s,
  (forall e, e ∈ l -> entry_key e ≠ key) ->
  getItem key (removeUntil maxSize size l s) = getItem key s.
Proof.
  induction l as [|e l IH]; intros size s H; [done|]. cbn [removeUntil].
  destruct (size <=? maxSize); [done|].
  rewrite IH by (intros e' He'; apply H; by right).
  apply getItem_removeItem_ne, H. by left.
Qed.

Lemma cleanBySize_protected maxSize p key s :
  protected p key = true ->
  getItem key (cleanBySize maxSize p s) = getItem key s.
Proof.
  intros Hp. unfold cleanBySize. apply removeUntil_getItem.
  intros e Hin Heq.
  apply elem_of_js_sort, list_elem_of_omap in Hin as (k & Hk & Hsome).
  apply candidates_unprotected in Hk.
  repeat case_match; try done; injection Hsome as <-; cbn in Heq; congruence.
Qed.

Lemma performEmergencyCleanup_protected key s :
  protected true key = true ->
  getItem key (performEmergencyCleanup s) = getItem key s.
Proof.
  intros Hp. unfold performEmergencyCleanup. apply fold_left_getItem.
  intros s' k _. destruct (startsWith k PREFIX && negb (isEssentialKey k)) eqn:E;
    [|done].
  apply getItem_removeItem_ne. intros ->. unfold protected in Hp.
  apply andb_prop in E as [E1 E2]. rewrite E1 in Hp.
  apply negb_true_iff in E2. by rewrite E2 in Hp.
Qed.

Lemma performCleanup_protected options e1 e2 now key s :
  protected (default true (preserveEssential options)) key = true ->
  getItem key (performCleanup options e1 e2 now s) = getItem key s.
Proof.
  intros Hp. unfold performCleanup.
  repeat case_match;
    rewrite ?cleanBySize_protected, ?cleanByAge_protected,
      ?cleanExpiredItems_protected by done; done.
Qed.

Lemma essential_protected key : isEssentialKey key = true -> protected true key = true.
Proof. intros H. unfold protected. rewrite H. by destruct (startsWith _ _). Qed.

(** C2, as stated, fails on a corrupted essential entry: with
    [preserveEssential] the sweep skips the key before it looks at the
    entry, so the entry stays; without the flag it is removed. *)
Lemma corrupted_essential_entry_survives :
  let s := mk {[ CacheService.ESSENTIAL_DATA := "{oops" ]} None in
  let full := CacheService.EstimateResolved (Some 95) (Some 100) in
  isEssentialKey CacheService.ESSENTIAL_DATA = true
  /\ JSON_parse "{oops" = None
  /\ getItem CacheService.ESSENTIAL_DATA
       (performCleanup (mkOptions None None (Some true)) full full 1000 s)
     = Some "{oops"
  /\ getItem CacheService.ESSENTIAL_DATA
       (performCleanup (mkOptions None None (Some false)) full full 1000 s)
     = None.
Proof. repeat split; vm_compute; reflexivity. Qed.

(** C2, amended.  With [preserveEssential] set (or left to its default),
    no phase of [performCleanup] removes or changes an entry whose key is
    essential, whether or not the entry parses. *)
Theorem performCleanup_preserves_essential options e1 e2 now s key :
  default true (preserveEssential options) = true ->
  isEssentialKey key = true ->
  getItem key (performCleanup options e1 e2 now s) = getItem key s.
Proof.
  intros Hopt Hkey. apply performCleanup_protected. rewrite Hopt.
  by apply essential_protected.
Qed.

Lemma performCleanup_preserves_essential_witness :
  let s := mk {[ CacheService.ESSENTIAL_DATA := "{oops";
                 CacheService.RECOMMENDATIONS := "{oops" ]} None in
  let full := CacheService.EstimateResolved (Some 95) (Some 100) in
  let options := mkOptions None None (Some true) in
  default true (preserveEssential options) = true
  /\ isEssentialKey CacheService.ESSENTIAL_DATA = true
  /\ getItem CacheService.ESSENTIAL_DATA (performCleanup options full full 1000 s)
     = getItem CacheService.ESSENTIAL_DATA s.
Proof.
  cbv zeta. split; [reflexivity|]. split; [reflexivity|].
  apply performCleanup_preserves_essential; reflexivity.
Defined.


(** *** Which entries the manager sees *)

Lemma elem_of_keys key s : key ∈ keys s <-> is_Some (getItem key s).
Proof.
  unfold keys, getItem. rewrite list_elem_of_fmap. split.
  - intros ([k v] & -> & Hin). apply elem_of_map_to_list in Hin. by eexists.
  - intros [v Hv]. exists (key, v). split; [done|]. by apply elem_of_map_to_list.
Qed.

Lemma countItem_totalItems now s acc key :
  totalItems (countItem now s acc key) = totalItems acc.
Proof. unfold countItem. by repeat case_match. Qed.

Lemma getCacheStats_totalItems now s :
  totalItems (getCacheStats now s) = length (selected s).
Proof.
  assert (forall l acc, totalItems (fold_left (countItem now s) l acc)
                        = totalItems acc) as H.
  { induction l as [|k l IH]; intros acc; [done|]. cbn [fold_left].
    by rewrite IH, countItem_totalItems. }
  unfold getCacheStats. by rewrite H.
Qed.

Lemma unprefixed_protected p key :
  startsWith key PREFIX = false -> protected p key = true.
Proof. intros H. unfold protected. by rewrite H. Qed.



(** *** The quota snapshot *)

Lemma Qgt_bool_iff x y : CacheService.Qgt_bool x y = true <-> (y < x)%Q.
Proof.
  unfold CacheService.Qgt_bool. rewrite negb_true_iff, <- not_true_iff_false.
  rewrite Qle_bool_iff. split; [apply Qnot_le_lt|apply Qlt_not_le].
Qed.

(** C9.  When the platform answers with usage [u] and quota [q], the
    snapshot has [used = u || 0], [quota = q || 0], [percentage =
    used / quota] (taken as 0 when the quota is not positive) and
    [nearLimit = percentage > 0.8]; when the platform has no estimate or
    the estimate fails, the snapshot is all zero and not near the limit. *)
Theorem getCacheInfo_snapshot :
  (forall usage quota,
     let info := CacheService.getCacheInfo
                   (CacheService.EstimateResolved usage quota) in
     CacheService.used info = default 0 usage
     /\ CacheService.quota info = default 0 quota
     /\ (0 < CacheService.quota info ->
         (CacheService.percentage info
          == inject_Z (CacheService.used info)
             / inject_Z (CacheService.quota info))%Q)
     /\ (CacheService.quota info <= 0 ->
         (CacheService.percentage info == 0)%Q)
     /\ (CacheService.nearLimit info = true
         <-> (0.8 < CacheService.percentage info)%Q))
  /\ CacheService.getCacheInfo CacheService.EstimateUnsupported
     = CacheService.mkCacheInfo 0 0 0 false
  /\ CacheService.getCacheInfo CacheService.EstimateRejected
     = CacheService.mkCacheInfo 0 0 0 false.
Proof.
  split; [|done]. intros usage quota. cbv zeta.
  unfold CacheService.getCacheInfo.
  cbn [CacheService.used CacheService.quota CacheService.percentage
       CacheService.nearLimit].
  split_and!; [done|done|..].
  - intros Hq. by rewrite (proj2 (Z.ltb_lt _ _) Hq).
  - intros Hq. by rewrite (proj2 (Z.ltb_ge _ _) Hq).
  - apply Qgt_bool_iff.
Qed.

Lemma getCacheInfo_snapshot_witness :
  let info := CacheService.getCacheInfo
                (CacheService.EstimateResolved (Some 95) (Some 100)) in
  0 < CacheService.quota info
  /\ (CacheService.percentage info == 95 / 100)%Q
  /\ CacheService.nearLimit info = true.
Proof.
  cbv zeta.
  destruct getCacheInfo_snapshot as [H _].
  destruct (H (Some 95) (Some 100)) as (_ & _ & Hpct & _ & Hnear).
  split; [reflexivity|]. split; [apply Hpct; reflexivity|].
  apply Hnear. reflexivity.
Defined.

(** *** Storage health *)

(** What [checkStorageHealth] does get right: the verdict, the two
    quota messages, the count of expired items and the pairing of
    warnings with recommendations. *)
Lemma checkStorageHealth_quota estimate now s :
  let pct := CacheService.percentage (CacheService.getCacheInfo estimate) in
  let h := checkStorageHealth estimate now s in
  (healthy h = false <-> (0.9 < pct)%Q)
  /\ ((0.9 < pct)%Q -> CRITICAL ∈ warnings h)
  /\ ((0.8 < pct)%Q -> (pct <= 0.9)%Q -> ADVISORY ∈ warnings h)
  /\ ((10 < expiredItems (getCacheStats now s))%nat ->
      string_of_Z (Z.of_nat (expiredItems (getCacheStats now s)))
      +:+ " expired cache items found" ∈ warnings h)
  /\ length (warnings h) = length (recommendations h).
Proof.
  cbv zeta. unfold checkStorageHealth.
  set (pct := CacheService.percentage _).
  set (stats := getCacheStats now s).
  destruct (CacheService.Qgt_bool pct 0.9) eqn:H9;
    [apply Qgt_bool_iff in H9
    |apply not_true_iff_false in H9; rewrite Qgt_bool_iff in H9];
  (destruct (CacheService.Qgt_bool pct 0.8) eqn:H8;
    [apply Qgt_bool_iff in H8
    |apply not_true_iff_false in H8; rewrite Qgt_bool_iff in H8]);
  (destruct (10 <? expiredItems stats)%nat eqn:He;
    [apply Nat.ltb_lt in He|apply Nat.ltb_ge in He]);
  destruct (truthy (oldestItem stats) && _);
  cbn [healthy warnings recommendations app length];
  (split_and!;
   [split; [done || (intros _; done) | done || (intros ?; done)]
   |intros ?; first [done | set_solver]
   |intros ? Hle; first [done | set_solver | by apply Qle_not_lt in Hle]
   |intros ?; first [lia | set_solver]
   |reflexivity]).
Qed.


(** A quota used to 95 percent is not healthy and gets the critical
    warning. *)
Example storage_at_95_percent now s :
  let h := checkStorageHealth
             (CacheService.EstimateResolved (Some 95) (Some 100)) now s in
  healthy h = false /\ CRITICAL ∈ warnings h.
Proof.
  cbv zeta.
  destruct (checkStorageHealth_quota
              (CacheService.EstimateResolved (Some 95) (Some 100)) now s)
    as (Hh & Hc & _).
  split; [apply Hh|apply Hc]; reflexivity.
Qed.

(** C8.  The age warning is lost once the store holds the last-sync
    marker.  The marker is a bare number, so [getCacheStats] gives it
    the timestamp 0 and reports 0 as the oldest item; [checkStorageHealth]
    tests [oldestItem] for truth before it computes the age, and 0 is not
    true.  Here a translations entry written eight days ago sits next to
    the marker: no warning is given, and the same store without the
    marker gets the warning. *)
Theorem age_warning_masked_by_last_sync :
  let now := 1700000000000 in
  let written := now - 8 * 24 * 60 * 60 * 1000 in
  let old :=
    JSON_stringify
      (CacheService.CacheItem (JObj [("auto-hi-hello", JStr "namaste")])
         written (written + CacheService.EXPIRATION_TRANSLATIONS)) in
  let s0 := mk {[ CacheService.TRANSLATIONS := old ]} None in
  let estimate := CacheService.EstimateResolved (Some 10) (Some 100) in
  match CacheService.updateLastSync now s0 with
  | Ok s =>
      SEVEN_DAYS < now - written
      /\ oldestItem (getCacheStats now s) = Some (JNum 0)
      /\ checkStorageHealth estimate now s = mkHealth true [] []
      /\ warnings (checkStorageHealth estimate now s0) = [VERY_OLD]
  | Throw _ => False
  end.
Proof. vm_compute. repeat split; reflexivity. Qed.

End ManagerFacts.
(** ** The preloader *)

Module PreloadFacts.
Import Storage DataPreloader CacheFacts.

Definition is_rejected (r : Settled) : bool :=
  match r with
  | Rejected _ => true
  | Fulfilled => false
  end.

(** The number of tasks that failed. *)
Definition failed (results : list Settled) : nat :=
  length (List.filter is_rejected results).

(** The tasks run unless the data is fresh and the client is offline. *)
Definition tasksRun (env : Env) (forceRefresh : bool) (now : Z) (st : State)
  : bool :=
  forceRefresh || CacheService.needsRefresh ONE_HOUR now st.1 || onLine env.

Definition fetched : json := JArr [JObj [("name", JStr "Kachori")]].

(** The network answers every call. *)
Definition network_up : Env :=
  mkEnv true true 2000 (QueryFetched (JObj [])) (QueryFetched fetched)
    (fun _ => QueryFetched fetched).

(** The preferences and the popular recommendations cannot be fetched
    and nothing is cached; a failed prefetch throws. *)
Definition two_down : Env :=
  mkEnv true true 2000 (QueryFailed "Error: Network Error")
    (QueryFailed "Error: Network Error") (fun _ => QueryFetched fetched).

(** Every category call fails; the other calls are answered. *)
Definition categories_down : Env :=
  mkEnv true true 2000 (QueryFetched (JObj [])) (QueryFetched fetched)
    (fun _ => QueryFailed "Error: Network Error").

Lemma collect_errors results : forall index result,
  length (errors (collect index results result))
  = (length (errors result) + failed results)%nat.
Proof.
  induction results as [|r results IH]; intros index result;
    cbn [collect]; [unfold failed; cbn; lia|].
  rewrite IH. unfold failed. destruct r; cbn [errors is_rejected List.filter length].
  - lia.
  - rewrite length_app. cbn [length]. lia.
Qed.

Lemma collect_success results : forall index result,
  success (collect index results result) = success result.
Proof.
  induction results as [|r results IH]; intros index result;
    cbn [collect]; [done|]. rewrite IH. by destruct r.
Qed.

Lemma majority_iff result tasks :
  majority result tasks = true <-> (2 * length (errors result) <= tasks)%nat.
Proof.
  unfold majority, Qle_bool. cbn. rewrite Z.leb_le. lia.
Qed.

(** The join is by majority whenever the last sync can be written. *)
Lemma join_majority now results s s' :
  CacheService.updateLastSync now s = Ok s' ->
  let result := (join now results s).1 in
  length (errors result) = failed results
  /\ (success result = true <-> (2 * failed results <= length results)%nat).
Proof.
  intros Hsync. cbv zeta. unfold join. rewrite Hsync. cbn [fst errors success].
  rewrite majority_iff, collect_errors. cbn [errors length]. done.
Qed.

(** When the last sync cannot be written the preload fails. *)
Lemma join_throw now results s e :
  CacheService.updateLastSync now s = Throw e ->
  let result := (join now results s).1 in
  success result = false /\ length (errors result) = S (failed results).
Proof.
  intros Hsync. cbv zeta. unfold join. rewrite Hsync. cbn [fst errors success].
  split; [done|]. rewrite length_app, collect_errors. cbn. lia.
Qed.

(** The shape of a run: the tasks of the preferences and of the popular
    recommendations may fail; the other two are fulfilled. *)
Lemma runTasks_shape env now st :
  exists r1 r2, (runTasks env now st).1 = [r1; r2; Fulfilled; Fulfilled].
Proof.
  unfold runTasks.
  destruct (start_preloadUserPreferences now st) as [p1 st1].
  destruct (start_preloadPopularRecommendations now st1) as [p2 st2].
  unfold preloadEssentialCacheData, preloadRecommendationCategories.
  destruct (settle p1 _ _) as [r1 st3].
  destruct (settle p2 _ _) as [r2 st4].
  by exists r1, r2.
Qed.

Lemma runTasks_length env now st : length (runTasks env now st).1 = 4%nat.
Proof. by destruct (runTasks_shape env now st) as (r1 & r2 & ->). Qed.

(** The task of the categories settles as fulfilled, whatever the
    network does. *)
Lemma preloadRecommendationCategories_fulfilled env st :
  (preloadRecommendationCategories env st).1 = Fulfilled.
Proof. reflexivity. Qed.

Lemma runTasks_categories env now st :
  (runTasks env now st).1 !! 2%nat = Some Fulfilled.
Proof. by destruct (runTasks_shape env now st) as (r1 & r2 & ->). Qed.


Lemma updateLastSync_fits now s :
  fits CacheService.LAST_SYNC (string_of_Z now) s = true ->
  exists s', CacheService.updateLastSync now s = Ok s'.
Proof. intros H. unfold CacheService.updateLastSync. rewrite setItem_fits; eauto. Qed.

Lemma preloadEssentialData_early env forceRefresh now st :
  tasksRun env forceRefresh now st = false ->
  preloadEssentialData env forceRefresh now st = (mkResult true [] [], st).
Proof.
  unfold tasksRun, preloadEssentialData. intros H.
  apply orb_false_elim in H as [H ->]. by rewrite H.
Qed.

Lemma preloadEssentialData_run env forceRefresh now st :
  tasksRun env forceRefresh now st = true ->
  (preloadEssentialData env forceRefresh now st).1
  = (join (settle_time env) (runTasks env now st).1 (runTasks env now st).2.1).1.
Proof.
  unfold tasksRun, preloadEssentialData. intros H.
  destruct (forceRefresh || _) eqn:E; cbn [negb andb].
  - by destruct (runTasks env now st) as [results st1], (join _ _ _).
  - cbn [orb] in H. rewrite H. cbn [negb].
    by destruct (runTasks env now st) as [results st1], (join _ _ _).
Qed.

(** C3, as stated, fails when the store is full: no task fails, the
    stamp of the last sync throws, and the preload reports failure. *)
Lemma preload_fails_when_store_full :
  let st : State := (mk ∅ (Some 0%nat), ∅) in
  let run := (preloadEssentialData network_up false 1000 st).1 in
  (runTasks network_up 1000 st).1 = [Fulfilled; Fulfilled; Fulfilled; Fulfilled]
  /\ failed (runTasks network_up 1000 st).1 = 0%nat
  /\ success run = false
  /\ length (errors run) = 1%nat.
Proof. repeat split; vm_compute; reflexivity. Qed.

(** C3, amended.  When the tasks run and the store accepts the stamp of
    the last sync, the preload has four tasks, records one error for
    each task that failed, and succeeds exactly when the failed tasks
    are at most half of them ([f <= n/2], that is [2f <= n]). *)
Theorem preload_success_by_majority env forceRefresh now st :
  let run := (preloadEssentialData env forceRefresh now st).1 in
  let results := (runTasks env now st).1 in
  tasksRun env forceRefresh now st = true ->
  fits CacheService.LAST_SYNC (string_of_Z (settle_time env))
    (runTasks env now st).2.1 = true ->
  length results = 4%nat
  /\ length (errors run) = failed results
  /\ (success run = true <-> (2 * failed results <= length results)%nat).
Proof.
  cbv zeta. intros Hrun Hfits. split; [apply runTasks_length|].
  rewrite preloadEssentialData_run by done.
  destruct (updateLastSync_fits _ _ Hfits) as [s' Hs'].
  by apply (join_majority _ _ _ _ Hs').
Qed.

Lemma preload_success_by_majority_witness :
  let st : State := (mk ∅ None, ∅) in
  let run := (preloadEssentialData two_down false 1000 st).1 in
  let results := (runTasks two_down 1000 st).1 in
  tasksRun two_down false 1000 st = true
  /\ fits CacheService.LAST_SYNC (string_of_Z (settle_time two_down))
       (runTasks two_down 1000 st).2.1 = true
  /\ failed results = 2%nat
  /\ length results = 4%nat
  /\ length (errors run) = failed results
  /\ (success run = true <-> (2 * failed results <= length results)%nat).
Proof.
  cbv zeta. split; [reflexivity|]. split; [reflexivity|].
  split; [vm_compute; reflexivity|].
  apply preload_success_by_majority; reflexivity.
Defined.


(** *** A task whose network calls fail *)

Lemma preferences_task_fetched env now st prefs :
  preferences_query env = QueryFetched prefs ->
  let started := start_preloadUserPreferences now st in
  forall st', (settle started.1 (finish_preloadUserPreferences env) st').1
              = Fulfilled.
Proof.
  intros Hq. cbv zeta. intros st'. unfold start_preloadUserPreferences.
  destruct (CacheService.getCachedUserPreferences now st.1) as [c s1].
  destruct (truthy c && _); cbn [fst settle]; [done|].
  unfold finish_preloadUserPreferences. by rewrite Hq.
Qed.

Lemma recommendations_task_fetched env now st recs :
  recommendations_query env = QueryFetched recs ->
  let started := start_preloadPopularRecommendations now st in
  forall st', (settle started.1 (finish_preloadPopularRecommendations env) st').1
              = Fulfilled.
Proof.
  intros Hq. cbv zeta. intros st'. unfold start_preloadPopularRecommendations.
  destruct (CacheService.getCachedRecommendations now st.1) as [c s1].
  destruct (nonempty_list c && _); cbn [fst settle]; [done|].
  unfold finish_preloadPopularRecommendations. by rewrite Hq.
Qed.

Lemma runTasks_all_fulfilled env now st prefs recs :
  preferences_query env = QueryFetched prefs ->
  recommendations_query env = QueryFetched recs ->
  (runTasks env now st).1 = [Fulfilled; Fulfilled; Fulfilled; Fulfilled].
Proof.
  intros Hp Hr. unfold runTasks.
  pose proof (preferences_task_fetched env now st prefs Hp) as H1.
  destruct (start_preloadUserPreferences now st) as [p1 st1].
  pose proof (recommendations_task_fetched env now st1 recs Hr) as H2.
  destruct (start_preloadPopularRecommendations now st1) as [p2 st2].
  unfold preloadEssentialCacheData, preloadRecommendationCategories.
  cbn [fst] in H1, H2.
  match goal with
  | |- context [settle p1 ?f ?x] =>
      specialize (H1 x); destruct (settle p1 f x) as [r1 st3]
  end.
  match goal with
  | |- context [settle p2 ?f ?x] =>
      specialize (H2 x); destruct (settle p2 f x) as [r2 st4]
  end.
  cbn [fst] in *. by subst.
Qed.

(** C4, as stated, fails: the failures of the category calls are logged
    inside the task and not thrown, so the task is fulfilled and no
    error is recorded for it. *)
Lemma categories_failure_not_reported :
  let st : State := (mk ∅ None, ∅) in
  let run := (preloadEssentialData categories_down false 1000 st).1 in
  success run = true
  /\ errors run = []
  /\ length (errors run) ≠ 1%nat
  /\ preloadedItems run = taskNames.
Proof.
  split_and!; [vm_compute; reflexivity..|done|vm_compute; reflexivity].
Qed.

(** C4, amended.  When the four tasks run, the three other tasks succeed
    and every call of the per-category task fails, with or without
    cached data, the task still settles as fulfilled: the result has
    [success = true], no error, and all four tasks among the preloaded
    items. *)
Theorem categories_failure_swallowed env forceRefresh now st prefs recs :
  tasksRun env forceRefresh now st = true ->
  preferences_query env = QueryFetched prefs ->
  recommendations_query env = QueryFetched recs ->
  (forall c, c ∈ categories -> exists reason, category_query env c = QueryFailed reason) ->
  fits CacheService.LAST_SYNC (string_of_Z (settle_time env))
    (runTasks env now st).2.1 = true ->
  let run := (preloadEssentialData env forceRefresh now st).1 in
  success run = true /\ errors run = [] /\ preloadedItems run = taskNames.
Proof.
  intros Hrun Hp Hr _ Hfits. cbv zeta.
  rewrite preloadEssentialData_run by done.
  destruct (updateLastSync_fits _ _ Hfits) as [s' Hs'].
  rewrite (runTasks_all_fulfilled env now st prefs recs Hp Hr).
  unfold join. by rewrite Hs'.
Qed.

Lemma categories_failure_swallowed_witness :
  let st : State := (mk ∅ None, ∅) in
  let run := (preloadEssentialData categories_down false 1000 st).1 in
  tasksRun categories_down false 1000 st = true
  /\ (forall c, c ∈ categories ->
        exists reason, category_query categories_down c = QueryFailed reason)
  /\ success run = true /\ errors run = [] /\ preloadedItems run = taskNames.
Proof.
  cbv zeta. split; [reflexivity|].
  assert (forall c, c ∈ categories ->
            exists reason, category_query categories_down c = QueryFailed reason)
    as Hdown by (intros c _; by eexists).
  split; [exact Hdown|].
  apply (categories_failure_swallowed categories_down false 1000 _
           (JObj []) fetched); [reflexivity..|exact Hdown|reflexivity].
Defined.

End PreloadFacts.

(** ** Offline recommendations *)

Module OfflineFacts.
Import Storage OfflineFallbackService CacheFacts JSFacts.

(** *** The claim in the words of the design *)

Record RecommendationItem := mkItem {
  item_id : string;
  item_name : string;
  item_category : string;
  item_description : string;
  item_location : string;
  item_cultural_insight : string;
  item_tags : list string;
  (* [image_url], [rating], [price_range], and the like, when present *)
  item_optional : list (string * json);
}.

Definition item_to_json (it : RecommendationItem) : json :=
  JObj ([("id", JStr (item_id it)); ("name", JStr (item_name it));
         ("category", JStr (item_category it));
         ("description", JStr (item_description it));
         ("location", JStr (item_location it));
         ("cultural_insight", JStr (item_cultural_insight it));
         ("tags", JArr (JStr <$> item_tags it))] ++ item_optional it).

(** Letter case aside: a capital letter is one of [A] to [Z], and its
    small letter is 32 places further on. *)
Definition capital (c : ascii) : Prop :=
  (nat_of_ascii "A" <= nat_of_ascii c <= nat_of_ascii "Z")%nat.

Definition same_letter (a b : ascii) : Prop :=
  a = b
  \/ (capital a /\ nat_of_ascii b = (nat_of_ascii a + 32)%nat)
  \/ (capital b /\ nat_of_ascii a = (nat_of_ascii b + 32)%nat).

Inductive same_text : string -> string -> Prop :=
| same_empty : same_text EmptyString EmptyString
| same_cons a b s t :
    same_letter a b -> same_text s t -> same_text (String a s) (String b t).

(** [text] contains [query] as a substring, letter case aside. *)
Definition contains_ci (text query : string) : Prop :=
  exists before middle rest,
    text = before +:+ middle +:+ rest /\ same_text middle query.




Definition matches_query (query : string) (it : RecommendationItem) : Prop :=
  contains_ci (item_name it) query
  \/ contains_ci (item_description it) query
  \/ Exists (fun tag => contains_ci tag query) (item_tags it).

Definition of_category (category : string) (it : RecommendationItem) : Prop :=
  item_category it = category.

#[local] Instance of_category_dec category it : Decision (of_category category it).
Proof. unfold of_category. apply _. Defined.

(** *** Letter case *)

Lemma nat_of_ascii_inj a b : nat_of_ascii a = nat_of_ascii b -> a = b.
Proof.
  intros H. rewrite <- (ascii_nat_embedding a), <- (ascii_nat_embedding b).
  by rewrite H.
Qed.

Lemma nat_of_lower_ascii c :
  nat_of_ascii (lower_ascii c)
  = if (65 <=? nat_of_ascii c)%nat && (nat_of_ascii c <=? 90)%nat
    then (nat_of_ascii c + 32)%nat else nat_of_ascii c.
Proof.
  unfold lower_ascii.
  destruct (Nat.leb_spec 65 (nat_of_ascii c)), (Nat.leb_spec (nat_of_ascii c) 90);
    cbn [andb]; try done.
  apply nat_ascii_embedding. lia.
Qed.

Lemma lower_ascii_same a b : lower_ascii a = lower_ascii b <-> same_letter a b.
Proof.
  unfold same_letter, capital.
  change (nat_of_ascii "A") with 65%nat. change (nat_of_ascii "Z") with 90%nat.
  split.
  - intros H. apply (f_equal nat_of_ascii) in H. rewrite !nat_of_lower_ascii in H.
    destruct (Nat.leb_spec 65 (nat_of_ascii a)), (Nat.leb_spec (nat_of_ascii a) 90),
      (Nat.leb_spec 65 (nat_of_ascii b)), (Nat.leb_spec (nat_of_ascii b) 90);
      cbn [andb] in H;
      first [left; apply nat_of_ascii_inj; lia | right; left; lia | right; right; lia].
  - intros H. apply nat_of_ascii_inj. rewrite !nat_of_lower_ascii.
    destruct H as [->|[[Ha Hb]|[Hb Ha]]]; [done|..];
    destruct (Nat.leb_spec 65 (nat_of_ascii a)), (Nat.leb_spec (nat_of_ascii a) 90),
      (Nat.leb_spec 65 (nat_of_ascii b)), (Nat.leb_spec (nat_of_ascii b) 90);
      cbn [andb]; lia.
Qed.

Lemma toLowerCase_same s t : toLowerCase s = toLowerCase t <-> same_text s t.
Proof.
  split.
  - revert t. induction s as [|a s IH]; intros [|b t]; cbn [toLowerCase]; try done.
    + intros _. constructor.
    + intros [= Hab Hst]. constructor; [by apply lower_ascii_same|by apply IH].
  - induction 1 as [|a b s t Hab _ IH]; [done|]. cbn [toLowerCase].
    f_equal; [by apply lower_ascii_same|done].
Qed.

Lemma toLowerCase_app s t :
  toLowerCase (s +:+ t) = toLowerCase s +:+ toLowerCase t.
Proof. induction s as [|c s IH]; [done|]. cbn [toLowerCase]. by rewrite !append_cons, <- IH. Qed.

Lemma toLowerCase_split text x y :
  toLowerCase text = x +:+ y ->
  exists a b, text = a +:+ b /\ toLowerCase a = x /\ toLowerCase b = y.
Proof.
  revert text. induction x as [|c x IH]; intros text H.
  - by exists EmptyString, text.
  - destruct text as [|d text]; [done|]. cbn [toLowerCase] in H.
    rewrite append_cons in H. injection H as Hc H.
    destruct (IH text H) as (a & b & -> & Ha & Hb).
    exists (String d a), b. split; [done|]. split; [|done].
    cbn [toLowerCase]. by rewrite Hc, Ha.
Qed.

(** The test of the code is the containment of the design. *)
Lemma includes_contains text query :
  includes (toLowerCase text) (toLowerCase query) = true <-> contains_ci text query.
Proof.
  rewrite includes_spec. unfold contains_ci. split.
  - intros (x & z & H).
    apply toLowerCase_split in H as (before & tail & -> & Hx & H).
    apply toLowerCase_split in H as (middle & rest & -> & Hm & Hz).
    exists before, middle, rest. split; [done|]. by apply toLowerCase_same.
  - intros (before & middle & rest & -> & H%toLowerCase_same).
    exists (toLowerCase before), (toLowerCase rest).
    by rewrite !toLowerCase_app, H.
Qed.

#[local] Instance contains_ci_dec text query : Decision (contains_ci text query).
Proof.
  destruct (includes (toLowerCase text) (toLowerCase query)) eqn:E.
  - left. by apply includes_contains.
  - right. intros H%includes_contains. congruence.
Defined.

#[local] Instance matches_query_dec query it : Decision (matches_query query it).
Proof. unfold matches_query. apply _. Defined.



(** The example of the design: two cached items, one per category. *)
Definition kachori : RecommendationItem :=
  mkItem "1" "Kachori" "street_food" "Crisp fried snack" "Varanasi"
    "Eaten at breakfast" ["snack"; "fried"] [("rating", JDec 45 1)].

Definition silk_house : RecommendationItem :=
  mkItem "2" "Silk House" "shops" "Banarasi silk sarees" "Varanasi"
    "Handloom weaving" ["silk"] [].

(** *** The code computes it *)










(** With nothing cached the answer is the empty list. *)
Lemma getOfflineRecommendations_empty now params s :
  (CacheService.getCachedRecommendations now s).1 = null ->
  (getOfflineRecommendations now params s).1 = Ok (JArr []).
Proof.
  intros Hread. unfold getOfflineRecommendations.
  destruct (CacheService.getCachedRecommendations now s) as [cached s1].
  cbn [fst] in *. subst cached. cbn [js_or truthy default from_option id].
  destruct (negb _), (query params) as [q|]; cbn; rewrite ?take_nil; try done;
    destruct (nonempty q); cbn; by rewrite take_nil.
Qed.





End OfflineFacts.

(** * Further properties of the code *)

(** ** Numbers in strings *)

Module NumberFacts.
Import JSFacts.

Lemma digits_prefix_uint d : forall acc,
  digits_prefix (NilEmpty.string_of_uint d) acc
  = match d with
    | Decimal.Nil => acc
    | _ => Some (uint_value d (default 0 acc))
    end.
Proof.
  induction d; intros acc; [done|..];
    cbn [NilEmpty.string_of_uint digits_prefix];
    match goal with
    | |- context [is_digit ?c] =>
        let v := eval vm_compute in (is_digit c) in
        change (is_digit c) with v
    end; cbv iota; rewrite IHd; eval_codes;
    destruct d; reflexivity.
Qed.

Lemma parseInt10_digits d :
  d ≠ Decimal.Nil ->
  parseInt10 (NilEmpty.string_of_uint d) = Some (uint_value d 0).
Proof.
  intros Hd. pose proof (digits_prefix_uint d None) as H.
  destruct d; [done|..]; cbn [NilEmpty.string_of_uint] in *;
    unfold parseInt10; cbn [skip_space];
    match goal with
    | |- context [is_space ?c] =>
        let v := eval vm_compute in (is_space c) in
        change (is_space c) with v
    end; cbv iota; eval_eqb; exact H.
Qed.

(** [parseInt] reads back what [toString] printed. *)
Lemma parseInt10_string_of_Z n : parseInt10 (string_of_Z n) = Some n.
Proof.
  unfold string_of_Z. destruct n as [|p|p]; cbn [Z.to_int NilZero.string_of_int].
  - reflexivity.
  - pose proof (Unsigned.to_uint_nonnil p) as Hp.
    rewrite string_of_uint_nonnil, parseInt10_digits by done.
    by rewrite uint_value_to_uint.
  - pose proof (Unsigned.to_uint_nonnil p) as Hp.
    rewrite string_of_uint_nonnil by done.
    unfold parseInt10. cbn [skip_space].
    change (is_space "-") with false. cbv iota. eval_eqb.
    rewrite digits_prefix_uint.
    destruct (Pos.to_uint p) eqn:E; [done|..]; rewrite <- E;
      cbn [default fmap option_fmap option_map]; by rewrite uint_value_to_uint.
Qed.

Lemma nonempty_string_of_Z n : nonempty (string_of_Z n) = true.
Proof. destruct (string_of_Z_head n) as (c & r & -> & _). reflexivity. Qed.

End NumberFacts.

(** ** cacheService: the store, the sweep and the quota handler *)

Module StoreFacts.
Import Storage CacheService JSFacts CacheFacts NumberFacts.

(** *** Folds of steps that each touch one key *)

Section pointwise.
Context {A : Type} (f : t -> A -> t) (key_of : A -> string).
Hypothesis frame : forall s a k, k ≠ key_of a -> getItem k (f s a) = getItem k s.

Lemma fold_left_frame l : forall s k,
  k ∉ key_of <$> l -> getItem k (fold_left f l s) = getItem k s.
Proof.
  induction l as [|a l IH]; intros s k Hk; [done|]. cbn [fold_left].
  rewrite fmap_cons, not_elem_of_cons in Hk. destruct Hk as [Hne Hk].
  rewrite IH by done. by apply frame.
Qed.

Hypothesis local : forall s1 s2 a,
  getItem (key_of a) s1 = getItem (key_of a) s2 ->
  getItem (key_of a) (f s1 a) = getItem (key_of a) (f s2 a).

Lemma fold_left_pointwise l : NoDup (key_of <$> l) -> forall s a,
  a ∈ l -> getItem (key_of a) (fold_left f l s) = getItem (key_of a) (f s a).
Proof.
  induction l as [|x l IH]; intros Hnd s a Ha; [by apply elem_of_nil in Ha|].
  rewrite fmap_cons in Hnd. apply NoDup_cons in Hnd as [Hx Hnd].
  cbn [fold_left]. apply elem_of_cons in Ha as [->|Ha].
  - by apply fold_left_frame.
  - rewrite IH by done. apply local. apply frame.
    intros Heq. apply Hx. rewrite <- Heq. by apply list_elem_of_fmap_2.
Qed.

Hypothesis shrink : forall s a k, getItem k (f s a) = None \/ getItem k (f s a) = getItem k s.

Lemma fold_left_shrink l : forall s k,
  getItem k (fold_left f l s) = None \/ getItem k (fold_left f l s) = getItem k s.
Proof.
  induction l as [|a l IH]; intros s k; [by right|]. cbn [fold_left].
  destruct (IH (f s a) k) as [H|H]; [by left|]. rewrite H. apply shrink.
Qed.

Hypothesis capacity_kept : forall s a, capacity (f s a) = capacity s.

Lemma fold_left_capacity l : forall s, capacity (fold_left f l s) = capacity s.
Proof.
  induction l as [|a l IH]; intros s; [done|]. cbn [fold_left].
  by rewrite IH.
Qed.
End pointwise.

Lemma removeItem_shrink k k' s :
  getItem k' (removeItem k s) = None \/ getItem k' (removeItem k s) = getItem k' s.
Proof.
  destruct (decide (k = k')) as [->|Hne].
  - left. apply getItem_removeItem.
  - right. by apply getItem_removeItem_ne.
Qed.

(** *** The last-sync marker *)

Lemma getLastSync_updateLastSync now s s' :
  updateLastSync now s = Ok s' -> getLastSync s' = Some (Some now).
Proof.
  unfold updateLastSync, setItem. destruct (fits _ _ _); [|done].
  intros [= <-]. unfold getLastSync. rewrite getItem_insert.
  by rewrite nonempty_string_of_Z, parseInt10_string_of_Z.
Qed.

Lemma updateLastSync_other now s s' k :
  updateLastSync now s = Ok s' -> k ≠ LAST_SYNC -> getItem k s' = getItem k s.
Proof.
  unfold updateLastSync, setItem. destruct (fits _ _ _); [|done].
  intros [= <-] Hk. destruct s. by rewrite getItem_insert_ne.
Qed.

(** X1. After [updateLastSync] at time [now], provided the store accepts
    the write, [getLastSync] returns [now] (the printed number is parsed
    back), no other key changes, and [needsRefresh(maxAge)] at a later
    time [now'] is [now' - now > maxAge]; the one exception is the clock
    value 0, which [needsRefresh] treats as never synced. *)
Theorem lastSync_roundtrip now s :
  fits LAST_SYNC (string_of_Z now) s = true ->
  exists s',
    updateLastSync now s = Ok s'
    /\ getLastSync s' = Some (Some now)
    /\ (forall k, k ≠ LAST_SYNC -> getItem k s' = getItem k s)
    /\ forall maxAge now',
         needsRefresh maxAge now' s' = (now =? 0) || (maxAge <? now' - now).
Proof.
  intros Hfits. pose proof (setItem_fits _ _ _ Hfits) as Hset.
  eexists. split; [exact Hset|].
  assert (Hget := getLastSync_updateLastSync now s _ Hset).
  split; [done|]. split.
  - intros k Hk. by apply (updateLastSync_other now s _ k Hset).
  - intros maxAge now'. unfold needsRefresh. rewrite Hget.
    by destruct (now =? 0).
Qed.

Lemma lastSync_roundtrip_witness :
  fits LAST_SYNC (string_of_Z 1700000000000) (mk ∅ None) = true
  /\ exists s',
       updateLastSync 1700000000000 (mk ∅ None) = Ok s'
       /\ getLastSync s' = Some (Some 1700000000000)
       /\ (forall k, k ≠ LAST_SYNC -> getItem k s' = getItem k (mk ∅ None))
       /\ forall maxAge now',
            needsRefresh maxAge now' s'
            = (1700000000000 =? 0) || (maxAge <? now' - 1700000000000).
Proof.
  split; [reflexivity|]. apply (lastSync_roundtrip 1700000000000 (mk ∅ None)).
  reflexivity.
Defined.

(** *** [clearAllCaches] *)

Lemma cache_keys :
  CACHE_KEYS.*2
  = [RECOMMENDATIONS; ESSENTIAL_DATA; TRANSLATIONS; USER_PREFERENCES; LAST_SYNC].
Proof. reflexivity. Qed.

Lemma getItem_clearAllCaches key s :
  getItem key (clearAllCaches s)
  = if decide (key ∈ CACHE_KEYS.*2) then None else getItem key s.
Proof.
  unfold clearAllCaches. generalize (CACHE_KEYS.*2). intros l. revert s.
  induction l as [|k l IH]; intros s; cbn [fold_left].
  - by rewrite decide_False by apply not_elem_of_nil.
  - rewrite IH. destruct (decide (key ∈ l)) as [Hin|Hnin].
    + by rewrite decide_True by (by right).
    + destruct (decide (k = key)) as [->|Hne].
      * rewrite decide_True by left. apply getItem_removeItem.
      * rewrite decide_False; [by apply getItem_removeItem_ne|].
        intros Hin. apply elem_of_cons in Hin as [Heq|Hin]; done.
Qed.

Lemma getCache_absent now key s : getItem key s = None -> getCache now key s = (null, s).
Proof. intros H. unfold getCache. by rewrite H. Qed.

(** X2. After [clearAllCaches] every cache key is absent, so every read
    of the cache service returns [null] and changes nothing, there is no
    last sync and [needsRefresh] is true for every age; keys that are not
    cache keys keep their values. *)
Theorem clearAllCaches_clears now s :
  let s' := clearAllCaches s in
  (forall key, key ∈ CACHE_KEYS.*2 ->
     getItem key s' = None /\ getCache now key s' = (null, s'))
  /\ (forall translationKey,
        getCachedTranslation now translationKey s' = (null, s'))
  /\ getLastSync s' = None
  /\ (forall maxAge, needsRefresh maxAge now s' = true)
  /\ (forall key, key ∉ CACHE_KEYS.*2 -> getItem key s' = getItem key s)
  /\ capacity s' = capacity s.
Proof.
  intros s'.
  assert (Hgone : forall key, key ∈ CACHE_KEYS.*2 -> getItem key s' = None).
  { intros key Hkey. unfold s'. rewrite getItem_clearAllCaches.
    by rewrite decide_True. }
  assert (Hsync : getLastSync s' = None).
  { unfold getLastSync. rewrite Hgone; [done|]. rewrite cache_keys.
    set_solver. }
  split; [|split; [|split; [|split; [|split]]]].
  - intros key Hkey. split; [by apply Hgone|by apply getCache_absent, Hgone].
  - intros translationKey. unfold getCachedTranslation, getCachedTranslations.
    rewrite getCache_absent; [done|]. apply Hgone. rewrite cache_keys. set_solver.
  - done.
  - intros maxAge. unfold needsRefresh. by rewrite Hsync.
  - intros key Hkey. unfold s'. rewrite getItem_clearAllCaches.
    by rewrite decide_False.
  - unfold s', clearAllCaches.
    by apply (fold_left_capacity (fun s key => removeItem key s)).
Qed.

(** *** [clearExpiredItems] *)

Lemma NoDup_cache_keys : NoDup CACHE_KEYS.*2.
Proof. apply (bool_decide_unpack _). vm_compute. reflexivity. Qed.

Lemma clearExpiredItem_shrink now k k' s :
  getItem k' (clearExpiredItem now k s) = None
  \/ getItem k' (clearExpiredItem now k s) = getItem k' s.
Proof.
  unfold clearExpiredItem.
  repeat case_match; try (by right); apply removeItem_shrink.
Qed.

Lemma clearExpiredItem_local now k s1 s2 :
  getItem k s1 = getItem k s2 ->
  getItem k (clearExpiredItem now k s1) = getItem k (clearExpiredItem now k s2).
Proof.
  intros H. unfold clearExpiredItem. rewrite H.
  repeat case_match; rewrite ?getItem_removeItem; congruence.
Qed.

Lemma clearExpiredItem_capacity now k s :
  capacity (clearExpiredItem now k s) = capacity s.
Proof. unfold clearExpiredItem. by repeat case_match. Qed.

Lemma getItem_clearExpiredItems now key s :
  getItem key (clearExpiredItems now s)
  = if decide (key ∈ CACHE_KEYS.*2) then getItem key (clearExpiredItem now key s)
    else getItem key s.
Proof.
  unfold clearExpiredItems. case_decide as Hkey.
  - apply (fold_left_pointwise (fun s key => clearExpiredItem now key s) id).
    + intros s0 a k Hk. by apply clearExpiredItem_other.
    + intros s1 s2 a. apply clearExpiredItem_local.
    + rewrite list_fmap_id. apply NoDup_cache_keys.
    + done.
  - apply (fold_left_frame (fun s key => clearExpiredItem now key s) id).
    + intros s0 a k Hk. by apply clearExpiredItem_other.
    + by rewrite list_fmap_id.
Qed.

Lemma clearExpiredItem_envelope now key s data ts exp :
  wf data = true ->
  getItem key s = Some (JSON_stringify (CacheItem data ts exp)) ->
  clearExpiredItem now key s = if exp <? now then removeItem key s else s.
Proof.
  intros Hwf Hget. unfold clearExpiredItem. rewrite Hget.
  rewrite nonempty_CacheItem, JSON_parse_stringify by by apply wf_CacheItem.
  by rewrite <- (js_gt_num now exp).
Qed.

Lemma JSON_stringify_number n : JSON_stringify (JNum n) = string_of_Z n.
Proof.
  unfold JSON_stringify. cbn [stringify_to].
  generalize (string_of_Z n). intros x. induction x as [|c x IH]; [done|].
  by rewrite append_cons, IH.
Qed.

Lemma JSON_parse_number n : JSON_parse (string_of_Z n) = Some (JNum n).
Proof. by rewrite <- JSON_stringify_number, JSON_parse_stringify. Qed.

Lemma clearExpiredItems_envelope now s key data ts exp :
  key ∈ CACHE_KEYS.*2 -> wf data = true ->
  getItem key s = Some (JSON_stringify (CacheItem data ts exp)) ->
  getItem key (clearExpiredItems now s) = if exp <? now then None else getItem key s.
Proof.
  intros Hkey Hwf Hget.
  rewrite getItem_clearExpiredItems, decide_True by done.
  rewrite (clearExpiredItem_envelope now key s data ts exp) by done.
  destruct (exp <? now); [apply getItem_removeItem|done].
Qed.

Lemma clearExpiredItems_other now s key :
  key ∉ CACHE_KEYS.*2 -> getItem key (clearExpiredItems now s) = getItem key s.
Proof. intros Hkey. by rewrite getItem_clearExpiredItems, decide_False. Qed.

Lemma clearExpiredItems_shrink now s key :
  getItem key (clearExpiredItems now s) = None
  \/ getItem key (clearExpiredItems now s) = getItem key s.
Proof.
  apply (fold_left_shrink (fun s key => clearExpiredItem now key s)).
  intros s0 a k. apply clearExpiredItem_shrink.
Qed.

Lemma clearExpiredItems_capacity now s :
  capacity (clearExpiredItems now s) = capacity s.
Proof.
  apply (fold_left_capacity (fun s key => clearExpiredItem now key s)).
  intros s0 a. apply clearExpiredItem_capacity.
Qed.

(** X3. The sweep [clearExpiredItems] at time [now] removes, among the
    five cache keys, an envelope whose expiration is before [now] and a
    text that does not parse; it keeps an envelope whose expiration is
    not before [now] and the bare number that [updateLastSync] writes;
    it touches no other key, and it never changes a value. *)
Theorem clearExpiredItems_effect now s :
  let s' := clearExpiredItems now s in
  (forall key data ts exp,
     key ∈ CACHE_KEYS.*2 -> wf data = true ->
     getItem key s = Some (JSON_stringify (CacheItem data ts exp)) ->
     getItem key s' = if exp <? now then None else getItem key s)
  /\ (forall key cached,
        key ∈ CACHE_KEYS.*2 -> getItem key s = Some cached ->
        cached ≠ EmptyString -> JSON_parse cached = None ->
        getItem key s' = None)
  /\ (forall n, getItem LAST_SYNC s = Some (string_of_Z n) ->
        getItem LAST_SYNC s' = Some (string_of_Z n))
  /\ (forall key, key ∉ CACHE_KEYS.*2 -> getItem key s' = getItem key s)
  /\ (forall key, getItem key s' = None \/ getItem key s' = getItem key s)
  /\ capacity s' = capacity s.
Proof.
  intros s'. unfold s'. split; [|split; [|split; [|split; [|split]]]].
  - intros key data ts exp. apply clearExpiredItems_envelope.
  - intros key cached Hkey Hget Hne Hparse.
    rewrite getItem_clearExpiredItems, decide_True by done.
    unfold clearExpiredItem. rewrite Hget, Hparse.
    destruct cached; [done|]. apply getItem_removeItem.
  - intros n Hget. rewrite getItem_clearExpiredItems, decide_True.
    + unfold clearExpiredItem.
      by rewrite Hget, nonempty_string_of_Z, JSON_parse_number.
    + apply (bool_decide_unpack _). by vm_compute.
  - intros key. apply clearExpiredItems_other.
  - intros key. apply clearExpiredItems_shrink.
  - apply clearExpiredItems_capacity.
Qed.

(** *** The quota handler *)

Lemma with_timestamps_fst l : forall stamped,
  with_timestamps l = Ok stamped -> stamped.*1 = l.
Proof.
  induction l as [|c l IH]; intros stamped; cbn [with_timestamps].
  - by intros [= <-].
  - destruct (timestamp_of (snd c)) as [ts|]; [|done]. cbn.
    destruct (with_timestamps l) as [rest|]; [|done]. cbn.
    intros [= <-]. cbn. f_equal. by apply IH.
Qed.

(** What the handler does after the sweep: entries are removed, the user
    preferences never. *)
Definition dropOldest (oldest : list (string * string * string * value)) (s : t)
  : t :=
  fold_left
    (fun s c =>
       let key := snd (fst (fst c)) in
       if String.eqb key USER_PREFERENCES then s else removeItem key s)
    oldest s.

Lemma handleStorageQuotaExceeded_shape now s :
  exists oldest,
    handleStorageQuotaExceeded now s = Ok (dropOldest oldest (clearExpiredItems now s))
    /\ forall c, c ∈ oldest -> snd (fst (fst c)) ∈ CACHE_KEYS.*2.
Proof.
  destruct (handleStorageQuotaExceeded_total now s) as [s' Hs'].
  revert Hs'. unfold handleStorageQuotaExceeded.
  set (s1 := clearExpiredItems now s).
  set (cacheInfo := omap _ CACHE_KEYS).
  destruct (with_timestamps cacheInfo) as [stamped|] eqn:Hst; [|done].
  cbn. intros _. eexists. split; [reflexivity|].
  intros c Hc. apply elem_of_take in Hc as (i & Hc & _).
  apply list_elem_of_lookup_2, ManagerFacts.elem_of_js_sort in Hc.
  apply with_timestamps_fst in Hst.
  assert (fst c ∈ cacheInfo) as Hin.
  { rewrite <- Hst. by apply list_elem_of_fmap_2. }
  apply list_elem_of_omap in Hin as ([name key] & Hin & Hsome).
  destruct (getItem key s1) as [item|]; [|done].
  destruct (nonempty item); [|done].
  injection Hsome as <-. change (snd (name, key) ∈ CACHE_KEYS.*2).
  by apply list_elem_of_fmap_2.
Qed.

Lemma dropOldest_step_frame s (c : string * string * string * value) k :
  k ≠ snd (fst (fst c)) ->
  getItem k (if String.eqb (snd (fst (fst c))) USER_PREFERENCES then s
             else removeItem (snd (fst (fst c))) s)
  = getItem k s.
Proof.
  intros Hk. destruct (String.eqb _ _); [done|]. by apply getItem_removeItem_ne.
Qed.

Lemma dropOldest_preferences oldest s :
  getItem USER_PREFERENCES (dropOldest oldest s) = getItem USER_PREFERENCES s.
Proof.
  unfold dropOldest. apply ManagerFacts.fold_left_getItem.
  intros s0 c _. destruct (String.eqb _ _) eqn:E; [done|].
  apply getItem_removeItem_ne. intros Heq. rewrite Heq in E.
  by rewrite String.eqb_refl in E.
Qed.

Lemma dropOldest_shrink oldest s k :
  getItem k (dropOldest oldest s) = None
  \/ getItem k (dropOldest oldest s) = getItem k s.
Proof.
  unfold dropOldest. apply fold_left_shrink.
  intros s0 c k0. destruct (String.eqb _ _); [by right|]. apply removeItem_shrink.
Qed.

Lemma dropOldest_capacity oldest s : capacity (dropOldest oldest s) = capacity s.
Proof.
  unfold dropOldest. apply fold_left_capacity.
  intros s0 c. by destruct (String.eqb _ _).
Qed.

Lemma dropOldest_frame oldest s k :
  (forall c, c ∈ oldest -> snd (fst (fst c)) ≠ k) ->
  getItem k (dropOldest oldest s) = getItem k s.
Proof.
  intros H. unfold dropOldest. apply ManagerFacts.fold_left_getItem.
  intros s0 c Hc. apply dropOldest_step_frame. intros Heq. by apply (H c).
Qed.

Lemma handleStorageQuotaExceeded_shrink now s s' key :
  handleStorageQuotaExceeded now s = Ok s' ->
  getItem key s' = None \/ getItem key s' = getItem key s.
Proof.
  destruct (handleStorageQuotaExceeded_shape now s) as (oldest & -> & _).
  intros [= <-].
  destruct (dropOldest_shrink oldest (clearExpiredItems now s) key) as [H|H];
    [by left|]. rewrite H. apply clearExpiredItems_shrink.
Qed.

Lemma handleStorageQuotaExceeded_other now s s' key :
  handleStorageQuotaExceeded now s = Ok s' ->
  key ∉ CACHE_KEYS.*2 -> getItem key s' = getItem key s.
Proof.
  destruct (handleStorageQuotaExceeded_shape now s) as (oldest & -> & Hkeys).
  intros [= <-] Hkey. rewrite dropOldest_frame; [by apply clearExpiredItems_other|].
  intros c Hc Heq. apply Hkey. rewrite <- Heq. by apply Hkeys.
Qed.

Lemma handleStorageQuotaExceeded_capacity now s s' :
  handleStorageQuotaExceeded now s = Ok s' -> capacity s' = capacity s.
Proof.
  destruct (handleStorageQuotaExceeded_shape now s) as (oldest & -> & _).
  intros [= <-]. by rewrite dropOldest_capacity, clearExpiredItems_capacity.
Qed.

(** X4. On a store whose cached entries have timestamps that coerce
    to a number (subtracting an object with an own [toString] property
    throws), [handleStorageQuotaExceeded] returns.  Whenever it returns
    it has only removed entries: every key holds what it held or
    nothing, keys other than the five cache keys are untouched, and user
    preferences that have not expired are kept. *)
Theorem handleStorageQuotaExceeded_safe now s :
  ((forall key item parsed ts,
      key ∈ CACHE_KEYS.*2 -> getItem key s = Some item ->
      JSON_parse item = Some parsed ->
      get_prop parsed "timestamp" = Ok (Some ts) -> coercible ts = true) ->
   exists s', handleStorageQuotaExceeded now s = Ok s')
  /\ forall s', handleStorageQuotaExceeded now s = Ok s' ->
       (forall key, getItem key s' = None \/ getItem key s' = getItem key s)
       /\ (forall key, key ∉ CACHE_KEYS.*2 -> getItem key s' = getItem key s)
       /\ (forall prefs ts exp,
             wf prefs = true -> now <= exp ->
             getItem USER_PREFERENCES s
             = Some (JSON_stringify (CacheItem prefs ts exp)) ->
             getItem USER_PREFERENCES s' = getItem USER_PREFERENCES s)
       /\ capacity s' = capacity s.
Proof.
  split; [intros _; apply handleStorageQuotaExceeded_total|].
  intros s' Hs'. split; [|split; [|split]].
  - intros key. by apply (handleStorageQuotaExceeded_shrink now s).
  - intros key. by apply (handleStorageQuotaExceeded_other now s).
  - intros prefs ts exp Hwf Hexp Hget.
    destruct (handleStorageQuotaExceeded_shape now s) as (oldest & Hshape & _).
    rewrite Hshape in Hs'. injection Hs' as <-.
    rewrite dropOldest_preferences.
    rewrite (clearExpiredItems_envelope now s USER_PREFERENCES prefs ts exp);
      [|apply (bool_decide_unpack _); by vm_compute|done..].
    by rewrite (proj2 (Z.ltb_ge exp now)).
  - by apply (handleStorageQuotaExceeded_capacity now s).
Qed.

(** *** [setCache] *)

Lemma setCache_refused now key data expiration s :
  fits key (JSON_stringify (CacheItem data now (now + expiration))) s = false ->
  handleStorageQuotaExceeded now s = Ok (setCache now key data expiration s).
Proof.
  intros Hfits. unfold setCache. rewrite setItem_full by done.
  by destruct (handleStorageQuotaExceeded_total now s) as [s' ->].
Qed.

(** X5. [setCache] stores the envelope under its key and changes no other
    key when the store accepts the write.  When the store refuses it,
    nothing new is stored: every key holds what it held or nothing.  In
    both cases a key that is neither the written key nor a cache key
    keeps its value. *)
Theorem setCache_effect now key data expiration s :
  let s' := setCache now key data expiration s in
  let text := JSON_stringify (CacheItem data now (now + expiration)) in
  (fits key text s = true ->
   getItem key s' = Some text /\ forall k, k ≠ key -> getItem k s' = getItem k s)
  /\ (fits key text s = false ->
      forall k, getItem k s' = None \/ getItem k s' = getItem k s)
  /\ (forall k, k ≠ key -> k ∉ CACHE_KEYS.*2 -> getItem k s' = getItem k s)
  /\ capacity s' = capacity s.
Proof.
  intros s' text. destruct (fits key text s) eqn:Hfits.
  - assert (s' = mk (<[key:=text]> (items s)) (capacity s)) as ->
      by (by apply setCache_accepted).
    split; [|split; [done|split; [|done]]].
    + intros _. split; [apply getItem_insert|].
      intros k Hk. destruct s. by apply getItem_insert_ne.
    + intros k Hk _. destruct s. by apply getItem_insert_ne.
  - pose proof (setCache_refused now key data expiration s Hfits) as Hs'.
    fold s' in Hs'. split; [done|]. split; [|split].
    + intros _ k. by apply (handleStorageQuotaExceeded_shrink now s).
    + intros k _ Hk. by apply (handleStorageQuotaExceeded_other now s).
    + by apply (handleStorageQuotaExceeded_capacity now s).
Qed.

(** C7, amended.  For every value [v], key, time-to-live [t > 0] and
    store that accepts the write, [setCache] followed at once by
    [getCache] returns [v].  ([wf v]: [v] is a value as the platform
    holds it; no object in it repeats a key, and a fraction is in lowest
    terms.) *)
Theorem put_get_roundtrip now key v t s :
  wf v = true -> 0 < t ->
  fits key (JSON_stringify (CacheItem v now (now + t))) s = true ->
  (getCache now key (setCache now key v t s)).1 = Some v.
Proof.
  intros Hwf Ht Hfits. rewrite setCache_accepted by done.
  erewrite getCache_envelope; [|done|apply getItem_insert].
  by rewrite (proj2 (Z.ltb_ge _ _)) by lia.
Qed.

Lemma put_get_roundtrip_witness :
  let v :=
    JArr [JObj [("name", JStr "Kachori"); ("rating", JDec 45 1);
                ("tags", JArr [JStr "snack"]); ("open", JBool true);
                ("image_url", JNull)]] in
  let s := mk ∅ (Some 200%nat) in
  wf v = true /\ 0 < EXPIRATION_RECOMMENDATIONS
  /\ fits RECOMMENDATIONS
       (JSON_stringify (CacheItem v 1000 (1000 + EXPIRATION_RECOMMENDATIONS))) s
     = true
  /\ (getCache 1000 RECOMMENDATIONS
        (setCache 1000 RECOMMENDATIONS v EXPIRATION_RECOMMENDATIONS s)).1
     = Some v.
Proof.
  cbv zeta.
  assert (0 < EXPIRATION_RECOMMENDATIONS) as Ht by reflexivity.
  split; [reflexivity|]. split; [exact Ht|]. split; [vm_compute; reflexivity|].
  apply put_get_roundtrip; [reflexivity|exact Ht|vm_compute; reflexivity].
Defined.

(** *** [getCache] *)

Lemma js_gt_later now now' (v : value) :
  now <= now' -> js_gt (Some (JNum now)) v = true ->
  js_gt (Some (JNum now')) v = true.
Proof.
  intros Hle. unfold js_gt, js_lt.
  destruct v as [j|]; [|done]. cbn [fmap option_fmap option_map].
  assert (forall n, to_primitive (JNum n) = JNum n) as Hp by done.
  rewrite !Hp.
  assert (forall n, to_number (Some (JNum n)) = Some (inject_Z n)) as Hn by done.
  rewrite !Hn.
  destruct (to_primitive j); destruct (to_number (Some j)); try done;
    rewrite !Qlt_bool_iff; intros H; (eapply Qlt_le_trans; [exact H|]);
    by rewrite <- Zle_Qle.
Qed.

Lemma getCache_null_later now now' key s :
  now <= now' -> (getCache now key s).1 = null -> (getCache now' key s).1 = null.
Proof.
  intros Hle. unfold getCache.
  destruct (getItem key s) as [cached|]; [|done].
  destruct (nonempty cached); [|done].
  destruct (JSON_parse cached) as [cacheItem|]; [|done].
  destruct (get_prop cacheItem "expiration") as [e|]; [|done].
  destruct (js_gt (Some (JNum now)) e) eqn:Hgt.
  - by rewrite (js_gt_later now now' e).
  - destruct (get_prop cacheItem "data"), (js_gt (Some (JNum now')) e); by cbn.
Qed.

Lemma getCache_state now key s :
  (getCache now key s).2 = s \/ (getCache now key s).2 = removeItem key s.
Proof. unfold getCache. repeat case_match; cbn [snd]; auto. Qed.

Lemma getCache_capacity now key s : capacity (getCache now key s).2 = capacity s.
Proof. by destruct (getCache_state now key s) as [-> | ->]. Qed.

(** X6. A read changes no other key; a read that returns data changes
    nothing; a second read at the same time returns the same and changes
    nothing more; and a key that reads as [null] reads as [null] at every
    later time: an entry that has expired does not come back. *)
Theorem getCache_effect now key s :
  let r := getCache now key s in
  (forall k, k ≠ key -> getItem k r.2 = getItem k s)
  /\ (r.1 ≠ null -> r.2 = s)
  /\ getCache now key r.2 = r
  /\ (forall now', now <= now' ->
        r.1 = null ->
        (getCache now' key s).1 = null /\ (getCache now' key r.2).1 = null)
  /\ capacity r.2 = capacity s.
Proof.
  intros r. split; [|split; [|split; [|split]]].
  - intros k Hk. unfold r.
    destruct (getCache_state now key s) as [->| ->]; [done|].
    by apply getItem_removeItem_ne.
  - apply getCache_unchanged.
  - unfold r. rewrite getCache_again. by destruct (getCache now key s).
  - intros now' Hle Hnull. split; [by apply (getCache_null_later now)|].
    unfold r. destruct (getCache_state now key s) as [->| ->].
    + by apply (getCache_null_later now).
    + by rewrite getCache_absent by apply getItem_removeItem.
  - unfold r. by destruct (getCache_state now key s) as [->| ->].
Qed.

(** *** Translations *)

(** The mapping [cacheTranslation] extends: the cached object, or the
    empty object when nothing truthy is cached. *)
Definition mapping (cached : value) : option (list (string * json)) :=
  if truthy cached then
    match cached with
    | Some (JObj m) => Some m
    | _ => None
    end
  else Some [].

Lemma mapping_wf now key s m :
  mapping (getCache now key s).1 = Some m -> wf (JObj m) = true.
Proof.
  unfold mapping. destruct (truthy _); [|by intros [= <-]].
  destruct (getCache now key s).1 as [[]|] eqn:E; try done.
  intros [= <-]. by apply (getCache_wf now key s).
Qed.

Lemma mapping_or cached m :
  mapping cached = Some m ->
  match js_or cached (Some (JObj [])) with
  | Some v => v
  | None => JObj []
  end = JObj m.
Proof.
  unfold mapping, js_or. destruct (truthy cached); [|by intros [= <-]].
  by destruct cached as [[]|]; intros [= <-].
Qed.

Lemma cacheTranslation_written now key translation s m :
  mapping (getCachedTranslations now s).1 = Some m ->
  fits TRANSLATIONS
    (translations_envelope (obj_set key (JStr translation) m) now)
    (getCachedTranslations now s).2 = true ->
  cacheTranslation now key translation s
  = Ok (mk (<[TRANSLATIONS:=
              translations_envelope (obj_set key (JStr translation) m) now]>
              (items (getCachedTranslations now s).2))
           (capacity (getCachedTranslations now s).2)).
Proof.
  intros Hm Hfits. unfold cacheTranslation.
  destruct (getCachedTranslations now s) as [cached s1]. cbn [fst snd] in *.
  rewrite (mapping_or cached m Hm). cbn [set_elem mbind res_bind].
  by rewrite setCache_accepted.
Qed.

Lemma getCachedTranslation_envelope now' now key s m :
  wf (JObj m) = true -> now' <= now + EXPIRATION_TRANSLATIONS ->
  getItem TRANSLATIONS s = Some (translations_envelope m now) ->
  getCachedTranslation now' key s = (js_or (obj_get key m) null, s).
Proof.
  intros Hwf Hle Hget. unfold getCachedTranslation, getCachedTranslations.
  unfold translations_envelope in Hget.
  rewrite (getCache_envelope now' TRANSLATIONS s (JObj m) now
             (now + EXPIRATION_TRANSLATIONS)) by done.
  by rewrite (proj2 (Z.ltb_ge _ _)) by lia.
Qed.

(** X7. A translation written by [cacheTranslation] is read back by
    [getCachedTranslation] under the same key until the envelope
    expires, provided the store accepts the write; an empty translation
    reads back as [null], as if it had not been cached. *)
Theorem cacheTranslation_roundtrip now key translation s m :
  mapping (getCachedTranslations now s).1 = Some m ->
  fits TRANSLATIONS
    (translations_envelope (obj_set key (JStr translation) m) now)
    (getCachedTranslations now s).2 = true ->
  exists s',
    cacheTranslation now key translation s = Ok s'
    /\ forall now', now' <= now + EXPIRATION_TRANSLATIONS ->
         getCachedTranslation now' key s'
         = (if nonempty translation then Some (JStr translation) else null, s').
Proof.
  intros Hm Hfits. eexists. split; [by apply cacheTranslation_written|].
  intros now' Hle.
  rewrite (getCachedTranslation_envelope now' now key _
             (obj_set key (JStr translation) m)).
  - rewrite obj_get_set. unfold js_or, nonempty. cbn [truthy].
    by destruct (negb _).
  - apply wf_obj_set; [|done]. by apply (mapping_wf now TRANSLATIONS s).
  - done.
  - apply getItem_insert.
Qed.

Lemma cacheTranslation_roundtrip_witness :
  let s := mk ∅ None in
  mapping (getCachedTranslations 1000 s).1 = Some []
  /\ exists s',
       cacheTranslation 1000 "auto-hi-hello" "namaste" s = Ok s'
       /\ forall now', now' <= 1000 + EXPIRATION_TRANSLATIONS ->
            getCachedTranslation now' "auto-hi-hello" s'
            = (if nonempty "namaste" then Some (JStr "namaste") else null, s').
Proof.
  split; [reflexivity|].
  apply (cacheTranslation_roundtrip 1000 "auto-hi-hello" "namaste" (mk ∅ None) []);
    reflexivity.
Defined.

(** *** [preloadEssentialData] of the cache service *)

Lemma fits_unbounded k v s : capacity s = None -> fits k v s = true.
Proof. intros H. unfold fits. by rewrite H. Qed.

Lemma preloadEssentialData_fresh now s :
  capacity s = None -> now ≠ 0 ->
  truthy (getCachedEssentialData now (preloadEssentialData now s)).1 = true
  /\ needsRefresh EXPIRATION_ESSENTIAL_DATA now (preloadEssentialData now s) = false
  /\ capacity (preloadEssentialData now s) = None.
Proof.
  intros Hcap Hnow. unfold preloadEssentialData.
  pose proof (getCache_capacity now ESSENTIAL_DATA s) as Hc1.
  pose proof (getCache_again now ESSENTIAL_DATA s) as Ha.
  unfold getCachedEssentialData in *.
  destruct (getCache now ESSENTIAL_DATA s) as [cachedData s1].
  cbn [fst snd] in *. rewrite Hcap in Hc1.
  destruct (truthy cachedData && negb (needsRefresh _ now s1)) eqn:Hc.
  - apply andb_true_iff in Hc as [Ht Hn]. apply negb_true_iff in Hn.
    by rewrite Ha.
  - unfold cacheEssentialData.
    rewrite setCache_accepted by by apply fits_unbounded.
    set (s2 := mk _ _).
    pose proof (setItem_fits LAST_SYNC (string_of_Z now) s2
                  (fits_unbounded _ _ s2 Hc1)) as Hset.
    fold (updateLastSync now s2) in Hset. rewrite Hset.
    pose proof (getLastSync_updateLastSync now s2 _ Hset) as Hsync.
    pose proof (fun k => updateLastSync_other now s2 _ k Hset) as Hother.
    set (s3 := mk (<[LAST_SYNC:=string_of_Z now]> (items s2)) (capacity s2)) in *.
    split; [|split; [|done]].
    + rewrite (getCache_envelope now ESSENTIAL_DATA s3 defaultEssentialData now
                 (now + EXPIRATION_ESSENTIAL_DATA)); [|done|].
      * by rewrite (proj2 (Z.ltb_ge _ _)) by (unfold EXPIRATION_ESSENTIAL_DATA; lia).
      * rewrite Hother by done. apply getItem_insert.
    + unfold needsRefresh. rewrite Hsync.
      rewrite (proj2 (Z.eqb_neq _ _)) by done.
      apply Z.ltb_ge. unfold EXPIRATION_ESSENTIAL_DATA. lia.
Qed.

(** X8. After [preloadEssentialData] on a store without a size limit,
    at a clock value other than 0, the essential data is cached and
    fresh: [getCachedEssentialData] returns a truthy value,
    [needsRefresh] with the seven-day age is false, and a second call
    changes nothing. *)
Theorem preloadEssentialData_available now s :
  capacity s = None -> now ≠ 0 ->
  let s' := preloadEssentialData now s in
  truthy (getCachedEssentialData now s').1 = true
  /\ (getCachedEssentialData now s').2 = s'
  /\ needsRefresh EXPIRATION_ESSENTIAL_DATA now s' = false
  /\ preloadEssentialData now s' = s'.
Proof.
  intros Hcap Hnow s'.
  destruct (preloadEssentialData_fresh now s Hcap Hnow) as (Ht & Hn & _).
  fold s' in Ht, Hn.
  assert ((getCachedEssentialData now s').2 = s') as Hs.
  { apply getCache_unchanged. intros H. unfold getCachedEssentialData in Ht.
    by rewrite H in Ht. }
  split; [done|]. split; [done|]. split; [done|].
  unfold preloadEssentialData at 1.
  destruct (getCachedEssentialData now s') as [cachedData s1]. cbn in *.
  subst s1. by rewrite Ht, Hn.
Qed.

Lemma preloadEssentialData_available_witness :
  let s := mk ∅ None in
  let s' := preloadEssentialData 1700000000000 s in
  capacity s = None /\ 1700000000000 ≠ 0
  /\ truthy (getCachedEssentialData 1700000000000 s').1 = true
  /\ (getCachedEssentialData 1700000000000 s').2 = s'
  /\ needsRefresh EXPIRATION_ESSENTIAL_DATA 1700000000000 s' = false
  /\ preloadEssentialData 1700000000000 s' = s'.
Proof.
  split; [reflexivity|]. split; [done|].
  apply (preloadEssentialData_available 1700000000000 (mk ∅ None)); done.
Defined.

End StoreFacts.

(** ** cacheManager: the cleanup phases and the life cycle *)

Module SweepFacts.
Import Storage CacheManager JSFacts CacheFacts ManagerFacts StoreFacts.

Lemma NoDup_keys s : NoDup (keys s).
Proof. apply NoDup_fst_map_to_list. Qed.

Lemma getItem_absent key s : key ∉ keys s -> getItem key s = None.
Proof.
  intros H. destruct (getItem key s) eqn:E; [|done].
  exfalso. apply H, elem_of_keys. by rewrite E.
Qed.

(** *** Emergency cleanup *)

Definition dropped (key : string) : bool :=
  startsWith key PREFIX && negb (isEssentialKey key).

Lemma performEmergencyCleanup_pointwise s key :
  getItem key (performEmergencyCleanup s)
  = if startsWith key PREFIX && negb (isEssentialKey key) then None
    else getItem key s.
Proof.
  pose (f := fun (s : t) key => if dropped key then removeItem key s else s).
  change (performEmergencyCleanup s) with (fold_left f (keys s) s).
  assert (forall s0 a k, k ≠ a -> getItem k (f s0 a) = getItem k s0) as Hframe.
  { intros s0 a k Hk. unfold f. destruct (dropped a); [|done].
    by apply getItem_removeItem_ne. }
  assert (forall s1 s2 a, getItem (id a) s1 = getItem (id a) s2 ->
            getItem (id a) (f s1 a) = getItem (id a) (f s2 a)) as Hlocal.
  { intros s1 s2 a Heq. unfold f, id in *.
    destruct (dropped a); [by rewrite !getItem_removeItem|done]. }
  fold (dropped key).
  destruct (decide (key ∈ keys s)) as [Hin|Hnin].
  - pose proof (fold_left_pointwise f id Hframe Hlocal (keys s)) as Hp.
    rewrite list_fmap_id in Hp. specialize (Hp (NoDup_keys s) s key Hin).
    unfold id in Hp. rewrite Hp. unfold f.
    destruct (dropped key); [apply getItem_removeItem|done].
  - pose proof (fold_left_frame f id Hframe (keys s) s key) as Hp.
    rewrite list_fmap_id in Hp. rewrite (Hp Hnin).
    rewrite getItem_absent by done. by destruct (dropped key).
Qed.

(** X9. The emergency cleanup removes every entry whose key has the
    prefix and is not essential, and leaves every other entry as it is:
    cached recommendations and translations go, essential data, the
    last-sync marker and the user preferences stay. *)
Theorem performEmergencyCleanup_effect s :
  let s' := performEmergencyCleanup s in
  (forall key,
     getItem key s'
     = if startsWith key PREFIX && negb (isEssentialKey key) then None
       else getItem key s)
  /\ getItem CacheService.RECOMMENDATIONS s' = None
  /\ getItem CacheService.TRANSLATIONS s' = None
  /\ getItem CacheService.ESSENTIAL_DATA s' = getItem CacheService.ESSENTIAL_DATA s
  /\ getItem CacheService.LAST_SYNC s' = getItem CacheService.LAST_SYNC s
  /\ getItem CacheService.USER_PREFERENCES s'
     = getItem CacheService.USER_PREFERENCES s
  /\ capacity s' = capacity s.
Proof.
  intros s'.
  assert (forall key,
            getItem key s' = if dropped key then None else getItem key s) as H
    by apply performEmergencyCleanup_pointwise.
  split; [exact H|].
  split; [by rewrite H|]. split; [by rewrite H|]. split; [by rewrite H|].
  split; [by rewrite H|]. split; [by rewrite H|].
  unfold s', performEmergencyCleanup. apply fold_left_capacity.
  intros s0 a. by destruct (_ && _).
Qed.

(** *** Cleanup only removes *)

Lemma cleanExpiredItem_frame now p s key k :
  k ≠ key -> getItem k (cleanExpiredItem now p s key) = getItem k s.
Proof.
  intros Hk. unfold cleanExpiredItem.
  repeat case_match; try done; by apply getItem_removeItem_ne.
Qed.

Lemma cleanExpiredItem_shrink now p s key k :
  getItem k (cleanExpiredItem now p s key) = None
  \/ getItem k (cleanExpiredItem now p s key) = getItem k s.
Proof.
  unfold cleanExpiredItem.
  repeat case_match; try (by right); apply removeItem_shrink.
Qed.

Lemma cleanExpiredItems_shrink now p s k :
  getItem k (cleanExpiredItems now p s) = None
  \/ getItem k (cleanExpiredItems now p s) = getItem k s.
Proof.
  unfold cleanExpiredItems. apply fold_left_shrink.
  intros s0 a k0. apply cleanExpiredItem_shrink.
Qed.

Lemma cleanByAge_shrink now maxAge p s k :
  getItem k (cleanByAge now maxAge p s) = None
  \/ getItem k (cleanByAge now maxAge p s) = getItem k s.
Proof.
  unfold cleanByAge. apply fold_left_shrink.
  intros s0 a k0. destruct (js_lt _ _); [apply removeItem_shrink|by right].
Qed.

Lemma removeUntil_shrink maxSize k (l : list Entry) : forall size s,
  getItem k (removeUntil maxSize size l s) = None
  \/ getItem k (removeUntil maxSize size l s) = getItem k s.
Proof.
  induction l as [|e l IH]; intros size s; cbn [removeUntil]; [by right|].
  destruct (size <=? maxSize); [by right|].
  destruct (IH (size - Z.of_nat (entry_size e)) (removeItem (entry_key e) s))
    as [H|H]; [by left|].
  rewrite H. apply removeItem_shrink.
Qed.

Lemma cleanBySize_shrink maxSize p s k :
  getItem k (cleanBySize maxSize p s) = None
  \/ getItem k (cleanBySize maxSize p s) = getItem k s.
Proof. unfold cleanBySize. apply removeUntil_shrink. Qed.

Lemma shrink_trans (s1 s2 s3 : t) :
  (forall k, getItem k s2 = None \/ getItem k s2 = getItem k s1) ->
  (forall k, getItem k s3 = None \/ getItem k s3 = getItem k s2) ->
  forall k, getItem k s3 = None \/ getItem k s3 = getItem k s1.
Proof.
  intros H12 H23 k. destruct (H23 k) as [H|H]; [by left|].
  rewrite H. apply H12.
Qed.

Lemma performCleanup_after_sweep options e1 e2 now s k :
  let p := default true (preserveEssential options) in
  getItem k (performCleanup options e1 e2 now s) = None
  \/ getItem k (performCleanup options e1 e2 now s)
     = getItem k (cleanExpiredItems now p s).
Proof.
  intros p. unfold performCleanup. fold p.
  set (s1 := cleanExpiredItems now p s).
  set (s2 := if overLimit _ _ then cleanByAge now _ p s1 else s1).
  assert (forall k, getItem k s2 = None \/ getItem k s2 = getItem k s1) as H2.
  { intros k0. unfold s2. destruct (overLimit _ _); [|by right].
    apply cleanByAge_shrink. }
  destruct (overLimit (CacheService.getCacheInfo e2) _); [|apply H2].
  revert k. apply (shrink_trans s1 s2); [done|].
  intros k. apply cleanBySize_shrink.
Qed.

Lemma removeUntil_capacity maxSize (l : list Entry) : forall size s,
  capacity (removeUntil maxSize size l s) = capacity s.
Proof.
  induction l as [|e l IH]; intros size s; cbn [removeUntil]; [done|].
  destruct (size <=? maxSize); [done|]. by rewrite IH.
Qed.

Lemma performCleanup_capacity options e1 e2 now s :
  capacity (performCleanup options e1 e2 now s) = capacity s.
Proof.
  assert (forall now p s, capacity (cleanExpiredItems now p s) = capacity s) as H1.
  { intros now0 p s0. unfold cleanExpiredItems. apply fold_left_capacity.
    intros s1 a. unfold cleanExpiredItem. by repeat case_match. }
  assert (forall now maxAge p s, capacity (cleanByAge now maxAge p s) = capacity s)
    as H2.
  { intros now0 maxAge p s0. unfold cleanByAge. apply fold_left_capacity.
    intros s1 a. by destruct (js_lt _ _). }
  unfold performCleanup.
  repeat case_match; unfold cleanBySize;
    rewrite ?removeUntil_capacity, ?H2, ?H1; done.
Qed.

(** X11. A cleanup never adds or rewrites an entry: after
    [performCleanup], with any options and storage estimates, every key
    holds what it held before or nothing, and the capacity of the store
    is unchanged. *)
Theorem performCleanup_only_removes options e1 e2 now s :
  (forall key,
     getItem key (performCleanup options e1 e2 now s) = None
     \/ getItem key (performCleanup options e1 e2 now s) = getItem key s)
  /\ capacity (performCleanup options e1 e2 now s) = capacity s.
Proof.
  split; [|apply performCleanup_capacity].
  apply (shrink_trans s
           (cleanExpiredItems now (default true (preserveEssential options)) s)).
  - intros k. apply cleanExpiredItems_shrink.
  - intros k. apply performCleanup_after_sweep.
Qed.

(** *** Expired entries *)

(** What the statistics count as expired: a text that does not parse,
    the text [null], or an envelope whose expiration has passed. *)
Definition stale (now : Z) (item : string) : bool :=
  match JSON_parse item with
  | None => true
  | Some parsed =>
      match get_prop parsed "expiration" with
      | Throw _ => true
      | Ok expiration => truthy expiration && js_gt (Some (JNum now)) expiration
      end
  end.

Definition stale_at (now : Z) (s : t) (key : string) : bool :=
  match getItem key s with
  | Some item => nonempty item && stale now item
  | None => false
  end.

Lemma countItem_expiredItems now s acc key :
  expiredItems (countItem now s acc key)
  = (expiredItems acc + if stale_at now s key then 1 else 0)%nat.
Proof.
  unfold countItem, stale_at, stale.
  destruct (getItem key s) as [item|]; [|cbn; lia].
  destruct (nonempty item); [|cbn; lia]. cbn [andb].
  destruct (JSON_parse item) as [parsed|]; [|cbn; lia].
  destruct parsed; cbn [get_prop expiredItems];
    try (destruct (_ && _); cbn; lia); lia.
Qed.

Lemma fold_countItem_expiredItems now s l : forall acc,
  expiredItems (fold_left (countItem now s) l acc)
  = (expiredItems acc
     + length (List.filter (stale_at now s) l))%nat.
Proof.
  induction l as [|k l IH]; intros acc; cbn [fold_left List.filter];
    [cbn [length]; lia|].
  rewrite IH, countItem_expiredItems.
  destruct (stale_at now s k); cbn [length]; lia.
Qed.

Lemma expiredItems_count now s :
  expiredItems (getCacheStats now s)
  = length (List.filter (stale_at now s) (selected s)).
Proof. unfold getCacheStats. by rewrite fold_countItem_expiredItems. Qed.

(** X14. [getCacheStats] counts as expired exactly the entries under
    the prefix that hold a text that does not parse or whose expiration
    has passed; the count never exceeds [totalItems]. *)
Theorem getCacheStats_expiredItems now s :
  expiredItems (getCacheStats now s)
  = length (List.filter (stale_at now s) (selected s))
  /\ (expiredItems (getCacheStats now s) <= totalItems (getCacheStats now s))%nat.
Proof.
  split; [apply expiredItems_count|].
  rewrite expiredItems_count, getCacheStats_totalItems.
  apply List.filter_length_le.
Qed.

Lemma cleanExpiredItem_not_stale now s key item :
  startsWith key PREFIX = true ->
  getItem key (cleanExpiredItem now false s key) = Some item ->
  nonempty item = true -> stale now item = false.
Proof.
  intros Hp. unfold cleanExpiredItem, stale. rewrite Hp. cbn [negb andb].
  destruct (getItem key s) as [item'|] eqn:Hget; [|by rewrite Hget].
  destruct (nonempty item') eqn:Hne;
    [|rewrite Hget; intros [= <-]; congruence].
  destruct (JSON_parse item') as [parsed|] eqn:Hparse;
    [|by rewrite getItem_removeItem].
  destruct (get_prop parsed "expiration") as [e|] eqn:He;
    [|by rewrite getItem_removeItem].
  destruct (truthy e && js_gt _ e) eqn:Hc; [by rewrite getItem_removeItem|].
  rewrite Hget. intros [= <-] _. by rewrite Hparse, He.
Qed.

Lemma cleanExpiredItems_not_stale now s key :
  startsWith key PREFIX = true ->
  stale_at now (cleanExpiredItems now false s) key = false.
Proof.
  intros Hp. unfold stale_at.
  destruct (getItem key (cleanExpiredItems now false s)) as [item|] eqn:Hget;
    [|done].
  destruct (nonempty item) eqn:Hne; [|done]. cbn [andb].
  apply (cleanExpiredItem_not_stale now s key); [done| |done].
  rewrite <- Hget. unfold cleanExpiredItems.
  destruct (decide (key ∈ keys s)) as [Hin|Hnin].
  - pose proof (fold_left_pointwise (cleanExpiredItem now false) id) as H.
    unfold id in H. symmetry. apply H.
    + intros s0 a k Hk. by apply cleanExpiredItem_frame.
    + intros s1 s2 a Heq. unfold cleanExpiredItem. rewrite Heq.
      repeat case_match; rewrite ?getItem_removeItem; congruence.
    + rewrite list_fmap_id. apply NoDup_keys.
    + done.
  - exfalso. unfold cleanExpiredItems in Hget.
    pose proof (fold_left_frame (cleanExpiredItem now false) id) as H.
    unfold id in H. rewrite H in Hget.
    + by rewrite getItem_absent in Hget.
    + intros s0 a k Hk. by apply cleanExpiredItem_frame.
    + by rewrite list_fmap_id.
Qed.

Lemma stale_at_shrink now s s' key :
  (getItem key s' = None \/ getItem key s' = getItem key s) ->
  stale_at now s key = false -> stale_at now s' key = false.
Proof. unfold stale_at. intros [-> | ->]; done. Qed.

(** X10. After [performCleanup] with [preserveEssential] false, the
    statistics taken at the same clock value report no expired item:
    every remaining entry under the prefix parses and has not expired. *)
Theorem performCleanup_leaves_no_expired options e1 e2 now s :
  preserveEssential options = Some false ->
  expiredItems (getCacheStats now (performCleanup options e1 e2 now s)) = 0%nat.
Proof.
  intros Hp.
  rewrite expiredItems_count. apply length_zero_iff_nil.
  assert (forall l, Forall (fun k => startsWith k PREFIX = true) l ->
            List.filter (stale_at now (performCleanup options e1 e2 now s)) l = [])
    as H.
  { induction l as [|k l IH]; intros Hl; [done|].
    apply Forall_cons in Hl as [Hk Hl]. cbn [List.filter].
    rewrite (stale_at_shrink now (cleanExpiredItems now false s)).
    - by apply IH.
    - pose proof (performCleanup_after_sweep options e1 e2 now s k) as Ha.
      by rewrite Hp in Ha.
    - by apply cleanExpiredItems_not_stale. }
  apply H. apply Forall_forall. intros k Hk.
  apply list_elem_of_filter in Hk as [Hk _]. by apply Is_true_true.
Qed.

Lemma performCleanup_leaves_no_expired_witness :
  let options := mkOptions None None (Some false) in
  let unknown := CacheService.EstimateUnsupported in
  let s := mk {[ CacheService.RECOMMENDATIONS := "{oops";
                 CacheService.ESSENTIAL_DATA := "{oops" ]} None in
  preserveEssential options = Some false
  /\ expiredItems (getCacheStats 1000 s) = 2%nat
  /\ expiredItems
       (getCacheStats 1000 (performCleanup options unknown unknown 1000 s))
     = 0%nat.
Proof.
  split; [reflexivity|]. split; [by vm_compute|].
  by apply (performCleanup_leaves_no_expired
              (mkOptions None None (Some false))).
Defined.

(** *** Cleaning by age *)

Section conditional_removal.
Context (c : Entry -> bool).

Definition remove_if (s : t) (e : Entry) : t :=
  if c e then removeItem (entry_key e) s else s.

Lemma remove_if_shrink s e k :
  getItem k (remove_if s e) = None \/ getItem k (remove_if s e) = getItem k s.
Proof. unfold remove_if. destruct (c e); [apply removeItem_shrink|by right]. Qed.

Lemma fold_remove_hit l : forall s k,
  (exists e, e ∈ l /\ c e = true /\ entry_key e = k) ->
  getItem k (fold_left remove_if l s) = None.
Proof.
  induction l as [|x l IH]; intros s k (e & He & Hc & Hk).
  - by apply elem_of_nil in He.
  - cbn [fold_left]. apply elem_of_cons in He as [<-|He].
    + destruct (fold_left_shrink remove_if remove_if_shrink l (remove_if s e) k)
        as [H|H]; [done|].
      rewrite H. unfold remove_if. rewrite Hc, Hk. apply getItem_removeItem.
    + apply IH. by exists e.
Qed.

Lemma fold_remove_miss l s k :
  (forall e, e ∈ l -> entry_key e = k -> c e = false) ->
  getItem k (fold_left remove_if l s) = getItem k s.
Proof.
  intros H. apply fold_left_getItem. intros s0 e He. unfold remove_if.
  destruct (c e) eqn:Hc; [|done]. apply getItem_removeItem_ne.
  intros Hk. by rewrite (H e He Hk) in Hc.
Qed.
End conditional_removal.

(** The entry [cleanByAge] makes of a key. *)
Definition ageEntry (s : t) (key : string) : option Entry :=
  match getItem key s with
  | Some item =>
      if nonempty item then
        match stamp item with
        | Some ts => Some (mkEntry key ts (String.length item))
        | None => Some (mkEntry key (Some (JNum 0)) 0)
        end
      else None
  | None => None
  end.

Lemma cleanByAge_unfold now maxAge p s :
  cleanByAge now maxAge p s
  = fold_left
      (remove_if (fun e => js_lt (entry_timestamp e) (Some (JNum (now - maxAge)))))
      (js_sort by_timestamp (omap (ageEntry s) (candidates p s))) s.
Proof. reflexivity. Qed.

Lemma ageEntry_key s key e : ageEntry s key = Some e -> entry_key e = key.
Proof.
  unfold ageEntry. repeat case_match; try done; by intros [= <-].
Qed.

Lemma elem_of_candidates p s key :
  key ∈ candidates p s
  <-> is_Some (getItem key s) /\ startsWith key PREFIX = true
      /\ p && isEssentialKey key = false.
Proof.
  unfold candidates. rewrite !list_elem_of_filter, elem_of_keys.
  rewrite !Is_true_true.
  destruct p, (isEssentialKey key); cbn; intuition congruence.
Qed.

Lemma stamp_envelope data ts exp :
  wf data = true ->
  stamp (JSON_stringify (CacheService.CacheItem data ts exp)) = Some (Some (JNum ts)).
Proof.
  intros Hwf. unfold stamp.
  rewrite JSON_parse_stringify by by apply wf_CacheItem.
  cbn. unfold js_or. cbn. by destruct (Z.eqb_spec ts 0) as [->|].
Qed.

Lemma cleanByAge_stamped now maxAge p s key data ts exp :
  wf data = true ->
  startsWith key PREFIX = true ->
  p && isEssentialKey key = false ->
  getItem key s = Some (JSON_stringify (CacheService.CacheItem data ts exp)) ->
  getItem key (cleanByAge now maxAge p s)
  = if ts <? now - maxAge then None else getItem key s.
Proof.
  intros Hwf Hprefix Hp Hget. rewrite cleanByAge_unfold.
  assert (ageEntry s key
          = Some (mkEntry key (Some (JNum ts))
                    (String.length
                       (JSON_stringify (CacheService.CacheItem data ts exp)))))
    as Hentry.
  { unfold ageEntry. by rewrite Hget, nonempty_CacheItem, stamp_envelope. }
  assert (key ∈ candidates p s) as Hcand.
  { apply elem_of_candidates. by rewrite Hget. }
  destruct (ts <? now - maxAge) eqn:Hold.
  - apply fold_remove_hit. eexists. split; [|split].
    + apply elem_of_js_sort, list_elem_of_omap. by exists key.
    + cbn [entry_timestamp]. by rewrite js_lt_num.
    + done.
  - apply fold_remove_miss. intros e He Hk.
    apply elem_of_js_sort, list_elem_of_omap in He as (key' & _ & He).
    pose proof (ageEntry_key s key' e He) as Hk'.
    assert (key' = key) as -> by congruence.
    rewrite Hentry in He. injection He as <-.
    cbn [entry_timestamp]. by rewrite js_lt_num.
Qed.

(** X12. [cleanByAge] decides by the time an entry was written: an
    envelope under the prefix that the options do not protect is removed
    when its timestamp is before [now - maxAge] and is kept, unchanged,
    otherwise. *)
Theorem cleanByAge_envelope now maxAge p s key data ts exp :
  wf data = true ->
  startsWith key PREFIX = true ->
  p && isEssentialKey key = false ->
  getItem key s = Some (JSON_stringify (CacheService.CacheItem data ts exp)) ->
  getItem key (cleanByAge now maxAge p s)
  = if ts <? now - maxAge then None else getItem key s.
Proof. apply cleanByAge_stamped. Qed.

Lemma cleanByAge_envelope_witness :
  let day := 24 * 60 * 60 * 1000 in
  let old :=
    JSON_stringify (CacheService.CacheItem (JArr []) 0 (30 * day)) in
  let s := mk {[ CacheService.TRANSLATIONS := old ]} None in
  getItem CacheService.TRANSLATIONS (cleanByAge (2 * day) day true s)
  = if 0 <? 2 * day - day then None else getItem CacheService.TRANSLATIONS s.
Proof.
  intros day old s.
  by apply (cleanByAge_envelope (2 * day) day true s CacheService.TRANSLATIONS
              (JArr []) 0 (30 * day)).
Defined.

(** *** Cleaning by size *)

(** The entry [cleanBySize] makes of a key, the entries it sorts and the
    size it computes for them. *)
Definition sizeEntry (s : t) (key : string) : option Entry :=
  match getItem key s with
  | Some item =>
      if nonempty item then
        Some (mkEntry key (default (Some (JNum 0)) (stamp item))
                (String.length item))
      else None
  | None => None
  end.

Definition present (p : bool) (s : t) : list Entry :=
  omap (sizeEntry s) (candidates p s).

Definition cacheSize (p : bool) (s : t) : Z :=
  fold_left (fun acc e => acc + Z.of_nat (entry_size e)) (present p s) 0.

Lemma cleanBySize_unfold maxSize p s :
  cleanBySize maxSize p s
  = removeUntil maxSize (cacheSize p s) (js_sort by_timestamp (present p s)) s.
Proof. reflexivity. Qed.

Definition sumZ (l : list Z) : Z := foldr Z.add 0 l.

Lemma sumZ_Permutation l l' : l ≡ₚ l' -> sumZ l = sumZ l'.
Proof. unfold sumZ. induction 1; cbn [foldr]; lia. Qed.

Lemma fold_left_sumZ (l : list Entry) : forall acc,
  fold_left (fun acc e => acc + Z.of_nat (entry_size e)) l acc
  = acc + sumZ ((fun e => Z.of_nat (entry_size e)) <$> l).
Proof.
  induction l as [|e l IH]; intros acc; cbn [fold_left fmap list_fmap sumZ foldr];
    [lia|].
  rewrite IH. unfold sumZ. lia.
Qed.

(** What a stored pair counts for in the size. *)
Definition weight (p : bool) (kv : string * string) : Z :=
  if startsWith kv.1 PREFIX && (negb p || negb (isEssentialKey kv.1))
     && nonempty kv.2
  then Z.of_nat (String.length kv.2) else 0.

Lemma present_weight p s (kvs : list (string * string)) :
  (forall kv, kv ∈ kvs -> getItem kv.1 s = Some kv.2) ->
  sumZ ((fun e => Z.of_nat (entry_size e))
          <$> omap (sizeEntry s)
                (filter (fun key => Is_true (negb p || negb (isEssentialKey key)))
                   (filter (fun key => Is_true (startsWith key PREFIX)) kvs.*1)))
  = sumZ (weight p <$> kvs).
Proof.
  induction kvs as [|[k v] kvs IH]; intros H; [done|].
  rewrite !fmap_cons. cbn [fst]. unfold weight at 1. cbn [fst snd].
  assert (getItem k s = Some v) as Hk by (apply (H (k, v)); left).
  specialize (IH (fun kv Hkv => H kv (list_elem_of_further _ _ _ Hkv))).
  rewrite filter_cons. destruct (decide (Is_true (startsWith k PREFIX))) as [H1|H1].
  - rewrite filter_cons.
    destruct (decide (Is_true (negb p || negb (isEssentialKey k)))) as [H2|H2].
    + apply Is_true_true in H1, H2. rewrite H1, H2. cbn [andb omap list_omap].
      unfold sizeEntry at 1. rewrite Hk.
      destruct (nonempty v); cbn [fmap list_fmap sumZ foldr entry_size];
        fold (sumZ (weight p <$> kvs)); rewrite <- IH; unfold sumZ; lia.
    + apply Is_true_false in H2. rewrite H2, andb_false_r. cbn [andb].
      cbn [sumZ foldr]. fold (sumZ (weight p <$> kvs)). rewrite <- IH. lia.
  - apply Is_true_false in H1. rewrite H1. cbn [andb].
    cbn [sumZ foldr]. fold (sumZ (weight p <$> kvs)). rewrite <- IH. lia.
Qed.

Lemma cacheSize_sum p s : cacheSize p s = sumZ (weight p <$> map_to_list (items s)).
Proof.
  unfold cacheSize. rewrite fold_left_sumZ, Z.add_0_l.
  unfold present, candidates, keys. apply present_weight.
  intros [k v] Hkv. by apply elem_of_map_to_list in Hkv.
Qed.

Lemma cacheSize_removeItem p s k v :
  getItem k s = Some v ->
  cacheSize p (removeItem k s) = cacheSize p s - weight p (k, v).
Proof.
  intros Hget. rewrite !cacheSize_sum. cbn [removeItem items].
  rewrite <- (sumZ_Permutation _ _
                (fmap_Permutation (weight p) _ _
                   (map_to_list_delete (items s) k v Hget))).
  rewrite fmap_cons. cbn [sumZ foldr]. unfold sumZ. lia.
Qed.

Lemma insert_sorted_Permutation {A} (cmp : A -> A -> option Q) x l :
  insert_sorted cmp x l ≡ₚ x :: l.
Proof.
  induction l as [|y l IH]; cbn [insert_sorted]; [done|].
  destruct (after cmp y x); [done|]. rewrite IH. apply Permutation_swap.
Qed.

Lemma js_sort_Permutation {A} (cmp : A -> A -> option Q) l : js_sort cmp l ≡ₚ l.
Proof.
  unfold js_sort.
  assert (forall acc, fold_left (fun acc x => insert_sorted cmp x acc) l acc
                      ≡ₚ l ++ acc) as H.
  { induction l as [|x l IH]; intros acc; cbn [fold_left]; [done|].
    rewrite IH, insert_sorted_Permutation. cbn [app]. symmetry.
    apply Permutation_middle. }
  by rewrite H, app_nil_r.
Qed.

Lemma sizeEntry_key s key e : sizeEntry s key = Some e -> entry_key e = key.
Proof. unfold sizeEntry. repeat case_match; try done; by intros [= <-]. Qed.

Lemma omap_keys_sublist (g : string -> option Entry) (l : list string) :
  (forall k e, g k = Some e -> entry_key e = k) ->
  entry_key <$> omap g l `sublist_of` l.
Proof.
  intros Hg. induction l as [|k l IH]; [done|]. cbn [omap list_omap].
  destruct (g k) as [e|] eqn:E.
  - rewrite fmap_cons, (Hg k e E). by apply sublist_skip.
  - by apply sublist_cons.
Qed.

Lemma NoDup_present p s : NoDup (entry_key <$> present p s).
Proof.
  apply (sublist_NoDup _ (candidates p s)).
  - unfold candidates. apply NoDup_filter, NoDup_filter, NoDup_keys.
  - apply omap_keys_sublist, sizeEntry_key.
Qed.

Lemma present_weighted p s e :
  e ∈ present p s ->
  exists v, getItem (entry_key e) s = Some v
            /\ weight p (entry_key e, v) = Z.of_nat (entry_size e).
Proof.
  intros He. apply list_elem_of_omap in He as (key & Hkey & He).
  apply elem_of_candidates in Hkey as (_ & Hprefix & Hp).
  unfold sizeEntry in He. destruct (getItem key s) as [v|] eqn:Hget; [|done].
  destruct (nonempty v) eqn:Hne; [|done]. injection He as <-. cbn [entry_key entry_size].
  exists v. split; [done|]. unfold weight. cbn [fst snd]. rewrite Hprefix, Hne.
  by destruct p, (isEssentialKey key).
Qed.

Lemma removeUntil_under_limit p maxSize (l : list Entry) :
  0 <= maxSize -> forall size s,
  size = cacheSize p s ->
  cacheSize p s = sumZ ((fun e => Z.of_nat (entry_size e)) <$> l) ->
  NoDup (entry_key <$> l) ->
  (forall e, e ∈ l ->
     exists v, getItem (entry_key e) s = Some v
               /\ weight p (entry_key e, v) = Z.of_nat (entry_size e)) ->
  cacheSize p (removeUntil maxSize size l s) <= maxSize.
Proof.
  intros Hmax. induction l as [|e l IH]; intros size s Hsize Hsum Hnd Hl;
    cbn [removeUntil].
  - rewrite Hsum. cbn. lia.
  - destruct (Z.leb_spec size maxSize) as [Hle|Hgt]; [lia|].
    rewrite fmap_cons in Hnd. apply NoDup_cons in Hnd as [He Hnd].
    destruct (Hl e) as (v & Hget & Hw); [left|].
    pose proof (cacheSize_removeItem p s (entry_key e) v Hget) as Hrem.
    rewrite fmap_cons in Hsum. cbn [sumZ foldr] in Hsum.
    fold (sumZ ((fun e => Z.of_nat (entry_size e)) <$> l)) in Hsum.
    apply IH; [lia|lia|done|].
    intros e' He'. destruct (Hl e') as (v' & Hget' & Hw'); [by right|].
    exists v'. split; [|done]. rewrite getItem_removeItem_ne; [done|].
    intros Heq. apply He. rewrite Heq. by apply list_elem_of_fmap_2.
Qed.

Lemma cleanBySize_le maxSize p s :
  0 <= maxSize -> cacheSize p (cleanBySize maxSize p s) <= maxSize.
Proof.
  intros Hmax. rewrite cleanBySize_unfold.
  apply removeUntil_under_limit; [done|done|..].
  - unfold cacheSize at 1. rewrite fold_left_sumZ, Z.add_0_l.
    apply sumZ_Permutation, fmap_Permutation. symmetry.
    apply js_sort_Permutation.
  - rewrite (fmap_Permutation entry_key _ _ (js_sort_Permutation _ _)).
    apply NoDup_present.
  - intros e He. apply elem_of_js_sort in He. by apply present_weighted.
Qed.

(** X13. [cleanBySize] brings the cache under the limit: for a limit
    that is not negative, the size the routine computes (the lengths of
    the entries under the prefix that the options do not protect) is at
    most [maxSize] afterwards; when it is at most [maxSize] already,
    nothing is removed. *)
Theorem cleanBySize_under_limit maxSize p s :
  0 <= maxSize ->
  cacheSize p (cleanBySize maxSize p s) <= maxSize
  /\ (cacheSize p s <= maxSize -> cleanBySize maxSize p s = s).
Proof.
  intros Hmax. split; [by apply cleanBySize_le|].
  rewrite cleanBySize_unfold.
  intros Hle. destruct (js_sort by_timestamp (present p s)); cbn [removeUntil];
    [done|]. by rewrite (proj2 (Z.leb_le _ _)).
Qed.

Lemma cleanBySize_under_limit_witness :
  let item := JSON_stringify (CacheService.CacheItem (JArr []) 1000 5000) in
  let s := mk {[ CacheService.RECOMMENDATIONS := item;
                 CacheService.TRANSLATIONS := item ]} None in
  cacheSize true s = 92 /\ 0 <= 50
  /\ cacheSize true (cleanBySize 50 true s) <= 50.
Proof.
  split; [by vm_compute|]. split; [lia|].
  apply (cleanBySize_under_limit 50 true). lia.
Defined.

(** *** The life cycle of the manager *)

(** What can happen to a manager: it is initialized, one of the window's
    timers fires, an [error] event reaches the window, it is destroyed. *)
Inductive Event :=
| Initialize (estimate1 estimate2 : CacheService.StorageEstimate) (now : Z)
| TimerFires (handle : positive)
    (estimate1 estimate2 : CacheService.StorageEstimate) (now : Z)
| ErrorRaised (name : string)
| Destroy.

Definition step (x : World) (event : Event) : World :=
  match event with
  | Initialize estimate1 estimate2 now => initialize estimate1 estimate2 now x
  | TimerFires handle estimate1 estimate2 now =>
      if decide (handle ∈ intervals (window x))
      then periodicCleanup estimate1 estimate2 now x else x
  | ErrorRaised name =>
      mkWorld (cleanupInterval x) (window x)
        (Nat.iter (error_listeners (window x)) (onError name) (store x))
        (queries x)
  | Destroy => destroy x
  end.

Definition run (events : list Event) (x : World) : World :=
  fold_left step events x.

(** A manager that was never initialized, in a window without timers or
    listeners. *)
Definition created (s : t) : World := mkWorld None (mkWindow ∅ 1 0 0) s ∅.

Definition is_initialize (event : Event) : bool :=
  match event with
  | Initialize _ _ _ => true
  | _ => false
  end.

Definition one_timer (x : World) : Prop :=
  intervals (window x)
  = match cleanupInterval x with
    | Some handle => {[handle]}
    | None => ∅
    end.

Lemma step_one_timer x event : one_timer x -> one_timer (step x event).
Proof.
  unfold one_timer. intros H. destruct event as [e1 e2 now|h e1 e2 now|name|];
    cbn [step].
  - unfold initialize, setupStorageEventListeners, startPeriodicCleanup.
    destruct (cleanupInterval x) as [h|]; cbn; rewrite H.
    + by rewrite difference_diag_L, union_empty_r_L.
    + by rewrite union_empty_r_L.
  - by destruct (decide _).
  - done.
  - unfold destroy. destruct (cleanupInterval x) as [h|] eqn:E; cbn.
    + by rewrite H, difference_diag_L.
    + by rewrite E.
Qed.

Lemma step_listeners x event :
  error_listeners (window (step x event))
  = ((if is_initialize event then 1 else 0) + error_listeners (window x))%nat.
Proof.
  destruct event as [e1 e2 now|h e1 e2 now|name|]; cbn [step is_initialize].
  - unfold initialize, setupStorageEventListeners, startPeriodicCleanup.
    by destruct (cleanupInterval x).
  - by destruct (decide _).
  - done.
  - unfold destroy. by destruct (cleanupInterval x).
Qed.

Lemma run_one_timer events : forall x, one_timer x -> one_timer (run events x).
Proof.
  unfold run. induction events as [|event events IH]; intros x Hx; [done|].
  cbn [fold_left]. by apply IH, step_one_timer.
Qed.

Lemma run_listeners events : forall x,
  error_listeners (window (run events x))
  = (length (List.filter is_initialize events) + error_listeners (window x))%nat.
Proof.
  unfold run. induction events as [|event events IH]; intros x; [done|].
  cbn [fold_left List.filter]. rewrite IH, step_listeners.
  destruct (is_initialize event); cbn [length]; lia.
Qed.

(** X15. Through any sequence of calls and events, the manager owns at
    most one interval timer, the one [cleanupInterval] holds: a second
    [initialize] clears the first timer before it sets a new one.
    [destroy] leaves no timer, and a second [destroy] changes nothing;
    the [error] listeners, one more for every [initialize], stay
    registered. *)
Theorem lifecycle_one_timer events s :
  let x := run events (created s) in
  intervals (window x)
  = match cleanupInterval x with
    | Some handle => {[handle]}
    | None => ∅
    end
  /\ intervals (window (destroy x)) = ∅
  /\ cleanupInterval (destroy x) = None
  /\ destroy (destroy x) = destroy x
  /\ error_listeners (window (destroy x))
     = length (List.filter is_initialize events).
Proof.
  intros x.
  assert (one_timer x) as Hx by (by apply run_one_timer).
  split; [exact Hx|].
  pose proof (step_one_timer x Destroy Hx) as Hd. cbn [step] in Hd.
  assert (cleanupInterval (destroy x) = None) as Hnone.
  { unfold destroy. destruct (cleanupInterval x) eqn:E; [done|exact E]. }
  split; [|split; [done|split]].
  - unfold one_timer in Hd. by rewrite Hnone in Hd.
  - unfold destroy at 1. by rewrite Hnone.
  - pose proof (step_listeners x Destroy) as Hl. cbn [step is_initialize] in Hl.
    rewrite Hl. unfold x. rewrite run_listeners. cbn. lia.
Qed.

Lemma onError_protected name key s :
  protected true key = true -> getItem key (onError name s) = getItem key s.
Proof.
  intros H. unfold onError. destruct (String.eqb _ _); [|done].
  by apply performEmergencyCleanup_protected.
Qed.

Lemma step_protected x event key :
  protected true key = true ->
  getItem key (store (step x event)) = getItem key (store x).
Proof.
  intros H. destruct event as [e1 e2 now|h e1 e2 now|name|]; cbn [step].
  - unfold initialize, setupStorageEventListeners, startPeriodicCleanup.
    destruct (cleanupInterval x); cbn [store];
      by apply performCleanup_protected.
  - destruct (decide _); [|done]. by apply performCleanup_protected.
  - cbn [store]. induction (error_listeners (window x)) as [|n IH]; [done|].
    cbn [Nat.iter nat_rect]. by rewrite onError_protected.
  - unfold destroy. by destruct (cleanupInterval x).
Qed.

(** X16. Nothing the manager does on its own removes or changes what it
    protects: through any sequence of [initialize], timer cleanups,
    [error] events (with the emergency cleanup they start) and
    [destroy], an entry whose key is essential or lacks the prefix,
    such as the user preferences, the essential data and the last-sync
    marker, keeps its value. *)
Theorem lifecycle_keeps_protected events s key :
  startsWith key PREFIX = false \/ isEssentialKey key = true ->
  getItem key (store (run events (created s))) = getItem key s.
Proof.
  intros H.
  assert (protected true key = true) as Hp.
  { destruct H as [H|H]; [by apply unprefixed_protected|by apply essential_protected]. }
  change (getItem key s) with (getItem key (store (created s))).
  generalize (created s). unfold run.
  induction events as [|event events IH]; intros x; [done|].
  cbn [fold_left]. by rewrite IH, step_protected.
Qed.

Lemma lifecycle_keeps_protected_witness :
  let s := mk {[ CacheService.USER_PREFERENCES := "{oops";
                 CacheService.RECOMMENDATIONS := "{oops" ]} None in
  let unknown := CacheService.EstimateUnsupported in
  let events :=
    [Initialize unknown unknown 1000; ErrorRaised "QuotaExceededError";
     Destroy] in
  getItem CacheService.RECOMMENDATIONS (store (run events (created s))) = None
  /\ getItem CacheService.USER_PREFERENCES (store (run events (created s)))
     = getItem CacheService.USER_PREFERENCES s.
Proof.
  intros s unknown events. split; [by vm_compute|].
  apply (lifecycle_keeps_protected events s CacheService.USER_PREFERENCES).
  by left.
Defined.

(** *** Oldest first *)

(** The number a timestamp counts as, when it is one. *)
Definition age_of (e : Entry) : option Q := to_number (entry_timestamp e).

Definition not_after (x y : Entry) : Prop :=
  forall a b, age_of x = Some a -> age_of y = Some b -> (a <= b)%Q.

Fixpoint ordered (l : list Entry) : Prop :=
  match l with
  | [] => True
  | x :: l' => Forall (not_after x) l' /\ ordered l'
  end.

Lemma after_by_timestamp y x :
  after by_timestamp y x = true ->
  exists a b, age_of x = Some a /\ age_of y = Some b /\ (a < b)%Q.
Proof.
  unfold after, by_timestamp, js_sub, age_of.
  destruct (to_number (entry_timestamp y)) as [b|]; [|done].
  destruct (to_number (entry_timestamp x)) as [a|]; [|done].
  intros H%Qlt_bool_minus. by exists a, b.
Qed.

Lemma not_after_by_timestamp y x :
  after by_timestamp y x = false -> not_after y x.
Proof.
  unfold not_after, age_of, after, by_timestamp, js_sub.
  intros H b a Hb Ha. rewrite Hb, Ha in H. apply Qnot_lt_le.
  intros Hlt%Qlt_bool_minus. congruence.
Qed.

Lemma insert_sorted_ordered x l :
  ordered l -> ordered (insert_sorted by_timestamp x l).
Proof.
  induction l as [|y l IH]; intros Hl; cbn [insert_sorted].
  - by split.
  - destruct Hl as [Hy Hl]. destruct (after by_timestamp y x) eqn:E.
    + split; [|by split]. destruct (after_by_timestamp y x E) as (a & b & Ha & Hb & Hlt).
      apply Forall_cons. split.
      * intros a' b'. rewrite Ha, Hb. intros [= <-] [= <-].
        by apply Qlt_le_weak.
      * eapply Forall_impl; [exact Hy|]. intros z Hz a' c. rewrite Ha.
        intros [= <-] Hc. specialize (Hz b c Hb Hc).
        apply Qlt_le_weak in Hlt. by apply (Qle_trans _ b).
    + split; [|by apply IH]. apply Forall_forall. intros z Hz.
      apply elem_of_insert_sorted in Hz as [->|Hz].
      * by apply not_after_by_timestamp.
      * by apply (proj1 (Forall_forall _ _) Hy).
Qed.

Lemma js_sort_ordered l : ordered (js_sort by_timestamp l).
Proof.
  unfold js_sort.
  assert (forall acc, ordered acc ->
            ordered (fold_left (fun acc x => insert_sorted by_timestamp x acc) l acc))
    as H.
  { induction l as [|x l IH]; intros acc Hacc; [done|]. cbn [fold_left].
    by apply IH, insert_sorted_ordered. }
  by apply H.
Qed.

Lemma ordered_lookup l : forall i j ei ej a b,
  ordered l -> (i < j)%nat -> l !! i = Some ei -> l !! j = Some ej ->
  age_of ei = Some a -> age_of ej = Some b -> (a <= b)%Q.
Proof.
  induction l as [|x l IH]; intros i j ei ej a b Hl Hij Hi Hj Ha Hb; [done|].
  destruct Hl as [Hx Hl]. destruct j as [|j]; [lia|]. cbn in Hj.
  destruct i as [|i].
  - injection Hi as <-.
    apply (proj1 (Forall_forall _ _) Hx ej); [by eapply list_elem_of_lookup_2|done..].
  - cbn in Hi. apply (IH i j ei ej); [done|lia|done..].
Qed.

(** The loop of [cleanBySize] removes the first entries of the sorted
    list, up to some position. *)
Lemma removeUntil_prefix maxSize (l : list Entry) : forall size s,
  exists n,
    removeUntil maxSize size l s
    = fold_left (fun s e => removeItem (entry_key e) s) (take n l) s.
Proof.
  induction l as [|e l IH]; intros size s; cbn [removeUntil].
  - by exists 0%nat.
  - destruct (size <=? maxSize); [by exists 0%nat|].
    destruct (IH (size - Z.of_nat (entry_size e)) (removeItem (entry_key e) s))
      as [n Hn].
    exists (S n). by rewrite Hn.
Qed.

Lemma fold_remove_getItem (l : list Entry) : forall s k,
  getItem k (fold_left (fun s e => removeItem (entry_key e) s) l s)
  = if decide (k ∈ entry_key <$> l) then None else getItem k s.
Proof.
  induction l as [|e l IH]; intros s k; cbn [fold_left].
  - by rewrite decide_False by apply not_elem_of_nil.
  - rewrite IH, fmap_cons. destruct (decide (k ∈ entry_key <$> l)) as [Hin|Hnin].
    + by rewrite decide_True by (by right).
    + destruct (decide (k = entry_key e)) as [->|Hne].
      * rewrite decide_True by left. apply getItem_removeItem.
      * rewrite decide_False; [by apply getItem_removeItem_ne|].
        intros Hin. apply elem_of_cons in Hin as [Heq|Hin]; done.
Qed.

Lemma sizeEntry_envelope s key data ts exp :
  wf data = true ->
  getItem key s = Some (JSON_stringify (CacheService.CacheItem data ts exp)) ->
  exists e, sizeEntry s key = Some e /\ entry_key e = key
            /\ age_of e = Some (inject_Z ts).
Proof.
  intros Hwf Hget. unfold sizeEntry.
  rewrite Hget, nonempty_CacheItem, stamp_envelope by done.
  eexists. split; [reflexivity|]. by split.
Qed.

(** X27. [cleanBySize] removes the oldest entries first: of two
    envelopes under the prefix that the options do not protect, the one
    written later is removed only if the one written earlier is removed
    as well. *)
Theorem cleanBySize_oldest_first maxSize p s key1 key2 data1 data2 ts1 ts2
    exp1 exp2 :
  wf data1 = true -> wf data2 = true ->
  startsWith key1 PREFIX = true -> startsWith key2 PREFIX = true ->
  p && isEssentialKey key1 = false -> p && isEssentialKey key2 = false ->
  getItem key1 s = Some (JSON_stringify (CacheService.CacheItem data1 ts1 exp1)) ->
  getItem key2 s = Some (JSON_stringify (CacheService.CacheItem data2 ts2 exp2)) ->
  ts1 < ts2 ->
  getItem key2 (cleanBySize maxSize p s) = None ->
  getItem key1 (cleanBySize maxSize p s) = None.
Proof.
  intros Hwf1 Hwf2 Hp1 Hp2 He1 He2 Hget1 Hget2 Hlt.
  rewrite cleanBySize_unfold.
  set (l := js_sort by_timestamp (present p s)).
  destruct (removeUntil_prefix maxSize l (cacheSize p s) s) as [n ->].
  rewrite !fold_remove_getItem.
  destruct (decide (key2 ∈ entry_key <$> take n l)) as [Hin2|Hnin2];
    [intros _|by rewrite Hget2].
  rewrite decide_True; [done|].
  destruct (sizeEntry_envelope s key1 data1 ts1 exp1 Hwf1 Hget1)
    as (e1 & Hs1 & Hk1 & Ha1).
  destruct (sizeEntry_envelope s key2 data2 ts2 exp2 Hwf2 Hget2)
    as (e2 & Hs2 & Hk2 & Ha2).
  assert (e1 ∈ l) as Hl1.
  { apply elem_of_js_sort, list_elem_of_omap. exists key1. split; [|done].
    apply elem_of_candidates. by rewrite Hget1. }
  assert (NoDup (entry_key <$> l)) as Hnd.
  { unfold l. rewrite (fmap_Permutation entry_key _ _ (js_sort_Permutation _ _)).
    apply NoDup_present. }
  apply list_elem_of_lookup_1 in Hl1 as [i Hi].
  apply list_elem_of_fmap in Hin2 as (e2' & Hk2' & Hin2).
  apply list_elem_of_lookup_1 in Hin2 as [j Hj].
  apply lookup_take_Some in Hj as [Hj Hjn].
  assert (e2' = e2) as ->.
  { assert (e2' ∈ present p s) as Hpres
      by (eapply elem_of_js_sort, list_elem_of_lookup_2; exact Hj).
    apply list_elem_of_omap in Hpres as (k & _ & Hk).
    pose proof (sizeEntry_key s k e2' Hk) as Hkk.
    assert (k = key2) as -> by congruence. congruence. }
  assert (i < j)%nat as Hij.
  { destruct (Nat.lt_trichotomy i j) as [H|[H|H]]; [done|..].
    - subst j. rewrite Hi in Hj. injection Hj as ->.
      rewrite Ha1 in Ha2. injection Ha2 as Heq. lia.
    - pose proof (ordered_lookup l j i e2 e1 _ _ (js_sort_ordered _) H Hj Hi
                    Ha2 Ha1) as Hle. rewrite <- Zle_Qle in Hle. lia. }
  apply list_elem_of_fmap. exists e1. split; [done|].
  apply (list_elem_of_lookup_2 _ i). apply lookup_take_Some. split; [done|lia].
Qed.

Lemma cleanBySize_oldest_first_witness :
  let older := JSON_stringify (CacheService.CacheItem (JArr []) 1000 9000) in
  let newer := JSON_stringify (CacheService.CacheItem (JArr []) 2000 9000) in
  let s := mk {[ CacheService.RECOMMENDATIONS := older;
                 CacheService.TRANSLATIONS := newer ]} None in
  getItem CacheService.RECOMMENDATIONS (cleanBySize 50 true s) = None
  /\ getItem CacheService.TRANSLATIONS (cleanBySize 50 true s) = Some newer
  /\ getItem CacheService.TRANSLATIONS (cleanBySize 0 true s) = None
  /\ getItem CacheService.RECOMMENDATIONS (cleanBySize 0 true s) = None.
Proof.
  intros older newer s. split; [by vm_compute|]. split; [by vm_compute|].
  assert (getItem CacheService.TRANSLATIONS (cleanBySize 0 true s) = None) as H
    by (by vm_compute).
  split; [exact H|].
  by apply (cleanBySize_oldest_first 0 true s CacheService.RECOMMENDATIONS
              CacheService.TRANSLATIONS (JArr []) (JArr []) 1000 2000 9000 9000).
Defined.

(** *** Which entries the manager sees *)









End SweepFacts.

(** ** dataPreloader: translations, refresh and status *)

Module RefreshFacts.
Import Storage JSFacts CacheFacts DataPreloader PreloadFacts StoreFacts.

(** *** Common translations *)

Definition phraseKey (targetLanguage phrase : string) : string :=
  "auto-" +:+ targetLanguage +:+ "-" +:+ toLowerCase phrase.

(** What one turn of the loop does to the mapping. *)
Definition addPhrase (targetLanguage : string) (m : list (string * json))
    (phrase : string) : list (string * json) :=
  if truthy (obj_get (phraseKey targetLanguage phrase) m) then m
  else obj_set (phraseKey targetLanguage phrase) (JStr phrase) m.

Lemma getCachedTranslation_mapping now key s m :
  mapping (CacheService.getCachedTranslations now s).1 = Some m ->
  (CacheService.getCachedTranslation now key s).1 = js_or (obj_get key m) null.
Proof.
  unfold CacheService.getCachedTranslation, mapping.
  destruct (CacheService.getCachedTranslations now s) as [cached s1].
  cbn [fst snd].
  destruct cached as [[| [] |n|d e|str|l|o]|]; cbn [truthy]; try done;
    try (by intros [= <-]).
  - destruct (Z.eqb_spec n 0); [|done]. by intros [= <-].
  - destruct str; [|done]. intros [= <-]. cbn [negb get_elem].
    unfold js_or. cbn. repeat case_match; done.
Qed.

Lemma getCachedTranslations_again now s :
  CacheService.getCachedTranslations now (CacheService.getCachedTranslations now s).2
  = CacheService.getCachedTranslations now s.
Proof. apply getCache_again. Qed.

Lemma getCachedTranslations_capacity now s :
  capacity (CacheService.getCachedTranslations now s).2 = capacity s.
Proof. apply getCache_capacity. Qed.

Lemma preloadPhrase_mapping now targetLanguage s m phrase :
  capacity s = None ->
  mapping (CacheService.getCachedTranslations now s).1 = Some m ->
  capacity (preloadPhrase now targetLanguage s phrase) = None
  /\ mapping (CacheService.getCachedTranslations now
                (preloadPhrase now targetLanguage s phrase)).1
     = Some (addPhrase targetLanguage m phrase).
Proof.
  intros Hcap Hm. unfold preloadPhrase, addPhrase. fold (phraseKey targetLanguage phrase).
  set (key := phraseKey targetLanguage phrase).
  pose proof (getCachedTranslation_mapping now key s m Hm) as Hread.
  assert ((CacheService.getCachedTranslation now key s).2
          = (CacheService.getCachedTranslations now s).2) as Hstate.
  { unfold CacheService.getCachedTranslation.
    by destruct (CacheService.getCachedTranslations now s). }
  destruct (CacheService.getCachedTranslation now key s) as [cached s1].
  cbn [fst snd] in Hread, Hstate. subst cached s1.
  assert (truthy (js_or (obj_get key m) null) = truthy (obj_get key m)) as ->.
  { unfold js_or. by destruct (truthy (obj_get key m)) eqn:E. }
  set (s1 := (CacheService.getCachedTranslations now s).2).
  assert (capacity s1 = None) as Hcap1
    by (unfold s1; by rewrite getCachedTranslations_capacity).
  assert (mapping (CacheService.getCachedTranslations now s1).1 = Some m) as Hm1
    by (unfold s1; by rewrite getCachedTranslations_again).
  destruct (truthy (obj_get key m)); [done|].
  rewrite (cacheTranslation_written now key phrase s1 m Hm1)
    by (apply fits_unbounded; by rewrite getCachedTranslations_capacity).
  split; [cbn [capacity]; by rewrite getCachedTranslations_capacity|].
  unfold CacheService.getCachedTranslations at 1.
  unfold translations_envelope.
  rewrite (getCache_envelope now CacheService.TRANSLATIONS _
             (JObj (obj_set key (JStr phrase) m)) now
             (now + CacheService.EXPIRATION_TRANSLATIONS)).
  - rewrite (proj2 (Z.ltb_ge _ _))
      by (unfold CacheService.EXPIRATION_TRANSLATIONS; lia).
    reflexivity.
  - apply wf_obj_set; [|done].
    by apply (mapping_wf now CacheService.TRANSLATIONS s1).
  - apply getItem_insert.
Qed.

Lemma preloadCommonTranslations_mapping now targetLanguage (l : list string) :
  forall s m,
  capacity s = None ->
  mapping (CacheService.getCachedTranslations now s).1 = Some m ->
  mapping (CacheService.getCachedTranslations now
             (fold_left (preloadPhrase now targetLanguage) l s)).1
  = Some (fold_left (addPhrase targetLanguage) l m).
Proof.
  induction l as [|phrase l IH]; intros s m Hcap Hm; [done|]. cbn [fold_left].
  destruct (preloadPhrase_mapping now targetLanguage s m phrase Hcap Hm)
    as [Hcap' Hm'].
  by apply IH.
Qed.

Lemma append_inj_l p a b : p +:+ a = p +:+ b -> a = b.
Proof. induction p as [|c p IH]; [done|]. rewrite !append_cons. intros [= H]. auto. Qed.

Lemma phraseKey_inj targetLanguage a b :
  phraseKey targetLanguage a = phraseKey targetLanguage b ->
  toLowerCase a = toLowerCase b.
Proof.
  unfold phraseKey. intros H.
  apply (append_inj_l "auto-"), (append_inj_l targetLanguage) in H.
  by apply (append_inj_l "-") in H.
Qed.

Lemma addPhrase_other targetLanguage m phrase key :
  key ≠ phraseKey targetLanguage phrase ->
  obj_get key (addPhrase targetLanguage m phrase) = obj_get key m.
Proof.
  intros H. unfold addPhrase. destruct (truthy _); [done|].
  by apply obj_get_set_ne.
Qed.

Lemma addPhrase_same targetLanguage m phrase :
  obj_get (phraseKey targetLanguage phrase) (addPhrase targetLanguage m phrase)
  = js_or (obj_get (phraseKey targetLanguage phrase) m) (Some (JStr phrase)).
Proof.
  unfold addPhrase, js_or. destruct (truthy _); [done|]. apply obj_get_set.
Qed.

Lemma fold_addPhrase_other targetLanguage (l : list string) key : forall m,
  (forall phrase, phrase ∈ l -> key ≠ phraseKey targetLanguage phrase) ->
  obj_get key (fold_left (addPhrase targetLanguage) l m) = obj_get key m.
Proof.
  induction l as [|x l IH]; intros m H; [done|]. cbn [fold_left].
  rewrite IH by (intros phrase Hp; apply H; by right).
  apply addPhrase_other, H. by left.
Qed.

Lemma fold_addPhrase_same targetLanguage (l : list string) phrase : forall m,
  NoDup (toLowerCase <$> l) -> phrase ∈ l ->
  obj_get (phraseKey targetLanguage phrase) (fold_left (addPhrase targetLanguage) l m)
  = js_or (obj_get (phraseKey targetLanguage phrase) m) (Some (JStr phrase)).
Proof.
  induction l as [|x l IH]; intros m Hnd Hin; [by apply elem_of_nil in Hin|].
  rewrite fmap_cons in Hnd. apply NoDup_cons in Hnd as [Hx Hnd].
  cbn [fold_left]. apply elem_of_cons in Hin as [->|Hin].
  - rewrite fold_addPhrase_other; [apply addPhrase_same|].
    intros phrase Hp Heq. apply Hx. rewrite (phraseKey_inj _ _ _ Heq).
    by apply list_elem_of_fmap_2.
  - rewrite IH by done. f_equal. apply addPhrase_other.
    intros Heq. apply Hx. rewrite <- (phraseKey_inj _ _ _ Heq).
    by apply list_elem_of_fmap_2.
Qed.

(** X17. After [preloadCommonTranslations] for a target language, on a
    store without a size limit, each of the twenty common phrases has an
    offline translation: [getOfflineTranslation] called without a source
    language, for any text that is the phrase up to letter case and
    outer white space, returns what was cached for the phrase before, or
    the phrase itself when nothing was. *)
Theorem preloadCommonTranslations_offline now targetLanguage s m :
  capacity s = None ->
  mapping (CacheService.getCachedTranslations now s).1 = Some m ->
  let s' := preloadCommonTranslations now targetLanguage s in
  forall phrase text,
    phrase ∈ commonPhrases ->
    trim (toLowerCase text) = toLowerCase phrase ->
    (OfflineFallbackService.getOfflineTranslation now text targetLanguage None s').1
    = js_or (obj_get (phraseKey targetLanguage phrase) m) (Some (JStr phrase))
    /\ truthy (OfflineFallbackService.getOfflineTranslation now text
                targetLanguage None s').1 = true.
Proof.
  intros Hcap Hm s' phrase text Hin Htext.
  assert ((OfflineFallbackService.getOfflineTranslation now text targetLanguage
             None s').1
          = js_or (obj_get (phraseKey targetLanguage phrase) m)
              (Some (JStr phrase))) as H.
  { unfold OfflineFallbackService.getOfflineTranslation,
      OfflineFallbackService.translationKey. rewrite Htext.
    change ("auto" +:+ "-" +:+ targetLanguage +:+ "-" +:+ toLowerCase phrase)
      with (phraseKey targetLanguage phrase).
    rewrite (getCachedTranslation_mapping now _ s'
               (fold_left (addPhrase targetLanguage) commonPhrases m))
      by by apply preloadCommonTranslations_mapping.
    rewrite fold_addPhrase_same;
      [|apply (bool_decide_unpack _); by vm_compute|done].
    unfold js_or. destruct (truthy (obj_get _ m)) eqn:E; [by rewrite E|].
    assert (truthy (Some (JStr phrase)) = true) as ->; [|done].
    revert Hin. clear. intros Hin. unfold commonPhrases in Hin.
    repeat (apply elem_of_cons in Hin as [->|Hin]; [done|]).
    by apply elem_of_nil in Hin. }
  split; [exact H|]. rewrite H. unfold js_or.
  destruct (truthy (obj_get _ m)) eqn:E; [done|].
  revert Hin. clear. intros Hin. unfold commonPhrases in Hin.
  repeat (apply elem_of_cons in Hin as [->|Hin]; [done|]).
  by apply elem_of_nil in Hin.
Qed.

Lemma preloadCommonTranslations_offline_witness :
  let s := mk ∅ None in
  let s' := preloadCommonTranslations 1000 "hi" s in
  capacity s = None
  /\ "Thank you" ∈ commonPhrases
  /\ trim (toLowerCase "  THANK you ") = toLowerCase "Thank you"
  /\ (OfflineFallbackService.getOfflineTranslation 1000 "  THANK you " "hi"
        None s').1
     = Some (JStr "Thank you").
Proof.
  split; [reflexivity|].
  assert ("Thank you" ∈ commonPhrases) as Hin by (by right; left).
  split; [exact Hin|]. split; [reflexivity|].
  apply (preloadCommonTranslations_offline 1000 "hi" (mk ∅ None) []);
    [reflexivity|reflexivity|exact Hin|reflexivity].
Defined.

(** *** [forceRefresh] *)

(** The popular recommendations are in neither cache. *)
Definition no_popular (st : State) : Prop :=
  getItem CacheService.RECOMMENDATIONS st.1 = None
  /\ st.2 !! list_key "all" 20 = None.

Lemma getCache_keeps_absent now key k s :
  getItem k s = None -> getItem k (CacheService.getCache now key s).2 = None.
Proof.
  intros H. destruct (getCache_state now key s) as [-> | ->]; [done|].
  destruct (removeItem_shrink key k s) as [H'|H']; [done|]. by rewrite H'.
Qed.

Lemma setCache_keeps_absent now key data expiration k s :
  k ≠ key -> getItem k s = None ->
  getItem k (CacheService.setCache now key data expiration s) = None.
Proof.
  intros Hk H. unfold CacheService.setCache, setItem.
  destruct (fits _ _ _).
  - destruct s. by rewrite getItem_insert_ne.
  - destruct (handleStorageQuotaExceeded_shape now s) as (oldest & -> & _).
    destruct (dropOldest_shrink oldest (CacheService.clearExpiredItems now s) k)
      as [H'|H']; [done|]. rewrite H'.
    destruct (fold_left_shrink (fun s key => CacheService.clearExpiredItem now key s)
                (fun s0 a k0 => clearExpiredItem_shrink now a k0 s0)
                (CacheService.CACHE_KEYS.*2) s k) as [H''|H'']; [done|].
    unfold CacheService.clearExpiredItems. by rewrite H''.
Qed.

Lemma updateLastSync_keeps_absent now k s s' :
  k ≠ CacheService.LAST_SYNC -> CacheService.updateLastSync now s = Ok s' ->
  getItem k s = None -> getItem k s' = None.
Proof. intros Hk Hs' H. by rewrite (updateLastSync_other now s s' k Hs' Hk). Qed.

Lemma preloadEssentialData_keeps_absent now s :
  getItem CacheService.RECOMMENDATIONS s = None ->
  getItem CacheService.RECOMMENDATIONS (CacheService.preloadEssentialData now s)
  = None.
Proof.
  intros H. unfold CacheService.preloadEssentialData,
    CacheService.getCachedEssentialData, CacheService.cacheEssentialData.
  pose proof (getCache_keeps_absent now CacheService.ESSENTIAL_DATA _ s H) as H1.
  destruct (CacheService.getCache now CacheService.ESSENTIAL_DATA s)
    as [cachedData s1]. cbn [snd] in H1.
  destruct (_ && _); [done|].
  pose proof (setCache_keeps_absent now CacheService.ESSENTIAL_DATA
                CacheService.defaultEssentialData
                CacheService.EXPIRATION_ESSENTIAL_DATA
                CacheService.RECOMMENDATIONS s1) as H2.
  specialize (H2 ltac:(done) H1).
  destruct (CacheService.updateLastSync now _) as [s3|] eqn:E; [|done].
  by apply (updateLastSync_keeps_absent now CacheService.RECOMMENDATIONS _ s3) in E.
Qed.

Lemma getCachedRecommendations_absent now s :
  getItem CacheService.RECOMMENDATIONS s = None ->
  CacheService.getCachedRecommendations now s = (null, s).
Proof. apply getCache_absent. Qed.

Lemma setQueryData_other key data qc k :
  k ≠ key -> setQueryData key data qc !! k = qc !! k.
Proof.
  intros Hk. unfold setQueryData. destruct data; [|done].
  by apply lookup_insert_ne.
Qed.

Lemma popular_key_facts :
  list_key "all" 20 ≠ preferences_key
  /\ forall c, c ∈ categories -> list_key "all" 20 ≠ list_key c 10.
Proof.
  split; [by vm_compute|]. intros c Hc. unfold categories in Hc.
  repeat (apply elem_of_cons in Hc as [->|Hc]; [by vm_compute|]).
  by apply elem_of_nil in Hc.
Qed.

Lemma start_preloadUserPreferences_quiet now st :
  no_popular st -> no_popular (start_preloadUserPreferences now st).2.
Proof.
  intros [Hs Hq]. unfold start_preloadUserPreferences,
    CacheService.getCachedUserPreferences.
  pose proof (getCache_keeps_absent now CacheService.USER_PREFERENCES _ st.1 Hs)
    as H1.
  destruct (CacheService.getCache now CacheService.USER_PREFERENCES st.1)
    as [cachedPrefs s1]. cbn [snd] in H1.
  destruct (_ && _); split; cbn [fst snd]; try done.
  rewrite setQueryData_other; [done|apply popular_key_facts].
Qed.

Lemma start_preloadPopularRecommendations_quiet now st :
  no_popular st -> start_preloadPopularRecommendations now st = (Pending, st).
Proof.
  intros [Hs Hq]. unfold start_preloadPopularRecommendations.
  rewrite getCachedRecommendations_absent by done. cbn. by destruct st.
Qed.

Lemma preloadEssentialCacheData_quiet now st :
  no_popular st -> no_popular (preloadEssentialCacheData now st).2.
Proof.
  intros [Hs Hq]. split; [|done]. by apply preloadEssentialData_keeps_absent.
Qed.

Lemma finish_preloadUserPreferences_quiet env st :
  no_popular st -> no_popular (finish_preloadUserPreferences env st).2.
Proof.
  intros [Hs Hq]. unfold finish_preloadUserPreferences.
  destruct (preferences_query env) as [|preferences|reason]; [done| |].
  - split; cbn [fst snd].
    + unfold CacheService.cacheUserPreferences.
      apply setCache_keeps_absent; [|exact Hs].
      apply (bool_decide_unpack _). by vm_compute.
    + rewrite lookup_insert_ne; [done|]. intros H. by apply popular_key_facts.
  - destruct (prefetch_rethrows env); [|done].
    unfold CacheService.getCachedUserPreferences.
    pose proof (getCache_keeps_absent (settle_time env)
                  CacheService.USER_PREFERENCES _ st.1 Hs) as H1.
    destruct (CacheService.getCache _ CacheService.USER_PREFERENCES st.1)
      as [cachedPrefs s1]. cbn [snd] in H1.
    destruct (truthy cachedPrefs); split; cbn [fst snd]; try done.
    rewrite setQueryData_other; [done|apply popular_key_facts].
Qed.

Lemma finish_preloadPopularRecommendations_quiet env st reason :
  recommendations_query env = QueryFailed reason ->
  no_popular st ->
  (finish_preloadPopularRecommendations env st).2 = st.
Proof.
  intros Hq [Hs _]. unfold finish_preloadPopularRecommendations. rewrite Hq.
  destruct (prefetch_rethrows env); [|done].
  rewrite getCachedRecommendations_absent by done. cbn. by destruct st.
Qed.

Lemma preloadRecommendationCategories_quiet env st :
  no_popular st -> no_popular (preloadRecommendationCategories env st).2.
Proof.
  intros [Hs Hq]. split; [done|]. cbn [preloadRecommendationCategories snd].
  assert (forall l qc, (forall c, c ∈ l -> c ∈ categories) ->
            qc !! list_key "all" 20 = None ->
            fold_left (preloadCategory env) l qc !! list_key "all" 20 = None)
    as H.
  { induction l as [|c l IH]; intros qc Hl Hqc; [done|]. cbn [fold_left].
    apply IH; [intros c' Hc'; apply Hl; by right|].
    unfold preloadCategory. destruct (category_query env c); try done.
    rewrite lookup_insert_ne; [done|]. intros Heq.
    destruct popular_key_facts as [_ Hne]. apply (Hne c); [apply Hl; by left|done]. }
  by apply H.
Qed.

Lemma runTasks_quiet env now st reason :
  recommendations_query env = QueryFailed reason ->
  no_popular st -> no_popular (runTasks env now st).2.
Proof.
  intros Hq H0. unfold runTasks.
  pose proof (start_preloadUserPreferences_quiet now st H0) as H1.
  destruct (start_preloadUserPreferences now st) as [p1 st1]. cbn [snd] in H1.
  rewrite (start_preloadPopularRecommendations_quiet now st1 H1).
  pose proof (preloadEssentialCacheData_quiet now st1 H1) as H2.
  destruct (preloadEssentialCacheData now st1) as [r4 st2]. cbn [snd] in H2.
  assert (no_popular (settle p1 (finish_preloadUserPreferences env) st2).2) as H3.
  { destruct p1; [done|]. by apply finish_preloadUserPreferences_quiet. }
  destruct (settle p1 _ st2) as [r1 st3]. cbn [snd] in H3.
  cbn [settle].
  pose proof (finish_preloadPopularRecommendations_quiet env st3 reason Hq H3) as H4.
  destruct (finish_preloadPopularRecommendations env st3) as [r2 st4].
  cbn [snd] in H4. subst st4.
  pose proof (preloadRecommendationCategories_quiet env st3 H3) as H5.
  by destruct (preloadRecommendationCategories env st3) as [r3 st5].
Qed.

Lemma collect_lengths results : forall index result,
  (length (preloadedItems (collect index results result))
   + length (errors (collect index results result)))%nat
  = (length (preloadedItems result) + length (errors result)
     + length results)%nat.
Proof.
  induction results as [|r results IH]; intros index result; cbn [collect];
    [cbn [length]; lia|].
  rewrite IH. destruct r; cbn [preloadedItems errors]; rewrite length_app;
    cbn [length]; lia.
Qed.

(** X18. [forceRefresh] clears the caches and always runs the four
    tasks: it never returns early.  When the request for the popular
    recommendations fails, the recommendations that were cached before
    are lost: afterwards they are neither in the durable cache nor in the
    query cache, whatever the store held. *)
Theorem forceRefresh_discards env now st reason :
  recommendations_query env = QueryFailed reason ->
  let run := forceRefresh env now st in
  getItem CacheService.RECOMMENDATIONS run.2.1 = None
  /\ (forall now', (CacheService.getCachedRecommendations now' run.2.1).1 = null)
  /\ run.2.2 !! list_key "all" 20 = None
  /\ (4 <= length (preloadedItems run.1) + length (errors run.1))%nat.
Proof.
  intros Hq run.
  set (st0 := (CacheService.clearAllCaches st.1, ∅) : State).
  assert (no_popular st0) as H0.
  { split; [|done]. unfold st0. cbn [fst]. rewrite getItem_clearAllCaches.
    by rewrite decide_True by (rewrite cache_keys; left). }
  pose proof (runTasks_quiet env now st0 reason Hq H0) as [Hs1 Hq1].
  pose proof (runTasks_length env now st0) as Hlen.
  assert (getItem CacheService.RECOMMENDATIONS run.2.1 = None
          /\ run.2.2 !! list_key "all" 20 = None
          /\ (4 <= length (preloadedItems run.1) + length (errors run.1))%nat)
    as (Ha & Hb & Hc).
  { unfold run, forceRefresh, preloadEssentialData. fold st0. cbn [orb negb andb].
    destruct (runTasks env now st0) as [results st1]. cbn [fst snd] in *.
    unfold join.
    pose proof (collect_lengths results 0 (mkResult true [] [])) as Hcol.
    cbn [preloadedItems errors length] in Hcol.
    destruct (CacheService.updateLastSync (settle_time env) st1.1) as [s2|] eqn:E;
      cbn [fst snd preloadedItems errors].
    - split; [|split; [done|lia]].
      by apply (updateLastSync_keeps_absent (settle_time env)
                  CacheService.RECOMMENDATIONS st1.1 s2) in E.
    - split; [done|]. split; [done|]. rewrite length_app. lia. }
  split; [done|]. split; [|done].
  intros now'. by rewrite getCachedRecommendations_absent.
Qed.

Lemma forceRefresh_discards_witness :
  let s := CacheService.cacheRecommendations 1000 fetched (mk ∅ None) in
  let run := forceRefresh two_down 2000 (s, ∅) in
  (CacheService.getCachedRecommendations 2000 s).1 = Some fetched
  /\ getItem CacheService.RECOMMENDATIONS run.2.1 = None
  /\ (forall now', (CacheService.getCachedRecommendations now' run.2.1).1 = null)
  /\ run.2.2 !! list_key "all" 20 = None
  /\ (4 <= length (preloadedItems run.1) + length (errors run.1))%nat.
Proof.
  split; [by vm_compute|].
  by apply (forceRefresh_discards two_down 2000 _ "Error: Network Error").
Defined.

(** *** After a preload *)

Lemma preloadEssentialData_state env forceRefresh now st s' :
  tasksRun env forceRefresh now st = true ->
  CacheService.updateLastSync (settle_time env) (runTasks env now st).2.1 = Ok s' ->
  (preloadEssentialData env forceRefresh now st).2 = (s', (runTasks env now st).2.2).
Proof.
  unfold tasksRun, preloadEssentialData. intros H Hs'.
  assert (negb (forceRefresh || CacheService.needsRefresh ONE_HOUR now st.1)
          && negb (onLine env) = false) as ->.
  { destruct (forceRefresh || _); [done|]. cbn [orb] in H. by rewrite H. }
  destruct (runTasks env now st) as [results st1]. cbn [fst snd] in *.
  unfold join. by rewrite Hs'.
Qed.

(** X19. A preload that ran its tasks and stamped the last sync (the
    store accepted the write, at a clock value other than 0) is not
    repeated offline within the hour: [getPreloadStatus] reports that
    time as the last sync and no need to refresh, and a second
    [preloadEssentialData] without [forceRefresh], while offline, returns
    at once with [success] true, no error and no item, leaving both
    caches as they are. *)
Theorem preload_then_offline_returns_early env forceRefresh now st env' now' :
  tasksRun env forceRefresh now st = true ->
  fits CacheService.LAST_SYNC (string_of_Z (settle_time env))
    (runTasks env now st).2.1 = true ->
  settle_time env ≠ 0 ->
  onLine env' = false ->
  now' - settle_time env <= ONE_HOUR ->
  let st1 := (preloadEssentialData env forceRefresh now st).2 in
  (forall estimate,
     lastSync (getPreloadStatus estimate now' st1.1).1
     = Some (Some (settle_time env))
     /\ needsRefresh (getPreloadStatus estimate now' st1.1).1 = false)
  /\ preloadEssentialData env' false now' st1 = (mkResult true [] [], st1).
Proof.
  intros Hrun Hfits Hsettle Hoff Hage st1.
  pose proof (setItem_fits _ _ _ Hfits) as Hset.
  pose proof (preloadEssentialData_state env forceRefresh now st _ Hrun Hset)
    as Hst1. fold st1 in Hst1.
  pose proof (getLastSync_updateLastSync (settle_time env) _ _ Hset) as Hsync.
  assert (CacheService.getLastSync st1.1 = Some (Some (settle_time env))) as Hlast
    by (by rewrite Hst1).
  assert (CacheService.needsRefresh ONE_HOUR now' st1.1 = false) as Hfresh.
  { unfold CacheService.needsRefresh. rewrite Hlast.
    rewrite (proj2 (Z.eqb_neq _ _)) by done. apply Z.ltb_ge. lia. }
  split.
  - intros estimate. unfold getPreloadStatus.
    by destruct (CacheService.getCachedEssentialData now' st1.1).
  - apply preloadEssentialData_early. unfold tasksRun.
    by rewrite Hfresh, Hoff.
Qed.

Lemma preload_then_offline_returns_early_witness :
  let offline := mkEnv false true 4000 QueryFresh QueryFresh (fun _ => QueryFresh) in
  let st : State := (mk ∅ None, ∅) in
  let st1 := (preloadEssentialData network_up false 1000 st).2 in
  tasksRun network_up false 1000 st = true
  /\ settle_time network_up ≠ 0
  /\ 3000 - settle_time network_up <= ONE_HOUR
  /\ preloadEssentialData offline false 3000 st1 = (mkResult true [] [], st1).
Proof.
  intros offline st st1.
  split; [reflexivity|]. split; [done|]. split; [by vm_compute|].
  apply (preload_then_offline_returns_early network_up false 1000 st offline 3000);
    [reflexivity|reflexivity|done|reflexivity|by vm_compute].
Defined.

End RefreshFacts.

(** ** offlineFallbackService: what is on offer offline *)

Module FallbackFacts.
Import Storage JSFacts CacheFacts OfflineFallbackService OfflineFacts StoreFacts.

(** *** Reads of different keys do not disturb each other *)

Lemma getCache_other_key now key k s :
  k ≠ key -> getItem k (CacheService.getCache now key s).2 = getItem k s.
Proof.
  intros Hk. destruct (getCache_state now key s) as [-> | ->]; [done|].
  by apply getItem_removeItem_ne.
Qed.

(** The value a read of [key] returns. *)
Definition cached (now : Z) (key : string) (s : t) : value :=
  (CacheService.getCache now key s).1.

(** The store after the reads of [keys], in order. *)
Definition after_reads (now : Z) (keys : list string) (s : t) : t :=
  fold_left (fun s key => (CacheService.getCache now key s).2) keys s.

Lemma cached_after_reads now key keys : forall s,
  cached now key (after_reads now keys s) = cached now key s.
Proof.
  unfold after_reads, cached.
  induction keys as [|k keys IH]; intros s; cbn [fold_left]; [done|].
  rewrite IH. destruct (decide (k = key)) as [->|Hne].
  - by rewrite getCache_again.
  - apply getCache_value_local. by apply getCache_other_key.
Qed.

Lemma after_reads_snoc now keys key s :
  (CacheService.getCache now key (after_reads now keys s)).2
  = after_reads now (keys ++ [key]) s.
Proof. unfold after_reads. by rewrite fold_left_app. Qed.

Lemma after_reads_shrink now keys s k :
  getItem k (after_reads now keys s) = None
  \/ getItem k (after_reads now keys s) = getItem k s.
Proof.
  unfold after_reads. apply fold_left_shrink. intros s0 a k0.
  destruct (getCache_state now a s0) as [-> | ->];
    [by right|apply removeItem_shrink].
Qed.

Lemma after_reads_other now keys s k :
  k ∉ keys -> getItem k (after_reads now keys s) = getItem k s.
Proof.
  intros Hk. unfold after_reads.
  apply (fold_left_frame (fun s key => (CacheService.getCache now key s).2) id).
  - intros s0 a k0 Hne. by apply getCache_other_key.
  - by rewrite list_fmap_id.
Qed.

Definition DATA_KEYS : list string :=
  [CacheService.RECOMMENDATIONS; CacheService.USER_PREFERENCES;
   CacheService.TRANSLATIONS; CacheService.ESSENTIAL_DATA].

(** [getOfflineData] returns what each of the four reads returns on the
    store it is called on. *)
Lemma getOfflineData_reads now s :
  getOfflineData now s
  = (mkData
       (default (JArr [])
          (js_or (cached now CacheService.RECOMMENDATIONS s) (Some (JArr []))))
       (cached now CacheService.USER_PREFERENCES s)
       (default (JObj [])
          (js_or (cached now CacheService.TRANSLATIONS s) (Some (JObj []))))
       (cached now CacheService.ESSENTIAL_DATA s),
     after_reads now DATA_KEYS s).
Proof.
  unfold getOfflineData, CacheService.getCachedRecommendations,
    CacheService.getCachedUserPreferences, CacheService.getCachedTranslations,
    CacheService.getCachedEssentialData.
  pose proof (cached_after_reads now CacheService.USER_PREFERENCES
                [CacheService.RECOMMENDATIONS] s) as H2.
  pose proof (cached_after_reads now CacheService.TRANSLATIONS
                [CacheService.RECOMMENDATIONS; CacheService.USER_PREFERENCES] s)
    as H3.
  pose proof (cached_after_reads now CacheService.ESSENTIAL_DATA
                [CacheService.RECOMMENDATIONS; CacheService.USER_PREFERENCES;
                 CacheService.TRANSLATIONS] s) as H4.
  unfold cached, after_reads, DATA_KEYS in *. cbn [fold_left] in *.
  destruct (CacheService.getCache now CacheService.RECOMMENDATIONS s)
    as [v1 s1]. cbn [fst snd] in *.
  destruct (CacheService.getCache now CacheService.USER_PREFERENCES s1)
    as [v2 s2]. cbn [fst snd] in *.
  destruct (CacheService.getCache now CacheService.TRANSLATIONS s2)
    as [v3 s3]. cbn [fst snd] in *.
  destruct (CacheService.getCache now CacheService.ESSENTIAL_DATA s3)
    as [v4 s4]. cbn [fst snd] in *.
  by rewrite H2, H3, H4.
Qed.

(** *** Capabilities *)

(** The list the offline service works with: the cached array, or the
    empty array when nothing truthy is cached. *)
Definition cached_list (v : value) : option (list json) :=
  if truthy v then
    match v with
    | Some (JArr l) => Some l
    | _ => None
    end
  else Some [].

Lemma cached_list_or v l :
  cached_list v = Some l -> default (JArr []) (js_or v (Some (JArr []))) = JArr l.
Proof.
  unfold cached_list, js_or. destruct (truthy v); [|by intros [= <-]].
  by destruct v as [[]|]; intros [= <-].
Qed.

Lemma categories_of_total l :
  Forall (fun item => item ≠ JNull) l -> exists mapped, categories_of l = Ok mapped.
Proof.
  induction 1 as [|item l Hitem Hl [mapped IH]]; [by eexists|].
  cbn [categories_of]. destruct (get_prop_Ok item "category" Hitem) as [c ->].
  cbn. rewrite IH. by eexists.
Qed.

(** A list with an element. *)
Definition is_cons {A} (l : list A) : bool :=
  match l with
  | [] => false
  | _ :: _ => true
  end.

Lemma has_elements_list l : has_elements (JArr l) = is_cons l.
Proof. by destruct l. Qed.

Lemma getLastSync_after_reads now s :
  CacheService.getLastSync (after_reads now DATA_KEYS s) = CacheService.getLastSync s.
Proof.
  unfold CacheService.getLastSync. rewrite after_reads_other; [done|].
  apply (bool_decide_unpack _). by vm_compute.
Qed.

Lemma getOfflineCapabilities_list now s l mapped :
  cached_list (cached now CacheService.RECOMMENDATIONS s) = Some l ->
  categories_of l = Ok mapped ->
  getOfflineCapabilities now s
  = (Ok (mkCapabilities
           (is_cons l)
           (not_null (cached now CacheService.USER_PREFERENCES s))
           (0 <? own_keys
                   (default (JObj [])
                      (js_or (cached now CacheService.TRANSLATIONS s)
                         (Some (JObj [])))))%nat
           false
           (distinct [] mapped)
           (own_keys
              (default (JObj [])
                 (js_or (cached now CacheService.TRANSLATIONS s)
                    (Some (JObj [])))))
           (CacheService.getLastSync s)),
     after_reads now DATA_KEYS s).
Proof.
  intros Hl Hm. unfold getOfflineCapabilities.
  rewrite getOfflineData_reads. cbn [recommendations preferences translations].
  rewrite (cached_list_or _ l Hl), Hm. cbn [mbind res_bind].
  by rewrite has_elements_list, getLastSync_after_reads.
Qed.

(** *** The categories on offer *)









(** *** Falling back on an error *)

Lemma getOfflineRecommendations_default now s l :
  cached_list (cached now CacheService.RECOMMENDATIONS s) = Some l ->
  (getOfflineRecommendations now (mkParams None None None) s).1
  = Ok (JArr (take 10 l)).
Proof.
  intros Hl. unfold getOfflineRecommendations, cached in *.
  unfold CacheService.getCachedRecommendations.
  destruct (CacheService.getCache now CacheService.RECOMMENDATIONS s)
    as [v s1]. cbn [fst snd] in *.
  by rewrite (cached_list_or v l Hl).
Qed.

(** X20. Offline, for the feature [recommendations] in any letter case,
    [handleOfflineError] offers the first ten cached recommendations:
    [canFallback] is true exactly when that list is not empty, and the
    message says which of the two it is.  (The cached items are values
    other than [null].) *)
Theorem handleOfflineError_recommendations now error feature s l :
  toLowerCase feature = "recommendations" ->
  cached_list (cached now CacheService.RECOMMENDATIONS s) = Some l ->
  Forall (fun item => item ≠ JNull) l ->
  (handleOfflineError false now error feature s).1
  = Ok (mkOfflineError (is_cons (take 10 l))
          (Some (JArr (take 10 l)))
          (JStr (if is_cons (take 10 l)
                 then "Showing cached recommendations (offline mode)"
                 else "No cached recommendations available offline"))).
Proof.
  intros Hfeature Hl Hitems. unfold handleOfflineError. cbn [negb].
  destruct (categories_of_total l Hitems) as [mapped Hmapped].
  rewrite (getOfflineCapabilities_list now s l mapped Hl Hmapped), Hfeature.
  cbn [String.eqb Ascii.eqb Bool.eqb canBrowseRecommendations].
  pose proof (getOfflineRecommendations_default now (after_reads now DATA_KEYS s) l)
    as Hrecs.
  rewrite cached_after_reads in Hrecs. specialize (Hrecs Hl).
  destruct (getOfflineRecommendations now _ (after_reads now DATA_KEYS s))
    as [fallback s2]. cbn [fst] in *. subst fallback. cbn [mbind res_bind].
  assert (is_cons l = is_cons (take 10 l)) as -> by (by destruct l).
  done.
Qed.

Lemma handleOfflineError_recommendations_witness :
  let recs := JArr (item_to_json <$> [kachori; silk_house]) in
  let s := CacheService.cacheRecommendations 1000 recs (mk ∅ None) in
  toLowerCase "Recommendations" = "recommendations"
  /\ (handleOfflineError false 2000 None "Recommendations" s).1
     = Ok (mkOfflineError true (Some recs)
             (JStr "Showing cached recommendations (offline mode)")).
Proof.
  split; [reflexivity|].
  assert (Forall (fun item => item ≠ JNull)
            (item_to_json <$> [kachori; silk_house])) as Hitems
    by (repeat constructor; done).
  exact (handleOfflineError_recommendations 2000 None "Recommendations"
           (CacheService.cacheRecommendations 1000
              (JArr (item_to_json <$> [kachori; silk_house])) (mk ∅ None))
           (item_to_json <$> [kachori; silk_house])
           eq_refl eq_refl Hitems).
Defined.

(** *** Nothing cached *)

Lemma after_reads_absent now keys s :
  (forall key, key ∈ keys -> getItem key s = None) ->
  after_reads now keys s = s.
Proof.
  unfold after_reads. revert s.
  induction keys as [|key keys IH]; intros s H; [done|]. cbn [fold_left].
  rewrite getCache_absent by (apply H; left). cbn [snd].
  apply IH. intros k Hk. apply H. by right.
Qed.

Definition NOTHING : OfflineCapabilities :=
  mkCapabilities false false false false [] 0 None.

(** X23. After [clearAllCaches] the offline layer has nothing to offer
    and reads change nothing: no feature is available offline, the
    capabilities are all false with no category and no translation,
    [getOfflineRecommendations] is empty for every parameter, the cache
    manager reports no fallback and the application cannot work offline,
    and the suggestions are the two that ask for a connection. *)
Theorem nothing_offline_after_clearAllCaches now s :
  let s' := CacheService.clearAllCaches s in
  getOfflineData now s' = (mkData (JArr []) null (JObj []) null, s')
  /\ (forall feature, isAvailableOffline now feature s' = (false, s'))
  /\ getOfflineCapabilities now s' = (Ok NOTHING, s')
  /\ (forall params, getOfflineRecommendations now params s' = (Ok (JArr []), s'))
  /\ CacheManager.getOfflineFallbacks now s'
     = (CacheManager.mkFallbacks false false false None, s')
  /\ UseCacheManagement.canWorkOffline now s' = (false, s')
  /\ getOfflineSuggestions now s'
     = (Ok ["Connect to the internet to access all features";
            "The app will automatically sync when connection is restored"], s').
Proof.
  intros s'.
  assert (forall key, key ∈ CacheService.CACHE_KEYS.*2 -> getItem key s' = None)
    as Hgone.
  { intros key Hkey. unfold s'. rewrite getItem_clearAllCaches.
    by rewrite decide_True. }
  assert (forall key, key ∈ CacheService.CACHE_KEYS.*2 ->
            CacheService.getCache now key s' = (null, s')) as Hread.
  { intros key Hkey. by apply getCache_absent, Hgone. }
  assert (forall key, key ∈ DATA_KEYS -> key ∈ CacheService.CACHE_KEYS.*2) as Hsub.
  { intros key Hkey. unfold DATA_KEYS in Hkey. rewrite cache_keys.
    repeat (apply elem_of_cons in Hkey as [->|Hkey];
            [apply (bool_decide_unpack _); by vm_compute|]).
    by apply elem_of_nil in Hkey. }
  assert (getOfflineData now s' = (mkData (JArr []) null (JObj []) null, s'))
    as Hdata.
  { rewrite getOfflineData_reads. unfold cached.
    rewrite !Hread by (apply Hsub, (bool_decide_unpack _); by vm_compute).
    rewrite after_reads_absent; [done|]. intros key Hkey. by apply Hgone, Hsub. }
  assert (CacheService.getLastSync s' = None) as Hsync.
  { unfold CacheService.getLastSync. rewrite Hgone; [done|].
    apply (bool_decide_unpack _). by vm_compute. }
  assert (getOfflineCapabilities now s' = (Ok NOTHING, s')) as Hcap.
  { unfold getOfflineCapabilities. rewrite Hdata. cbv beta iota.
    by rewrite Hsync. }
  split; [exact Hdata|]. split; [|split; [exact Hcap|split; [|split; [|split]]]].
  - intros feature. unfold isAvailableOffline. rewrite Hdata.
    cbn [recommendations preferences translations essentialData].
    by repeat destruct (String.eqb feature _).
  - intros params. unfold getOfflineRecommendations,
      CacheService.getCachedRecommendations.
    rewrite Hread by (apply Hsub; left). cbn.
    destruct (negb _), (match query params with Some q => _ | None => _ end);
      cbn; by rewrite take_nil.
  - unfold CacheManager.getOfflineFallbacks, CacheService.getOfflineFallback,
      CacheService.getCachedRecommendations, CacheService.getCachedEssentialData,
      CacheService.getCachedUserPreferences.
    rewrite !Hread by (apply (bool_decide_unpack _); by vm_compute).
    cbv beta iota. by rewrite Hsync.
  - unfold UseCacheManagement.canWorkOffline, CacheManager.getOfflineFallbacks,
      CacheService.getOfflineFallback,
      CacheService.getCachedRecommendations, CacheService.getCachedEssentialData,
      CacheService.getCachedUserPreferences.
    by rewrite !Hread by (apply (bool_decide_unpack _); by vm_compute).
  - unfold getOfflineSuggestions. by rewrite Hcap.
Qed.

Lemma getOfflineCapabilities_lastSyncTime now s capabilities :
  (getOfflineCapabilities now s).1 = Ok capabilities ->
  lastSyncTime capabilities = CacheService.getLastSync s.
Proof.
  unfold getOfflineCapabilities. rewrite getOfflineData_reads. cbn [fst].
  destruct (recommendations _); try done.
  destruct (categories_of l); [|done]. cbn [mbind res_bind].
  intros [= <-]. apply getLastSync_after_reads.
Qed.

(** X22. [getOfflineStatus] reports each of the three features once, as
    a capability or as a limitation, and two more limitations when the
    client is offline; [hasData] is true exactly when a feature is
    available; the last sync is rendered by the platform, and reads
    [Never] when there is no marker, when it is not a number and when it
    is 0. *)
Theorem getOfflineStatus_partition onLine toLocaleString now s status :
  (getOfflineStatus onLine toLocaleString now s).1 = Ok status ->
  exists capabilities,
    (getOfflineCapabilities now s).1 = Ok capabilities
    /\ (length (OfflineFallbackService.capabilities status)
        + length (limitations status)
        = 3 + if onLine then 0 else 2)%nat
    /\ hasData status
       = canBrowseRecommendations capabilities || canUsePreferences capabilities
         || canTranslate capabilities
    /\ isOffline status = negb onLine
    /\ OfflineFallbackService.lastSync status
       = match CacheService.getLastSync s with
         | Some (Some n) => if n =? 0 then "Never" else toLocaleString n
         | _ => "Never"
         end.
Proof.
  unfold getOfflineStatus.
  pose proof (getOfflineCapabilities_lastSyncTime now s) as Hsync.
  destruct (getOfflineCapabilities now s) as [[capabilities|e] s1]; [|done].
  cbn [fst mbind res_bind] in *. specialize (Hsync capabilities eq_refl).
  intros Hstatus. exists capabilities. split; [done|]. rewrite <- Hsync.
  destruct (canBrowseRecommendations capabilities),
    (canUsePreferences capabilities), (canTranslate capabilities), onLine;
    cbn in Hstatus; injection Hstatus as <-; by cbn.
Qed.

Lemma getOfflineStatus_partition_witness :
  let s := mk {[ CacheService.LAST_SYNC := "0" ]} None in
  let status :=
    mkOfflineStatus true false []
      ["No cached recommendations"; "No saved preferences";
       "No cached translations"; "Speech-to-text unavailable";
       "Fresh data updates unavailable"] "Never" in
  (getOfflineStatus false (fun _ => "1/1/1970, 12:00:00 AM") 1000 s).1 = Ok status
  /\ (length (OfflineFallbackService.capabilities status)
      + length (limitations status) = 3 + 2)%nat.
Proof.
  intros s status.
  assert ((getOfflineStatus false (fun _ => "1/1/1970, 12:00:00 AM") 1000 s).1
          = Ok status) as H by (by vm_compute).
  split; [exact H|].
  by destruct (getOfflineStatus_partition false _ 1000 s status H)
    as (capabilities & _ & Hlen & _).
Defined.

(** *** Ready to work offline *)

Lemma getOfflineFallback_reads now s :
  (CacheService.getOfflineFallback now s).1
  = CacheService.mkFallback
      (default (JArr [])
         (js_or (cached now CacheService.RECOMMENDATIONS s) (Some (JArr []))))
      (cached now CacheService.ESSENTIAL_DATA s)
      (cached now CacheService.USER_PREFERENCES s).
Proof.
  unfold CacheService.getOfflineFallback, CacheService.getCachedRecommendations,
    CacheService.getCachedUserPreferences, CacheService.getCachedEssentialData.
  pose proof (cached_after_reads now CacheService.ESSENTIAL_DATA
                [CacheService.RECOMMENDATIONS] s) as H2.
  pose proof (cached_after_reads now CacheService.USER_PREFERENCES
                [CacheService.RECOMMENDATIONS; CacheService.ESSENTIAL_DATA] s)
    as H3.
  unfold cached, after_reads in *. cbn [fold_left] in *.
  destruct (CacheService.getCache now CacheService.RECOMMENDATIONS s)
    as [v1 s1]. cbn [fst snd] in *.
  destruct (CacheService.getCache now CacheService.ESSENTIAL_DATA s1)
    as [v2 s2]. cbn [fst snd] in *.
  destruct (CacheService.getCache now CacheService.USER_PREFERENCES s2)
    as [v3 s3]. cbn [fst snd] in *.
  by rewrite H2, H3.
Qed.

Lemma truthy_not_null v : truthy v = true -> not_null v = true.
Proof. by destruct v as [[]|]. Qed.

(** X28. Once the essential data has been preloaded and the user
    preferences cached, on a store without a size limit and at a clock
    value other than 0, the application can work offline:
    [getOfflineFallbacks] reports essential data and preferences, and
    [canWorkOffline] is true. *)
Theorem canWorkOffline_after_setup now preferences s :
  capacity s = None -> now ≠ 0 ->
  wf preferences = true -> preferences ≠ JNull ->
  let s' :=
    CacheService.cacheUserPreferences now preferences
      (CacheService.preloadEssentialData now s) in
  CacheManager.hasEssentialData (CacheManager.getOfflineFallbacks now s').1 = true
  /\ CacheManager.hasPreferences (CacheManager.getOfflineFallbacks now s').1 = true
  /\ (UseCacheManagement.canWorkOffline now s').1 = true
  /\ (getOfflinePreferences now s').1 = Some preferences.
Proof.
  intros Hcap Hnow Hwf Hnull s'.
  destruct (preloadEssentialData_fresh now s Hcap Hnow) as (Ht & _ & Hcap1).
  set (s1 := CacheService.preloadEssentialData now s) in *.
  assert (s' = mk (<[CacheService.USER_PREFERENCES:=
                      JSON_stringify
                        (CacheService.CacheItem preferences now
                           (now + CacheService.EXPIRATION_USER_PREFERENCES))]>
                     (items s1)) (capacity s1)) as Hs'.
  { unfold s', CacheService.cacheUserPreferences.
    by rewrite setCache_accepted by by apply fits_unbounded. }
  assert (cached now CacheService.USER_PREFERENCES s' = Some preferences) as Hprefs.
  { unfold cached.
    rewrite (getCache_envelope now _ s' preferences now
               (now + CacheService.EXPIRATION_USER_PREFERENCES));
      [|done|rewrite Hs'; apply getItem_insert].
    by rewrite (proj2 (Z.ltb_ge _ _))
      by (unfold CacheService.EXPIRATION_USER_PREFERENCES; lia). }
  assert (truthy (cached now CacheService.ESSENTIAL_DATA s') = true) as Hdata.
  { unfold cached.
    rewrite (getCache_value_local now CacheService.ESSENTIAL_DATA s' s1);
      [exact Ht|].
    rewrite Hs'. destruct s1. by rewrite getItem_insert_ne. }
  assert (CacheManager.hasEssentialData (CacheManager.getOfflineFallbacks now s').1
          = true
          /\ CacheManager.hasPreferences (CacheManager.getOfflineFallbacks now s').1
             = true) as [H1 H2].
  { unfold CacheManager.getOfflineFallbacks.
    pose proof (getOfflineFallback_reads now s') as Hreads.
    destruct (CacheService.getOfflineFallback now s') as [fallbackData s2].
    cbn [fst] in *. subst fallbackData.
    cbn [CacheManager.hasEssentialData CacheManager.hasPreferences
         CacheService.essentialData CacheService.preferences].
    rewrite Hprefs. split; [by apply truthy_not_null|by destruct preferences]. }
  split; [done|]. split; [done|]. split; [|exact Hprefs].
  unfold UseCacheManagement.canWorkOffline.
  destruct (CacheManager.getOfflineFallbacks now s') as [fallbacks s2].
  cbn [fst] in *. by rewrite H1, H2.
Qed.

Lemma canWorkOffline_after_setup_witness :
  let preferences := JObj [("preferredLanguage", JStr "hi")] in
  let s := mk ∅ None in
  let s' :=
    CacheService.cacheUserPreferences 1000 preferences
      (CacheService.preloadEssentialData 1000 s) in
  (UseCacheManagement.canWorkOffline 1000 s).1 = false
  /\ (UseCacheManagement.canWorkOffline 1000 s').1 = true.
Proof.
  intros preferences s s'. split; [by vm_compute|].
  by destruct (canWorkOffline_after_setup 1000 preferences s eq_refl
                 ltac:(done) eq_refl ltac:(done)) as (_ & _ & H & _).
Defined.

(** *** A search over incomplete items *)








End FallbackFacts.

(** ** The hooks and the preferences service *)

Module HookFacts.
Import Storage JSFacts CacheFacts StoreFacts FallbackFacts.

(** *** The text of a translation key *)

Lemma lower_ascii_idem c : lower_ascii (lower_ascii c) = lower_ascii c.
Proof. destruct c as [[] [] [] [] [] [] [] []]; reflexivity. Qed.

Lemma is_space_lower c : is_space (lower_ascii c) = is_space c.
Proof. destruct c as [[] [] [] [] [] [] [] []]; reflexivity. Qed.

Lemma toLowerCase_idem s : toLowerCase (toLowerCase s) = toLowerCase s.
Proof.
  induction s as [|c s IH]; [done|]. cbn [toLowerCase].
  by rewrite lower_ascii_idem, IH.
Qed.

Lemma skip_space_lower s : skip_space (toLowerCase s) = toLowerCase (skip_space s).
Proof.
  induction s as [|c s IH]; [done|]. cbn [toLowerCase skip_space].
  rewrite is_space_lower. by destruct (is_space c).
Qed.

Lemma trim_end_lower s : trim_end (toLowerCase s) = toLowerCase (trim_end s).
Proof.
  induction s as [|c s IH]; [done|]. cbn [toLowerCase trim_end].
  rewrite IH, is_space_lower.
  destruct (trim_end s); cbn [toLowerCase]; [by destruct (is_space c)|done].
Qed.

Lemma trim_lower s : trim (toLowerCase s) = toLowerCase (trim s).
Proof. unfold trim. by rewrite skip_space_lower, trim_end_lower. Qed.

Lemma trim_end_cons c s :
  trim_end (String c s)
  = match trim_end s with
    | EmptyString => if is_space c then EmptyString else String c EmptyString
    | t => String c t
    end.
Proof. reflexivity. Qed.

Lemma trim_end_idem s : trim_end (trim_end s) = trim_end s.
Proof.
  induction s as [|c s IH]; [done|]. rewrite trim_end_cons.
  destruct (trim_end s) as [|d t] eqn:E.
  - destruct (is_space c) eqn:Hc; [done|]. rewrite trim_end_cons. cbn [trim_end].
    by rewrite Hc.
  - rewrite trim_end_cons. by rewrite IH.
Qed.

Lemma skip_space_head c s : is_space c = false -> skip_space (String c s) = String c s.
Proof. intros H. cbn [skip_space]. by rewrite H. Qed.

Lemma trim_end_head c s :
  trim_end (String c s) = EmptyString \/ exists t, trim_end (String c s) = String c t.
Proof.
  cbn [trim_end]. destruct (trim_end s); [|right; by eexists].
  destruct (is_space c); [by left|right; by eexists].
Qed.

Lemma skip_space_no_space s :
  skip_space s = EmptyString
  \/ exists c t, skip_space s = String c t /\ is_space c = false.
Proof.
  induction s as [|c s IH]; [by left|]. cbn [skip_space].
  destruct (is_space c) eqn:E; [done|]. right. by exists c, s.
Qed.

Lemma trim_idem s : trim (trim s) = trim s.
Proof.
  unfold trim. destruct (skip_space_no_space s) as [->|(c & t & -> & Hc)]; [done|].
  destruct (trim_end_head c t) as [->|[t' Ht]]; [done|].
  rewrite Ht, skip_space_head by done. rewrite <- Ht. apply trim_end_idem.
Qed.

(** The part of the text that enters the key. *)
Definition normal (text : string) : string := trim (toLowerCase text).

Lemma normal_idem text : normal (normal text) = normal text.
Proof.
  unfold normal.
  by rewrite (trim_lower text), toLowerCase_idem, <- (trim_lower text), trim_idem.
Qed.



(** *** From the translation hook to the offline service *)







(** X25. A result of [useTranslation] that is marked as cached always
    has confidence 1 and is the truthy value found in the cache before
    the request: the branch of the catch block that would serve a cached
    translation at confidence 0.8 is never taken.  A result that is not
    marked as cached is the answer of the request. *)
Theorem translate_confidence onLine request now later text targetLanguage
    sourceLanguage s :
  match (UseRecommendations.translate onLine request now later text
           targetLanguage sourceLanguage s).1 with
  | Some result =>
      if UseRecommendations.cached result then
        UseRecommendations.confidence result = 1%Q
        /\ (CacheService.getCachedTranslation now
              (UseRecommendations.generateTranslationCacheKey text targetLanguage
                 sourceLanguage) s).1
           = Some (UseRecommendations.translated_text result)
        /\ truthy (Some (UseRecommendations.translated_text result)) = true
      else
        request
        = UseRecommendations.Answered
            match UseRecommendations.translated_text result with
            | JStr translated => translated
            | _ => EmptyString
            end
            (UseRecommendations.confidence result)
  | None =>
      truthy (CacheService.getCachedTranslation now
                (UseRecommendations.generateTranslationCacheKey text
                   targetLanguage sourceLanguage) s).1 = false
  end.
Proof.
  unfold UseRecommendations.translate.
  destruct (CacheService.getCachedTranslation now _ s) as [cachedTranslation s1].
  cbn [fst]. destruct (truthy cachedTranslation) eqn:Ht.
  - cbn [fst UseRecommendations.cached UseRecommendations.confidence
         UseRecommendations.translated_text].
    destruct cachedTranslation as [v|]; [by cbn|done].
  - rewrite andb_false_r. destruct request as [translated confidence|]; [|done].
    by destruct (CacheService.cacheTranslation later _ translated s1).
Qed.

(** *** Two writers of the preferences *)

(** X26. The preferences service and the cache service write the key
    [userPreferences] in two formats.  After the mutation of
    [useSavePreferences] (the request answered, the store without a size
    limit) the cache service reads the preferences back, but the
    preferences service, reading the same key, returns the envelope
    [{data, timestamp, expiration}] in their place.  After a save by
    the preferences service alone, it reads the preferences back, while
    the cache service, for preferences without a [data] and an
    [expiration] field, returns [undefined]. *)
Theorem preferences_two_formats data now preferences s :
  wf preferences = true -> capacity s = None ->
  let hook :=
    UsePreferences.useSavePreferences (PreferencesService.Responded data) now
      preferences s in
  let service :=
    PreferencesService.savePreferences (PreferencesService.Responded data)
      preferences s in
  hook.1 = PreferencesService.Resolved data
  /\ (forall now', now' <= now + CacheService.EXPIRATION_USER_PREFERENCES ->
        CacheService.getCachedUserPreferences now' hook.2
        = (Some preferences, hook.2))
  /\ PreferencesService.getCachedPreferences hook.2
     = Some (CacheService.CacheItem preferences now
               (now + CacheService.EXPIRATION_USER_PREFERENCES))
  /\ service.1 = PreferencesService.Resolved data
  /\ PreferencesService.getCachedPreferences service.2 = Some preferences
  /\ (forall m now',
        preferences = JObj m ->
        obj_get "data" m = None -> obj_get "expiration" m = None ->
        CacheService.getCachedUserPreferences now' service.2
        = (undefined, service.2)).
Proof.
  intros Hwf Hcap hook service.
  assert (service
          = (PreferencesService.Resolved data,
             mk (<[PreferencesService.KEY:=JSON_stringify preferences]> (items s))
                (capacity s))) as Hservice.
  { unfold service, PreferencesService.savePreferences.
    by rewrite setItem_fits by by apply fits_unbounded. }
  assert (hook
          = (PreferencesService.Resolved data,
             mk (<[CacheService.USER_PREFERENCES:=
                    JSON_stringify
                      (CacheService.CacheItem preferences now
                         (now + CacheService.EXPIRATION_USER_PREFERENCES))]>
                   (<[PreferencesService.KEY:=JSON_stringify preferences]>
                      (items s)))
                (capacity s))) as Hhook.
  { unfold hook, UsePreferences.useSavePreferences. fold service. rewrite Hservice.
    unfold CacheService.cacheUserPreferences.
    by rewrite setCache_accepted by by apply fits_unbounded. }
  rewrite Hhook, Hservice. cbn [fst snd].
  split; [done|]. split; [|split; [|split; [done|split]]].
  - intros now' Hnow'. unfold CacheService.getCachedUserPreferences.
    rewrite (getCache_envelope now' _ _ preferences now
               (now + CacheService.EXPIRATION_USER_PREFERENCES));
      [|done|apply getItem_insert].
    by rewrite (proj2 (Z.ltb_ge _ _)) by lia.
  - unfold PreferencesService.getCachedPreferences.
    change PreferencesService.KEY with CacheService.USER_PREFERENCES.
    rewrite getItem_insert, nonempty_CacheItem.
    by rewrite JSON_parse_stringify by by apply wf_CacheItem.
  - unfold PreferencesService.getCachedPreferences.
    rewrite getItem_insert, JSON_parse_stringify by done.
    destruct (stringify_head preferences EmptyString) as (c & r & Hhead & _).
    unfold JSON_stringify. by rewrite Hhead.
  - intros m now' -> Hdata Hexp. unfold CacheService.getCachedUserPreferences,
      CacheService.getCache.
    change PreferencesService.KEY with CacheService.USER_PREFERENCES.
    rewrite getItem_insert, nonempty_stringify_obj.
    rewrite JSON_parse_stringify by done. cbn [get_prop].
    by rewrite Hdata, Hexp.
Qed.

Lemma preferences_two_formats_witness :
  let preferences :=
    JObj [("preferredLanguage", JStr "hi"); ("locationSharing", JBool false)] in
  let s := mk ∅ None in
  let hook :=
    UsePreferences.useSavePreferences (PreferencesService.Responded (JObj [])) 1000
      preferences s in
  wf preferences = true /\ capacity s = None
  /\ PreferencesService.getCachedPreferences hook.2
     = Some (CacheService.CacheItem preferences 1000
               (1000 + CacheService.EXPIRATION_USER_PREFERENCES)).
Proof.
  intros preferences s hook. split; [reflexivity|]. split; [reflexivity|].
  by destruct (preferences_two_formats (JObj []) 1000 preferences s eq_refl eq_refl)
    as (_ & _ & H & _).
Defined.

End HookFacts.
